(** * go-iost: consensus (PoB), deferred transactions, RPC and VM storage glue

    A shallow embedding of the functions of
    - [consensus/pob] (witness schedule, block verification, watermarks,
      last-irreversible-block computation),
    - [core/txpool/defer.go] (the deferred-transaction server),
    - [rpc] ([SendRawTx], [Subscribe]),
    - [vm/v8vm/storage.go] ([dbValToString]) and
    - [core/contract/contract.go] ([Decode], [DecodeContract]),
    followed by the properties proved about them.

    Conventions.  A Go [int64] is a [Z] and every arithmetic operation of
    the source is followed by [Int64.wrap]; Go's [/] and [%] truncate
    toward zero ([Z.quot], [Z.rem]) and panic on a zero divisor.  A run-time
    panic is the outcome [Panic].  Pointers to block-cache nodes are
    addresses into a heap ([gmap positive BlockCacheNode]), [None] is the
    nil pointer.  Packages whose code is not part of this development
    (tx, txpool, verifier, block chain, protobuf, the gRPC stream) appear
    as interfaces (type classes), instantiated only in the examples. *)

From Stdlib Require Import ZArith Lia.
From stdpp Require Import base numbers option list strings gmap pretty sorting.

Open Scope Z_scope.

(** ** Machine integers *)

Module Int64.

Definition MaxInt64 : Z := 9223372036854775807.
Definition MinInt64 : Z := -9223372036854775808.

Definition wrap (z : Z) : Z := (z + 2 ^ 63) `mod` 2 ^ 64 - 2 ^ 63.

Definition add (a b : Z) : Z := wrap (a + b).
Definition sub (a b : Z) : Z := wrap (a - b).
Definition mul (a b : Z) : Z := wrap (a * b).

Definition InRange (z : Z) : Prop := MinInt64 ≤ z ≤ MaxInt64.

End Int64.

(** ** Outcomes of a Go call: a value, a run-time panic, or (for the loops
    that follow parent pointers) exhaustion of the fuel of the model. *)

Inductive outcome (A : Type) : Type :=
| Ret (a : A)
| Panic
| OutOfFuel.
Arguments Ret {A} a.
Arguments Panic {A}.
Arguments OutOfFuel {A}.

#[global] Instance outcome_ret : MRet outcome := λ A a, Ret a.
#[global] Instance outcome_bind : MBind outcome := λ A B k x,
  match x with
  | Ret a => k a
  | Panic => Panic
  | OutOfFuel => OutOfFuel
  end.

(** Go's [a / b] and [a % b] on [int64]. *)
Definition quo64 (a b : Z) : outcome Z :=
  if b =? 0 then Panic else Ret (Int64.wrap (a `quot` b)).
Definition rem64 (a b : Z) : outcome Z :=
  if b =? 0 then Panic else Ret (Int64.wrap (a `rem` b)).

(** [s[i]] on a slice, with an [int64] index: out of range panics. *)
Definition index {A : Type} (s : list A) (i : Z) : outcome A :=
  if i <? 0 then Panic
  else match s !! Z.to_nat i with
       | Some a => Ret a
       | None => Panic
       end.

(** [bytes.Compare]: lexicographic order on byte slices, result in -1, 0, 1. *)
Fixpoint bytesCompare (a b : list Byte.byte) : Z :=
  match a, b with
  | [], [] => 0
  | [], _ :: _ => -1
  | _ :: _, [] => 1
  | x :: a', y :: b' =>
      match N.compare (Byte.to_N x) (Byte.to_N y) with
      | Lt => -1
      | Gt => 1
      | Eq => bytesCompare a' b'
      end
  end.

(** [strings.Compare]: the byte order of the two strings. *)
Definition stringsCompare (a b : string) : Z :=
  bytesCompare (String.list_byte_of_string a) (String.list_byte_of_string b).

(** ** core/tx and core/block: the fields the embedded functions read *)

Module Core.

Record Tx : Type := mkTx {
  Time : Z;                       (* creation time, ns *)
  Delay : Z;                      (* delay of a delay tx, ns *)
  ReferredTx : list Byte.byte;    (* hash of the referred tx *)
  Payload : string                (* actions, signatures, ...: opaque here *)
}.

Record BlockHead : Type := mkHead {
  Number : Z;
  Witness : string;
  HeadTime : Z                    (* [Head.Time], ns *)
}.

Record Block : Type := mkBlock {
  Head : BlockHead;
  Txs : list Tx
}.

(** The methods of [*tx.Tx] used by the embedded code. *)
Class TxOps : Type := {
  Hash : Tx → list Byte.byte;
  VerifySelf : Tx → option string;
  IsDefer : Tx → bool;
  VerifyDefer : Tx → Tx → option string
}.

End Core.

(** ** consensus/pob *)

Module Pob.
Import Core.

Record StaticProperty : Type := mkStaticProperty {
  NumberOfWitnesses : Z;
  WitnessList : list string;
  Watermark : gmap string Z
}.

(** A Go map read: the zero value when the key is absent. *)
Definition mapGet `{Countable K} (m : gmap K Z) (k : K) : Z := default 0 (m !! k).

Record BlockCacheNode : Type := mkNode {
  NHead : BlockHead;
  ConfirmUntil : Z;
  Parent : option positive
}.

Definition second2nanosecond : Z := 1000000000.

(** [common.SlotLength] is a constant of package [common]; it is a parameter
    of the functions that use it. *)
Definition witnessOfSlot (sp : StaticProperty) (slot : Z) (witnessList : list string)
  : outcome string :=
  idx ← rem64 slot (NumberOfWitnesses sp);
  index witnessList idx.

Definition witnessOfSec (SlotLength : Z) (sp : StaticProperty) (sec : Z)
  (witnessList : list string) : outcome string :=
  slot ← quo64 sec SlotLength;
  witnessOfSlot sp slot witnessList.

Definition witnessOfNanoSec (SlotLength : Z) (sp : StaticProperty) (nanosec : Z)
  (witnessList : list string) : outcome string :=
  sec ← quo64 nanosec second2nanosecond;
  witnessOfSec SlotLength sp sec witnessList.

Definition slotOfSec (SlotLength : Z) (sec : Z) : outcome Z := quo64 sec SlotLength.

Definition timeUntilNextSchedule (SlotLength : Z) (timeSec : Z) : outcome Z :=
  currentSlot ← quo64 timeSec (Int64.mul second2nanosecond SlotLength);
  Ret (Int64.sub
         (Int64.mul (Int64.mul (Int64.add currentSlot 1) second2nanosecond) SlotLength)
         timeSec).

(** [updateWaterMark]: the node gets the watermark of its witness, then the
    watermark is raised to [Number + 1] when the node's number reaches it. *)
Definition updateWaterMark (sp : StaticProperty) (node : BlockCacheNode)
  : BlockCacheNode * StaticProperty :=
  let w := Witness (NHead node) in
  let node' := mkNode (NHead node) (mapGet (Watermark sp) w) (Parent node) in
  let sp' :=
    if mapGet (Watermark sp) w <=? Number (NHead node)
    then mkStaticProperty (NumberOfWitnesses sp) (WitnessList sp)
           (<[w := Int64.add (Number (NHead node)) 1]> (Watermark sp))
    else sp in
  (node', sp').

(** Linking a sequence of nodes, in order: the nodes as they are after
    [updateWaterMark], and the final static property. *)
Fixpoint linkAll (sp : StaticProperty) (nodes : list BlockCacheNode)
  : list BlockCacheNode * StaticProperty :=
  match nodes with
  | [] => ([], sp)
  | n :: rest =>
      let '(n', sp') := updateWaterMark sp n in
      let '(rest', sp'') := linkAll sp' rest in
      (n' :: rest', sp'')
  end.

Definition confirmLimit (sp : StaticProperty) : outcome Z :=
  q ← quo64 (Int64.mul (NumberOfWitnesses sp) 2) 3;
  Ret (Int64.add q 1).

(** The loop of [calculateConfirm]; [node] is the loop variable (nil is
    [None]), [root] the address it is compared with. *)
Fixpoint calculateConfirmLoop (fuel : nat) (h : gmap positive BlockCacheNode)
  (limit : Z) (root : option positive) (node : option positive)
  (confirmNum : Z) (confirmUntilMap : gmap Z Z) : outcome (option positive) :=
  match fuel with
  | O => OutOfFuel
  | S fuel' =>
      if decide (node = root) then Ret None
      else
        match node ≫= (h !!.) with
        | None => Panic
        | Some n =>
            let counted := ConfirmUntil n <=? Number (NHead n) in
            let confirmNum1 := if counted then Int64.add confirmNum 1 else confirmNum in
            let map1 :=
              if counted
              then <[ConfirmUntil n := Int64.add (mapGet confirmUntilMap (ConfirmUntil n)) 1]>
                     confirmUntilMap
              else confirmUntilMap in
            if limit <=? confirmNum1 then Ret node
            else
              calculateConfirmLoop fuel' h limit root (Parent n)
                (Int64.sub confirmNum1 (mapGet map1 (Number (NHead n)))) map1
        end
  end.

(** [calculateConfirm]: [node.Head.Number] and [root.Head.Number] are read
    before the loop (for the size hint of the map, which has no other
    effect), so a nil argument panics. *)
Definition calculateConfirm (fuel : nat) (h : gmap positive BlockCacheNode)
  (sp : StaticProperty) (node root : option positive) : outcome (option positive) :=
  limit ← confirmLimit sp;
  match node ≫= (h !!.), root ≫= (h !!.) with
  | Some _, Some _ => calculateConfirmLoop fuel h limit root node 0 ∅
  | _, _ => Panic
  end.

(** *** Block verification

    The package's error values; [errReferred] is
    [fmt.Errorf("get referred tx error, %v", err)], and [errForeign] stands
    for an error value made by another package (cverifier, tx, verifier),
    which is never one of this package's unexported values. *)
Inductive error : Type :=
| errWitness
| errSignature
| errTxDup
| errTxSignature
| errHeadHash
| errReferred (cause : string)
| errForeign (msg : string).

(** [txpool.FRet], the answer of [ExistTxs]. *)
Inductive FRet : Type := NotFound | FoundPending | FoundChain.

(** What [verifyBlock] calls in other packages:
    [cverifier.VerifyBlockHead], [txPool.ExistTxs], [chain.GetTx] and
    [verifier.Verify] (on the state database checked out by the caller). *)
Class BlockEnv : Type := {
  VerifyBlockHead : Block → Block → Block → option string;
  ExistTxs : list Byte.byte → Block → FRet;
  GetTx : list Byte.byte → string + Tx;
  VerifierVerify : Block → Block → option string
}.

(** The body of the loop over [blk.Txs], for a transaction that is not the
    base transaction. *)
Definition verifyTx `{TxOps, BlockEnv} (parent : Block) (t : Tx) : option error :=
  match ExistTxs (Hash t) parent with
  | FoundChain => Some errTxDup
  | FoundPending => None
  | NotFound =>
      match VerifySelf t with
      | Some _ => Some errTxSignature
      | None =>
          if IsDefer t then
            match GetTx (ReferredTx t) with
            | inl cause => Some (errReferred cause)
            | inr referredTx => errForeign <$> VerifyDefer t referredTx
            end
          else None
      end
  end.

(** The loop [for i, t := range blk.Txs], from index [i] on: index 0 is
    skipped, the first error is returned. *)
Fixpoint verifyTxs `{TxOps, BlockEnv} (i : nat) (txs : list Tx) (parent : Block)
  : option error :=
  match txs with
  | [] => None
  | t :: rest =>
      match i with
      | O => verifyTxs (S i) rest parent
      | S _ =>
          match verifyTx parent t with
          | Some e => Some e
          | None => verifyTxs (S i) rest parent
          end
      end
  end.

(** [verifyBlock]; [Ret None] is the nil error (the block is accepted). *)
Definition verifyBlock `{TxOps, BlockEnv} (SlotLength : Z) (sp : StaticProperty)
  (blk parent lib : Block) : outcome (option error) :=
  match VerifyBlockHead blk parent lib with
  | Some e => Ret (Some (errForeign e))
  | None =>
      w ← witnessOfNanoSec SlotLength sp (HeadTime (Head blk)) (WitnessList sp);
      if negb (String.eqb w (Witness (Head blk))) then Ret (Some errWitness)
      else
        match verifyTxs 0 (Txs blk) parent with
        | Some e => Ret (Some e)
        | None => Ret (errForeign <$> VerifierVerify blk parent)
        end
  end.

(** *** The walk of [calculateConfirm], stated on the list of walked nodes

    [Walk h root node path]: following [Parent] from [node] reaches [root];
    [path] lists the nodes met before [root], with their addresses. *)
Inductive Walk (h : gmap positive BlockCacheNode) (root : positive)
  : option positive → list (positive * BlockCacheNode) → Prop :=
| Walk_root : Walk h root (Some root) []
| Walk_step p n path :
    p ≠ root → h !! p = Some n → Walk h root (Parent n) path →
    Walk h root (Some p) ((p, n) :: path).

Fixpoint countZ {A : Type} (p : A → bool) (l : list A) : Z :=
  match l with
  | [] => 0
  | x :: l' => (if p x then 1 else 0) + countZ p l'
  end.

Fixpoint sumTo (f : nat → Z) (k : nat) : Z :=
  match k with
  | O => 0
  | S k' => sumTo f k' + f k'
  end.

Fixpoint firstIndex (p : nat → bool) (from count : nat) : option nat :=
  match count with
  | O => None
  | S count' => if p from then Some from else firstIndex p (S from) count'
  end.

(** A walked node contributes when its [ConfirmUntil] is at most its number. *)
Definition counted (n : BlockCacheNode) : bool :=
  ConfirmUntil n <=? Number (NHead n).

(** Contributions among the first [k] walked nodes. *)
Definition countedIn (l : list BlockCacheNode) (k : nat) : Z :=
  countZ counted (take k l).

(** What is subtracted when the walk descends past node [j]: the
    contributions counted so far (nodes [0..j]) whose [ConfirmUntil] equals
    the number of node [j]. *)
Definition subtractedAt (l : list BlockCacheNode) (j : nat) : Z :=
  match l !! j with
  | Some nj =>
      countZ (λ n, counted n && (ConfirmUntil n =? Number (NHead nj))) (take (S j) l)
  | None => 0
  end.

(** The running count when the walk stands on node [k]. *)
Definition runningCount (l : list BlockCacheNode) (k : nat) : Z :=
  countedIn l (S k) - sumTo (subtractedAt l) k.

(** The limit [NumberOfWitnesses*2/3 + 1] as the source computes it. *)
Definition limitOf (sp : StaticProperty) : Z :=
  Int64.add (Int64.wrap (Int64.mul (NumberOfWitnesses sp) 2 `quot` 3)) 1.

(** The walk as the specification describes it: the first walked node at
    which the running count reaches the limit, nil when there is none. *)
Definition confirmedOnWalk (limit : Z) (path : list (positive * BlockCacheNode))
  : option positive :=
  k ← firstIndex (λ k, limit <=? runningCount (path.*2) k) 0 (length path);
  fst <$> path !! k.

(** *** More of properties.go *)

(** [(property *StaticProperty) isWitness]. *)
Fixpoint isWitness (w : string) (witnessList : list string) : bool :=
  match witnessList with
  | [] => false
  | v :: rest => if stringsCompare v w =? 0 then true else isWitness w rest
  end.

(** What the watermark of witness [w] is after the blocks [nodes] were
    linked, starting from [init]: raised to [Number + 1] by every block of
    [w] that reaches it. *)
Definition highWater (w : string) (init : Z) (nodes : list BlockCacheNode) : Z :=
  foldl (λ acc n,
           if decide (Witness (NHead n) = w) then Z.max acc (Number (NHead n) + 1) else acc)
        init nodes.

(** Following [Parent] from a node that is not below [root]: the walk meets
    the nil pointer; [path] lists the nodes met. *)
Inductive WalkOff (h : gmap positive BlockCacheNode) (root : positive)
  : option positive → list (positive * BlockCacheNode) → Prop :=
| WalkOff_nil : WalkOff h root None []
| WalkOff_step p n path :
    p ≠ root → h !! p = Some n → WalkOff h root (Parent n) path →
    WalkOff h root (Some p) ((p, n) :: path).

(** [bc.Flush], the only use [updateLib] makes of the block cache. *)
Class BlockCacheOps (BC : Type) : Type := {
  Flush : positive → BC → BC
}.

(** [updateLib] (the metrics gauge is left out). *)
Definition updateLib `{BlockCacheOps BC} (fuel : nat) (h : gmap positive BlockCacheNode)
  (sp : StaticProperty) (node root : option positive) (bc : BC) : outcome BC :=
  confirmedNode ← calculateConfirm fuel h sp node root;
  match confirmedNode with
  | Some c => Ret (Flush c bc)
  | None => Ret bc
  end.

End Pob.

(** ** core/txpool/defer.go *)

Module Txpool.
Import Core.

(** [time.Second], in nanoseconds. *)
Definition minTickerTime : Z := 1000000000.

(** [compareDeferTx]; [int] is the 64-bit [int] of the platforms the node
    runs on, so [int(txa.Time - txb.Time)] is the wrapped difference. *)
Definition compareDeferTx `{TxOps} (a b : Tx) : Z :=
  if Time a =? Time b then bytesCompare (Hash a) (Hash b)
  else Int64.sub (Time a) (Time b).

(** The index [redblacktree.NewWith(compareDeferTx)] (package
    github.com/emirpasic/gods, not part of the sources) is kept as the list
    of its keys in iteration order.  [Put] descends from the root by the
    sign of the comparison and replaces a key that compares equal;
    [Remove] looks the key up in the same way and deletes it.  On a tree
    whose keys [compareDeferTx] orders totally (trigger times that are not
    negative, so that no difference wraps: [timeOk] and [StronglySorted
    before] below) the descent ends at the same place whatever the shape of
    the tree, and that place is the one [treePut] and [treeRemove] find from
    the head of the list.  On keys whose wrapped differences are not
    transitive the result of the descent depends on the shape of the tree,
    which a list does not record: the properties of the index below are
    stated for the first case only. *)
Fixpoint treePut (cmp : Tx → Tx → Z) (k : Tx) (l : list Tx) : list Tx :=
  match l with
  | [] => [k]
  | x :: l' =>
      if cmp k x <? 0 then k :: x :: l'
      else if cmp k x =? 0 then k :: l'
      else x :: treePut cmp k l'
  end.

Fixpoint treeRemove (cmp : Tx → Tx → Z) (k : Tx) (l : list Tx) : list Tx :=
  match l with
  | [] => []
  | x :: l' => if cmp k x =? 0 then l' else x :: treeRemove cmp k l'
  end.

(** [restarts] counts the calls of [restartDeferTicker] (stop the ticker
    goroutine, start a new one). *)
Record DeferServer : Type := mkDeferServer {
  pool : list Tx;
  nextScheduleTime : Z;
  restarts : nat
}.

Definition setNext (d : DeferServer) (t : Z) : DeferServer :=
  mkDeferServer (pool d) t (restarts d).

Definition toIndex `{TxOps} (delayTx : Tx) : Tx :=
  mkTx (Int64.add (Time delayTx) (Delay delayTx)) 0 (Hash delayTx) "".

Definition DelDeferTx `{TxOps} (d : DeferServer) (deferTx : Tx) : DeferServer :=
  let idx := mkTx (Time deferTx) 0 (ReferredTx deferTx) "" in
  mkDeferServer (treeRemove compareDeferTx idx (pool d)) (nextScheduleTime d) (restarts d).

Definition StoreDeferTx `{TxOps} (d : DeferServer) (delayTx : Tx) : DeferServer :=
  let idx := toIndex delayTx in
  let pool' := treePut compareDeferTx idx (pool d) in
  if Time idx <? nextScheduleTime d
  then mkDeferServer pool' (Time idx) (S (restarts d))
  else mkDeferServer pool' (nextScheduleTime d) (restarts d).

(** [NewDeferServer] and [buildIndex]: the index of the delay txs found on
    the chain; the next schedule time starts at the zero value. *)
Definition NewDeferServer `{TxOps} (allDelaytx : list Tx) : DeferServer :=
  mkDeferServer
    (foldl (λ p t, treePut compareDeferTx (toIndex t) p) [] allDelaytx) 0 0.

(** The wait before a pass: [nextScheduleTime - now], at least
    [minTickerTime]. *)
Definition scheduled (d : DeferServer) (nowNs : Z) : Z :=
  let wait := Int64.sub (nextScheduleTime d) nowNs in
  if wait <? minTickerTime then minTickerTime else wait.

(** The errors of [AddDefertx] the ticker tells apart; [ErrOther] is any
    other error value. *)
Inductive addErr : Type :=
| ErrCacheFull
| ErrDupChainTx
| ErrDupPendingTx
| ErrOther (msg : string).

(** The world the ticker runs in: the clock ([time.Now().UnixNano()]) and
    the transaction pool ([d.txpool.AddDefertx]). *)
Class TickerEnv (W : Type) : Type := {
  now : W → Z * W;
  AddDefertx : list Byte.byte → W → option addErr * W
}.

(** What one pass of the ticker did, entry by entry (a record kept by the
    model, not by the code): the entry, the clock value it was compared
    with, and the answer of [AddDefertx]. *)
Inductive tickEvent : Type :=
| NotDue (e : Tx) (t : Z)
| Called (e : Tx) (t : Z) (r : option addErr)
| Exhausted.

Definition removable (r : option addErr) : bool :=
  match r with
  | None | Some ErrDupChainTx | Some ErrDupPendingTx => true
  | _ => false
  end.

(** The [for ok { ... }] loop of [deferTicker] and the [if !ok] that
    follows it; [it] is what the iterator still has to yield (the iterator
    moves to the successor of the entry it stands on, also when that entry
    has just been removed). *)
Fixpoint tickerLoop `{TxOps} `{TickerEnv W} (it : list Tx) (d : DeferServer) (w : W)
  : DeferServer * W * list tickEvent :=
  match it with
  | [] => (setNext d Int64.MaxInt64, w, [Exhausted])
  | deferTx :: rest =>
      let '(t, w1) := now w in
      if t <? Time deferTx then (setNext d (Time deferTx), w1, [NotDue deferTx t])
      else
        let '(err, w2) := AddDefertx (ReferredTx deferTx) w1 in
        match err with
        | Some ErrCacheFull => (setNext d (Time deferTx), w2, [Called deferTx t err])
        | _ =>
            let d1 :=
              if removable err
              then mkDeferServer (treeRemove compareDeferTx deferTx (pool d))
                     (nextScheduleTime d) (restarts d)
              else d in
            let '(d2, w3, log) := tickerLoop rest d1 w2 in
            (d2, w3, Called deferTx t err :: log)
        end
  end.

(** The body of [case <-time.After(scheduled)]: one pass over the index. *)
Definition tickerPass `{TxOps} `{TickerEnv W} (d : DeferServer) (w : W)
  : DeferServer * W * list tickEvent :=
  tickerLoop (pool d) d w.

(** The entries a pass removed, read off its record. *)
Fixpoint removedBy (log : list tickEvent) : list Tx :=
  match log with
  | Called e _ r :: log' => if removable r then e :: removedBy log' else removedBy log'
  | _ :: log' => removedBy log'
  | [] => []
  end.

Definition eventEntry (ev : tickEvent) : option Tx :=
  match ev with
  | NotDue e _ | Called e _ _ => Some e
  | Exhausted => None
  end.

(** How a pass over [it] ended, read off the last event of its record
    ([front] are the events before it): the iteration ran out, or it met an
    entry that is not yet due, or [AddDefertx] answered cache-full; with the
    next schedule time each case leaves. *)
Definition passEnds (it : list Tx) (d' : DeferServer) (front : list tickEvent)
  (last : tickEvent) : Prop :=
  match last with
  | Exhausted => length front = length it ∧ nextScheduleTime d' = Int64.MaxInt64
  | NotDue e t =>
      it !! length front = Some e ∧ t < Time e ∧ nextScheduleTime d' = Time e
  | Called e t r =>
      it !! length front = Some e ∧ r = Some ErrCacheFull ∧ Time e ≤ t
      ∧ nextScheduleTime d' = Time e
  end.

(** Trigger times are times of day in nanoseconds: not negative. *)
Definition timeOk (a : Tx) : Prop := 0 ≤ Time a ≤ Int64.MaxInt64.

Definition before `{TxOps} (a b : Tx) : Prop := compareDeferTx a b < 0.

(** An entry with the key of [k] is in the index. *)
Definition holdsKey `{TxOps} (k : Tx) (l : list Tx) : Prop :=
  ∃ e, e ∈ l ∧ compareDeferTx k e = 0.

End Txpool.

(** ** rpc *)

Module Rpc.
Import Core.

(** [txpool.TAddTx], the answer of [AddTx]; [OtherRet] is a value of the
    type that is none of the named constants. *)
Inductive TAddTx : Type :=
| Success
| TimeError
| VerifyError
| DupError
| GasPriceError
| CacheFullError
| OtherRet (code : nat).

Record RawTxReq : Type := mkRawTxReq { Data : list Byte.byte }.

(** [res.Hash = string(trx.Hash())]: the bytes of the hash, as a string. *)
Record SendRawTxRes : Type := mkSendRawTxRes { ResHash : string }.

(** Modelled from the spec: the transaction pool (package txpool) owns its
    indices (pending map, bloom filters, priority iterator) and nothing
    else, so [s.txpool.AddTx] acts on the pool [P] alone.  [Decode] is
    [trx.Decode] on a fresh transaction: an error, or the decoded
    transaction. *)
Class RpcEnv (P : Type) : Type := {
  Decode : list Byte.byte → string + Tx;
  AddTx : Tx → P → TAddTx * P
}.

(** The fields of [GRPCServer] that matter here: the pool and the chain. *)
Record GRPCServer (P C : Type) : Type := mkGRPCServer {
  txpool : P;
  bchain : C
}.
Arguments mkGRPCServer {P C} _ _.
Arguments txpool {P C} _.
Arguments bchain {P C} _.

(** [SendRawTx]: the request pointer may be nil ([None]); the result is the
    error ([inl], with its message) or the response ([inr]). *)
Definition SendRawTx `{TxOps} `{RpcEnv P} {C : Type} (s : GRPCServer P C)
  (rawTx : option RawTxReq) : (string + SendRawTxRes) * GRPCServer P C :=
  match rawTx with
  | None => (inl "argument cannot be nil pointer", s)
  | Some req =>
      match Decode (Data req) with
      | inl err => (inl err, s)
      | inr trx =>
          let '(ret, p') := AddTx trx (txpool s) in
          let s' := mkGRPCServer p' (bchain s) in
          match ret with
          | TimeError => (inl "tx err:TimeError", s')
          | VerifyError => (inl "tx err:VerifyError", s')
          | DupError => (inl "tx err:DupError", s')
          | GasPriceError => (inl "tx err:GasPriceError", s')
          | CacheFullError => (inl "tx err:CacheFullError", s')
          | _ => (inr (mkSendRawTxRes (String.string_of_list_byte (Hash trx))), s')
          end
      end
  end.

(** The five admission errors and their names. *)
Definition admissionName (ret : TAddTx) : option string :=
  match ret with
  | TimeError => Some "TimeError"
  | VerifyError => Some "VerifyError"
  | DupError => Some "DupError"
  | GasPriceError => Some "GasPriceError"
  | CacheFullError => Some "CacheFullError"
  | _ => None
  end.

(** *** [Subscribe]

    The loop [for { select { ... default: } }] is run against a record of
    what each iteration finds: the time elapsed since the ticker was made
    (ns), the events that reached the subscription channel since the last
    iteration, the choice of the runtime when both the ticker and an event
    are ready, and the answer of [res.Send] if it is called.  The ticker
    ([time.NewTicker(time.Minute)]) has a tick ready from 60 seconds on. *)
Record poll (E : Type) : Type := mkPoll {
  elapsed : Z;
  arrived : list E;
  pickTimer : bool;
  sendErr : option string
}.
Arguments mkPoll {E} _ _ _ _.
Arguments elapsed {E} _.
Arguments arrived {E} _.
Arguments pickTimer {E} _.
Arguments sendErr {E} _.

Definition minute : Z := 60000000000.

(** The events waiting in the channel, and those sent to the client (with
    the time of the iteration that sent them). *)
Record subState (E : Type) : Type := mkSubState {
  queue : list E;
  sent : list (Z * E)
}.
Arguments mkSubState {E} _ _.
Arguments queue {E} _.
Arguments sent {E} _.

Inductive subStep (E : Type) : Type :=
| Continue (st : subState E)
| Return (err : option string) (st : subState E).
Arguments Continue {E} _.
Arguments Return {E} _ _.

(** One iteration of the loop. *)
Definition subscribeIter {E : Type} (p : poll E) (st : subState E) : subStep E :=
  let q := queue st ++ arrived p in
  let timerReady := minute <=? elapsed p in
  match q with
  | [] =>
      if timerReady then Return None (mkSubState q (sent st))
      else Continue (mkSubState q (sent st))
  | ev :: q' =>
      if timerReady && pickTimer p then Return None (mkSubState q (sent st))
      else
        match sendErr p with
        | Some err => Return (Some err) (mkSubState q' (sent st))
        | None => Continue (mkSubState q' (sent st ++ [(elapsed p, ev)]))
        end
  end.

Fixpoint subscribeLoop {E : Type} (polls : list (poll E)) (st : subState E) : subStep E :=
  match polls with
  | [] => Continue st
  | p :: ps =>
      match subscribeIter p st with
      | Continue st' => subscribeLoop ps st'
      | Return err st' => Return err st'
      end
  end.

Definition Subscribe {E : Type} (polls : list (poll E)) : subStep E :=
  subscribeLoop polls (mkSubState [] []).

(** The state a run of the loop has reached, still running or not. *)
Definition stepState {E : Type} (s : subStep E) : subState E :=
  match s with
  | Continue st | Return _ st => st
  end.

(** The claim "the stream ends by the timer only after 60 seconds without a
    delivery", on a run: if the iteration [p] that follows [pre] returns by
    the timer, every event sent before it was sent at least a minute
    earlier. *)
Definition endsAfterInactivity {E : Type} (polls : list (poll E)) : Prop :=
  ∀ pre p post st st',
    polls = pre ++ p :: post →
    subscribeLoop pre (mkSubState [] []) = Continue st →
    subscribeIter p st = Return None st' →
    ∀ t ev, (t, ev) ∈ sent st → t + minute ≤ elapsed p.

(** *** [toBlockInfo] and [GetContract] *)

(** [block.Block] with its receipts, and what the RPC layer calls on
    transactions and receipts: [common.Base58Encode], [ToTxRaw],
    [ToTxReceiptRaw] and the receipt's [Hash]. *)
Record FullBlock (R : Type) : Type := mkFullBlock {
  Blk : Block;
  Receipts : list R
}.
Arguments mkFullBlock {R} _ _.
Arguments Blk {R} _.
Arguments Receipts {R} _.

Class RawOps (R TxRaw ReceiptRaw : Type) : Type := {
  Base58Encode : list Byte.byte → string;
  ToTxRaw : Tx → TxRaw;
  ToTxReceiptRaw : R → ReceiptRaw;
  ReceiptHash : R → list Byte.byte
}.

Record BlockInfo (TxRaw ReceiptRaw : Type) : Type := mkBlockInfo {
  InfoHead : BlockHead;
  InfoTxs : list TxRaw;
  InfoTxhash : list string;
  InfoReceipts : list ReceiptRaw;
  InfoReceiptHash : list string
}.
Arguments mkBlockInfo {TxRaw ReceiptRaw} _ _ _ _ _.
Arguments InfoHead {TxRaw ReceiptRaw} _.
Arguments InfoTxs {TxRaw ReceiptRaw} _.
Arguments InfoTxhash {TxRaw ReceiptRaw} _.
Arguments InfoReceipts {TxRaw ReceiptRaw} _.
Arguments InfoReceiptHash {TxRaw ReceiptRaw} _.

(** [toBlockInfo]: the two loops append to the slices of the answer (the
    block's own hash is left out). *)
Definition toBlockInfo `{TxOps} `{RawOps R TxRaw ReceiptRaw} (blk : FullBlock R)
  (complete : bool) : BlockInfo TxRaw ReceiptRaw :=
  let '(txs, txhash) :=
    foldl (λ '(txs, txhash) trx,
             (if complete then txs ++ [ToTxRaw trx] else txs,
              txhash ++ [Base58Encode (Hash trx)]))
          ([], []) (Txs (Blk blk)) in
  let '(receipts, receiptHash) :=
    foldl (λ '(receipts, receiptHash) receipt,
             (if complete then receipts ++ [ToTxReceiptRaw receipt] else receipts,
              receiptHash ++ [Base58Encode (ReceiptHash receipt)]))
          ([], []) (Receipts blk) in
  mkBlockInfo (Head (Blk blk)) txs txhash receipts receiptHash.

(** An action of a transaction, and the calls [GetContract] makes:
    [common.Base58Decode], [s.bchain.GetTx], [trx.Actions],
    [simplejson.NewJson], [js.GetIndex(0).String()] and
    [contract.B64Decode]. *)
Record Action : Type := mkAction {
  ActContract : string;
  ActionName : string;
  ActData : string
}.

Class ContractEnv (J C : Type) : Type := {
  Base58Decode : string → list Byte.byte;
  ChainGetTx : list Byte.byte → string + Tx;
  Actions : Tx → list Action;
  NewJson : string → string + J;
  FirstString : J → string + string;
  B64Decode : string → string + C
}.

Inductive getContractErr : Type :=
| ErrNilArgument
| ErrEmptyID
| ErrNoContractPrefix
| ErrNotSetCode
| ErrFrom (cause : string).

(** [GetContract]; the request pointer may be nil, and indexing
    [trx.Actions[0]] panics on a transaction without actions. *)
Definition GetContract `{ContractEnv J C} (key : option string)
  : outcome (getContractErr + C) :=
  match key with
  | None => Ret (inl ErrNilArgument)
  | Some contractID =>
      if String.eqb contractID "" then Ret (inl ErrEmptyID)
      else if negb (String.prefix "Contract" contractID) then Ret (inl ErrNoContractPrefix)
      else
        let txHashBytes :=
          Base58Decode (String.substring 8 (String.length contractID - 8) contractID) in
        match ChainGetTx txHashBytes with
        | inl err => Ret (inl (ErrFrom err))
        | inr trx =>
            match Actions trx with
            | [] => Panic
            | act :: _ =>
                let txActionName := ActionName act in
                if negb (String.eqb (ActContract act) "iost.system")
                   || (negb (String.eqb txActionName "SetCode")
                       && negb (String.eqb txActionName "UpdateCode"))
                then Ret (inl ErrNotSetCode)
                else
                  match NewJson (ActData act) with
                  | inl err => Ret (inl (ErrFrom err))
                  | inr js =>
                      match FirstString js with
                      | inl err => Ret (inl (ErrFrom err))
                      | inr contractStr =>
                          match B64Decode contractStr with
                          | inl err => Ret (inl (ErrFrom err))
                          | inr c => Ret (inr c)
                          end
                      end
                  end
            end
        end
  end.

End Rpc.

(** ** vm/v8vm/storage.go *)

Module V8.

(** [common.Fixed]: the value and the number of decimals. *)
Record Fixed : Type := mkFixed { Value : Z; Decimal : Z }.

(** The dynamic type of a database value ([interface{}]); [VOther] is a
    value of any further type (the nil interface, a float, ...). *)
Inductive dbVal : Type :=
| VInt64 (v : Z)
| VString (v : string)
| VBool (v : bool)
| VBytes (v : list Byte.byte)
| VFixed (v : Fixed)
| VOther (typeName : string).

Inductive v8Error : Type := ErrInvalidDbValType.

Definition FormatInt10 (v : Z) : string := pretty v.
Definition FormatBool (b : bool) : string := if b then "true" else "false".

Definition dbValToString (val : dbVal) : string * option v8Error :=
  match val with
  | VInt64 v => (FormatInt10 v, None)
  | VString v => (v, None)
  | VBool v => (FormatBool v, None)
  | VBytes v => (String.string_of_list_byte v, None)
  | _ => ("", Some ErrInvalidDbValType)
  end.

(** [host.Get], [host.MapGet], [host.GlobalGet] and [host.GlobalMapGet]:
    the value found (nil is [None]) and the CPU part of the cost (the
    [int64] field [cost.CPU]); the owner is the optional last argument of
    the Go methods. *)
Class HostDB : Type := {
  Get : string → option string → option dbVal * Z;
  MapGet : string → string → option string → option dbVal * Z;
  GlobalGet : string → string → option string → option dbVal * Z;
  GlobalMapGet : string → string → string → option string → option dbVal * Z
}.

(** The conversion [C.size_t(x)] of an [int64]: [size_t] is the unsigned
    64-bit integer of the platforms the node runs on, so a negative value
    wraps (-1 becomes 2^64 - 1). *)
Definition size_t (x : Z) : Z := x `mod` 2 ^ 64.

(** The out parameters [result] (nil is [None]) and [gasUsed] (a
    [C.size_t]). *)
Record cOut : Type := mkCOut { result : option string; gasUsed : Z }.

(** [owner == nil || C.GoString(owner) == ""]: the call is made without an
    owner. *)
Definition ownerArg (owner : option string) : option string :=
  match owner with
  | None => None
  | Some o => if String.eqb o "" then None else Some o
  end.

(** [goGet]; [sandbox] tells whether [GetSandbox] found the sandbox, and
    [errGetSandbox] is the text of [ErrGetSandbox].  The returned C string
    is the error ([None] is nil). *)
Definition goGet `{HostDB} (errGetSandbox : string) (sandbox : bool)
  (key : string) (owner : option string) (out : cOut) : option string * cOut :=
  if negb sandbox then (Some errGetSandbox, out)
  else
    let '(val, cpu) := Get key (ownerArg owner) in
    match val with
    | None => (None, mkCOut None (size_t cpu))
    | Some v =>
        match dbValToString v with
        | (_, Some ErrInvalidDbValType) =>
            (Some "invalid db value type", mkCOut (result out) (size_t cpu))
        | (valStr, None) => (None, mkCOut (Some valStr) (size_t cpu))
        end
    end.

Definition goMapGet `{HostDB} (errGetSandbox : string) (sandbox : bool)
  (key field : string) (owner : option string) (out : cOut) : option string * cOut :=
  if negb sandbox then (Some errGetSandbox, out)
  else
    let '(val, cpu) := MapGet key field (ownerArg owner) in
    match val with
    | None => (None, mkCOut None (size_t cpu))
    | Some v => (None, mkCOut (Some (dbValToString v).1) (size_t cpu))
    end.

Definition goGlobalGet `{HostDB} (errGetSandbox : string) (sandbox : bool)
  (contractName key : string) (owner : option string) (out : cOut)
  : option string * cOut :=
  if negb sandbox then (Some errGetSandbox, out)
  else
    let '(val, cpu) := GlobalGet contractName key (ownerArg owner) in
    match val with
    | None => (None, mkCOut None (size_t cpu))
    | Some v => (None, mkCOut (Some (dbValToString v).1) (size_t cpu))
    end.

Definition goGlobalMapGet `{HostDB} (errGetSandbox : string) (sandbox : bool)
  (contractName key field : string) (owner : option string) (out : cOut)
  : option string * cOut :=
  if negb sandbox then (Some errGetSandbox, out)
  else
    let '(val, cpu) := GlobalMapGet contractName key field (ownerArg owner) in
    match val with
    | None => (None, mkCOut None (size_t cpu))
    | Some v => (None, mkCOut (Some (dbValToString v).1) (size_t cpu))
    end.

(** The values [dbValToString] has a case for. *)
Definition supported (v : dbVal) : bool :=
  match v with
  | VInt64 _ | VString _ | VBool _ | VBytes _ => true
  | _ => false
  end.

End V8.

(** ** core/contract/contract.go *)

Module Contract.

Record ABI : Type := mkABI { AbiName : string }.
Record Info : Type := mkInfo { Abi : list ABI }.
Record Contract : Type := mkContract {
  ID : string;
  ContractInfo : option Info;
  Code : string
}.

(** [var c Contract]: the zero value. *)
Definition zeroContract : Contract := mkContract "" None "".

(** [proto.Unmarshal([]byte(str), c)]: the receiver after the call, and
    the error. *)
Class Proto : Type := {
  Unmarshal : string → Contract → Contract * option string
}.

(** The method [(c *Contract) Decode]: the receiver after the call and the
    returned error. *)
Definition Decode `{Proto} (c : Contract) (str : string) : Contract * option string :=
  let '(c', err) := Unmarshal str c in
  match err with
  | Some e => (c', Some e)
  | None => (c', None)
  end.

(** The function [DecodeContract]: a nil pointer ([None]) or a panic. *)
Definition DecodeContract `{Proto} (str : string) : outcome (option Contract) :=
  let '(c, err) := Unmarshal str zeroContract in
  match err with
  | Some _ => Panic
  | None => Ret None
  end.

(** [(c *Contract) ABI]: the first entry of [c.Info.Abi] with that name,
    nil when there is none; [c.Info] is a pointer, and a nil one panics. *)
Fixpoint firstABI (name : string) (abis : list ABI) : option ABI :=
  match abis with
  | [] => None
  | a :: rest => if String.eqb (AbiName a) name then Some a else firstABI name rest
  end.

Definition ABIOf (c : Contract) (name : string) : outcome (option ABI) :=
  match ContractInfo c with
  | None => Panic
  | Some info => Ret (firstABI name (Abi info))
  end.

End Contract.

(** ** p2p: the stream pool of a peer *)

Module P2p.

Definition maxStreamCount : Z := 4.

Inductive peerErr : Type :=
| ErrStreamCountExceed
| ErrMessageChannelFull
| ErrFailed (msg : string).

(** What a call does when nothing else runs: it returns, or it waits on a
    channel for another goroutine. *)
Inductive step (A : Type) : Type :=
| Done (a : A)
| Blocks.
Arguments Done {A} a.
Arguments Blocks {A}.

(** The fields of [Peer] that hold the pool: the buffered channel [streams]
    (capacity [maxStreamCount], oldest first) and [streamCount]. *)
Record Peer (S : Type) : Type := mkPeer {
  streams : list S;
  streamCount : Z
}.
Arguments mkPeer {S} _ _.
Arguments streams {S} _.
Arguments streamCount {S} _.

(** [p.streams <- stream]. *)
Definition chanSend {S : Type} (ch : list S) (stream : S) : step (list S) :=
  if Z.of_nat (length ch) <? maxStreamCount then Done (ch ++ [stream]) else Blocks.

(** [AddStream] (the read loop it starts is left out). *)
Definition AddStream {S : Type} (p : Peer S) (stream : S) : step (option peerErr * Peer S) :=
  if maxStreamCount <=? streamCount p then Done (Some ErrStreamCountExceed, p)
  else
    match chanSend (streams p) stream with
    | Blocks => Blocks
    | Done ch => Done (None, mkPeer ch (Int64.add (streamCount p) 1))
    end.

(** [CloseStream]. *)
Definition CloseStream {S : Type} (p : Peer S) : Peer S :=
  mkPeer (streams p) (Int64.sub (streamCount p) 1).

(** [newStream]; [conn] is what [p.conn.NewStream()] answers if called. *)
Definition newStream {S : Type} (p : Peer S) (conn : string + S) : (peerErr + S) * Peer S :=
  if maxStreamCount <=? streamCount p then (inl ErrStreamCountExceed, p)
  else
    match conn with
    | inl err => (inl (ErrFailed err), p)
    | inr stream => (inr stream, mkPeer (streams p) (Int64.add (streamCount p) 1))
    end.

(** [getStream]: a stream of the pool if there is one, else a new one, else
    (the count is at its maximum) the next stream put back into the pool. *)
Definition getStream {S : Type} (p : Peer S) (conn : string + S)
  : step ((peerErr + S) * Peer S) :=
  match streams p with
  | stream :: rest => Done (inr stream, mkPeer rest (streamCount p))
  | [] =>
      match newStream p conn with
      | (inl ErrStreamCountExceed, _) => Blocks
      | r => Done r
      end
  end.

(** [write]; [deadlineErr] and [writeErr] are what [SetWriteDeadline] and
    [Write] answer if called (the removal of the neighbour on a failed
    [getStream] is the peer manager's business). *)
Definition write {S : Type} (p : Peer S) (conn : string + S)
  (deadlineErr writeErr : option string) : step (option peerErr * Peer S) :=
  match getStream p conn with
  | Blocks => Blocks
  | Done (inl err, p1) => Done (Some err, p1)
  | Done (inr stream, p1) =>
      match deadlineErr with
      | Some err => Done (Some (ErrFailed err), CloseStream p1)
      | None =>
          match writeErr with
          | Some err => Done (Some (ErrFailed err), CloseStream p1)
          | None =>
              match chanSend (streams p1) stream with
              | Blocks => Blocks
              | Done ch => Done (None, mkPeer ch (streamCount p1))
              end
          end
      end
  end.

(** A sequence of calls made one after the other. *)
Inductive call (S : Type) : Type :=
| CallAddStream (stream : S)
| CallWrite (conn : string + S) (deadlineErr writeErr : option string).
Arguments CallAddStream {S} _.
Arguments CallWrite {S} _ _ _.

Fixpoint runCalls {S : Type} (calls : list (call S)) (p : Peer S) : step (Peer S) :=
  match calls with
  | [] => Done p
  | c :: rest =>
      let r := match c with
               | CallAddStream stream => AddStream p stream
               | CallWrite conn deadlineErr writeErr => write p conn deadlineErr writeErr
               end in
      match r with
      | Blocks => Blocks
      | Done (_, p') => runCalls rest p'
      end
  end.

(** The pool holds every open stream, and no more than the maximum. *)
Definition poolOk {S : Type} (p : Peer S) : Prop :=
  Z.of_nat (length (streams p)) = streamCount p ∧ streamCount p ≤ maxStreamCount.

End P2p.

(** ** Concrete collaborators, for the examples below *)

Module Fixtures.
Import Core Pob.

(** The hash of a transaction is its referred hash followed by the bytes of
    its payload, the signature check fails on the payload "badsig", and a
    transaction is a deferred one when it refers to another. *)
Definition txOps : TxOps := {|
  Hash t := ReferredTx t ++ String.list_byte_of_string (Payload t);
  VerifySelf t := if String.eqb (Payload t) "badsig" then Some "bad signature" else None;
  IsDefer t := match ReferredTx t with [] => false | _ => true end;
  VerifyDefer _ _ := None
|}.

(** The transaction whose hash is the bytes of "dup" is on the chain; the
    head check passes or fails as [headOk] says. *)
Definition blockEnv (headOk : bool) : BlockEnv := {|
  VerifyBlockHead _ _ _ := if headOk then None else Some "wrong number";
  ExistTxs h _ :=
    if String.eqb (String.string_of_list_byte h) "dup" then FoundChain else NotFound;
  GetTx _ := inl "not found";
  VerifierVerify _ _ := None
|}.

Definition plainTx (payload : string) : Tx := mkTx 0 0 [] payload.

Definition sp3 : StaticProperty := mkStaticProperty 3 ["w1"; "w2"; "w3"] ∅.

Definition genesis : Block := mkBlock (mkHead 0 "w1" 0) [].


Definition indexEntry (time : Z) (referred : string) : Tx :=
  mkTx time 0 (String.list_byte_of_string referred) "".

(** Raw transactions are payloads; the payload "garbage" does not decode.
    The pool is the list of admitted payloads, with room for two; a payload
    already in the pool is a duplicate. *)
Definition rpcEnv : Rpc.RpcEnv (list string) := {|
  Rpc.Decode data :=
    let payload := String.string_of_list_byte data in
    if String.eqb payload "garbage" then inl "decode error" else inr (plainTx payload);
  Rpc.AddTx trx p :=
    if bool_decide (Payload trx ∈ p) then (Rpc.DupError, p)
    else if bool_decide (2 ≤ length p)%nat then (Rpc.CacheFullError, p)
    else (Rpc.Success, Payload trx :: p)
|}.

(** A protobuf decoder that accepts contracts written "id:code". *)
Definition proto : Contract.Proto := {|
  Contract.Unmarshal str c :=
    match String.index 0 ":" str with
    | Some n =>
        (Contract.mkContract (String.substring 0 n str) None
           (String.substring (S n) (String.length str - S n) str), None)
    | None => (c, Some "proto: cannot parse")
    end
|}.

(** A chain of three blocks above the root (addresses 1 to 4), all producers
    at their first block, and the walk from its head and from its middle. *)
Definition rootNode : BlockCacheNode := mkNode (mkHead 0 "w3" 0) 0 None.
Definition node1 : BlockCacheNode := mkNode (mkHead 1 "w1" 3) 0 (Some 1%positive).
Definition node2 : BlockCacheNode := mkNode (mkHead 2 "w2" 6) 0 (Some 2%positive).
Definition node3 : BlockCacheNode := mkNode (mkHead 3 "w3" 9) 0 (Some 3%positive).
Definition heap : gmap positive BlockCacheNode :=
  <[1%positive := rootNode]>
    (<[2%positive := node1]> (<[3%positive := node2]> {[4%positive := node3]})).
Definition pathFrom4 : list (positive * BlockCacheNode) :=
  [(4%positive, node3); (3%positive, node2); (2%positive, node1)].
Definition pathFrom3 : list (positive * BlockCacheNode) :=
  [(3%positive, node2); (2%positive, node1)].

(** The same chain seen from a root (address 9) it does not lead to. *)
Definition strayRoot : BlockCacheNode := mkNode (mkHead 0 "w1" 0) 0 None.
Definition heapStray : gmap positive BlockCacheNode := <[9%positive := strayRoot]> heap.
Definition pathOff : list (positive * BlockCacheNode) :=
  [(4%positive, node3); (3%positive, node2); (2%positive, node1); (1%positive, rootNode)].

Definition sp1 : StaticProperty := mkStaticProperty 1 ["w1"] ∅.

(** A block cache that records what was flushed. *)
Definition cacheOps : BlockCacheOps (list positive) := {|
  Flush c bc := c :: bc
|}.

(** A clock that stands at [t], with a pool that takes every transaction,
    and with one that fails on every transaction. *)
Definition openEnv (t : Z) : Txpool.TickerEnv unit := {|
  Txpool.now w := (t, w);
  Txpool.AddDefertx _ w := (None, w)
|}.


Definition index3 : Txpool.DeferServer :=
  Txpool.mkDeferServer [indexEntry 1 "a"; indexEntry 2 "b"; indexEntry 100 "c"] 1 0.

End Fixtures.

(** * Properties *)

(** ** Machine arithmetic *)

Section Int64Facts.
Import Int64.

Lemma wrap_id (z : Z) : InRange z → wrap z = z.
Proof.
  unfold InRange, MinInt64, MaxInt64, wrap. intros Hz.
  rewrite Z.mod_small; lia.
Qed.

Lemma wrap_range (z : Z) : InRange (wrap z).
Proof.
  unfold InRange, MinInt64, MaxInt64, wrap.
  pose proof (Z.mod_pos_bound (z + 2 ^ 63) (2 ^ 64)). lia.
Qed.

End Int64Facts.

(** ** Watermarks *)

Section WaterMark.
Import Core Pob.

Lemma mapGet_insert `{Countable K} (m : gmap K Z) (k k' : K) (v : Z) :
  mapGet (<[k := v]> m) k' = if decide (k = k') then v else mapGet m k'.
Proof.
  unfold mapGet. rewrite lookup_insert. by case_decide.
Qed.

Lemma mapGet_empty `{Countable K} (k : K) : mapGet (∅ : gmap K Z) k = 0.
Proof. unfold mapGet. by rewrite lookup_empty. Qed.

(** One call: the node's header is kept, its [ConfirmUntil] is the old
    watermark, and no watermark goes down as long as [Number + 1] does not
    wrap. *)
Lemma updateWaterMark_step (sp : StaticProperty) (node : BlockCacheNode) :
  Int64.MinInt64 ≤ Number (NHead node) < Int64.MaxInt64 →
  let w := Witness (NHead node) in
  NHead (updateWaterMark sp node).1 = NHead node
  ∧ ConfirmUntil (updateWaterMark sp node).1 = mapGet (Watermark sp) w
  ∧ (mapGet (Watermark (updateWaterMark sp node).2) w = mapGet (Watermark sp) w
     ∨ mapGet (Watermark (updateWaterMark sp node).2) w = Number (NHead node) + 1)
  ∧ (∀ w', w' ≠ w →
       mapGet (Watermark (updateWaterMark sp node).2) w' = mapGet (Watermark sp) w')
  ∧ (∀ w', mapGet (Watermark sp) w' ≤ mapGet (Watermark (updateWaterMark sp node).2) w').
Proof.
  intros Hn w. unfold updateWaterMark. fold w. cbn [fst snd NHead ConfirmUntil].
  assert (Hw : Int64.add (Number (NHead node)) 1 = Number (NHead node) + 1).
  { unfold Int64.add. apply wrap_id. unfold Int64.InRange, Int64.MinInt64, Int64.MaxInt64 in *. lia. }
  destruct (Z.leb_spec (mapGet (Watermark sp) w) (Number (NHead node))) as [Hle|Hgt];
    cbn [Watermark].
  - rewrite Hw. repeat split.
    + right. rewrite mapGet_insert. by case_decide.
    + intros w' Hw'. rewrite mapGet_insert. case_decide; congruence.
    + intros w'. rewrite mapGet_insert. case_decide; [subst; lia | lia].
  - repeat split; auto; intros; lia.
Qed.

Lemma linkAll_length (nodes : list BlockCacheNode) (sp : StaticProperty) :
  length (linkAll sp nodes).1 = length nodes.
Proof.
  revert sp. induction nodes as [|n rest IH]; intros sp; [done|].
  cbn [linkAll]. destruct (updateWaterMark sp n) as [n' sp'] eqn:Hu.
  specialize (IH sp'). destruct (linkAll sp' rest) as [rest' sp'']. cbn in *. lia.
Qed.

(** Every node linked from [sp] on records a watermark that is at least the
    one its witness had in [sp]. *)
Lemma linkAll_lower_bound (nodes : list BlockCacheNode) :
  Forall (λ n, Int64.MinInt64 ≤ Number (NHead n) < Int64.MaxInt64) nodes →
  ∀ (sp : StaticProperty) (j : nat) (n' : BlockCacheNode),
    (linkAll sp nodes).1 !! j = Some n' →
    mapGet (Watermark sp) (Witness (NHead n')) ≤ ConfirmUntil n'.
Proof.
  induction 1 as [|n rest Hn Hrest IH]; intros sp j n' Hj; [done|].
  cbn [linkAll] in Hj.
  destruct (updateWaterMark_step sp n Hn) as (Hh & Hc & _ & _ & Hmono).
  destruct (updateWaterMark sp n) as [n1 sp1] eqn:Hu. cbn [fst snd] in *.
  specialize (IH sp1). destruct (linkAll sp1 rest) as [rest' sp2] eqn:Hl.
  cbn [fst] in *. destruct j as [|j]; cbn in Hj.
  - inversion Hj; subst n'. rewrite Hc, Hh. lia.
  - specialize (IH j n' Hj). specialize (Hmono (Witness (NHead n'))). lia.
Qed.

End WaterMark.

(** C3, as the code has it.  While no linked block carries the largest
    [int64] as its number: a call to [updateWaterMark] stores the current
    watermark of the node's witness in the node, leaves that watermark
    unchanged or raises it to [Number + 1], and lowers no watermark; hence
    in any sequence of linked blocks, two blocks of the same witness have
    non-decreasing [ConfirmUntil] in link order (whatever the order of their
    numbers). *)
Theorem updateWaterMark_monotone
  (sp : Pob.StaticProperty) (nodes : list Pob.BlockCacheNode) :
  Forall (λ n, Int64.MinInt64 ≤ Core.Number (Pob.NHead n) < Int64.MaxInt64) nodes →
  (∀ node, node ∈ nodes →
     let w := Core.Witness (Pob.NHead node) in
     ∀ sp0,
       Pob.ConfirmUntil (Pob.updateWaterMark sp0 node).1 = Pob.mapGet (Pob.Watermark sp0) w
       ∧ (Pob.mapGet (Pob.Watermark (Pob.updateWaterMark sp0 node).2) w
            = Pob.mapGet (Pob.Watermark sp0) w
          ∨ Pob.mapGet (Pob.Watermark (Pob.updateWaterMark sp0 node).2) w
            = Core.Number (Pob.NHead node) + 1)
       ∧ (∀ w', Pob.mapGet (Pob.Watermark sp0) w'
                ≤ Pob.mapGet (Pob.Watermark (Pob.updateWaterMark sp0 node).2) w'))
  ∧ (∀ (i j : nat) (a b : Pob.BlockCacheNode),
       (i ≤ j)%nat →
       (Pob.linkAll sp nodes).1 !! i = Some a →
       (Pob.linkAll sp nodes).1 !! j = Some b →
       Core.Witness (Pob.NHead a) = Core.Witness (Pob.NHead b) →
       Pob.ConfirmUntil a ≤ Pob.ConfirmUntil b).
Proof.
  intros Hall. split.
  - intros node Hin w sp0.
    rewrite Forall_forall in Hall. specialize (Hall node Hin).
    destruct (updateWaterMark_step sp0 node Hall) as (_ & Hc & Hor & _ & Hmono).
    auto.
  - revert sp. induction Hall as [|n rest Hn Hrest IH]; intros sp i j a b Hij Hi Hj Hw; [done|].
    cbn [Pob.linkAll] in Hi, Hj.
    destruct (updateWaterMark_step sp n Hn) as (Hh & Hc & _ & _ & Hmono).
    pose proof (linkAll_lower_bound rest Hrest (Pob.updateWaterMark sp n).2) as Hlow.
    destruct (Pob.updateWaterMark sp n) as [n1 sp1] eqn:Hu. cbn [fst snd] in *.
    specialize (IH sp1).
    destruct (Pob.linkAll sp1 rest) as [rest' sp2] eqn:Hl. cbn [fst] in *.
    destruct i as [|i], j as [|j]; cbn in Hi, Hj; try lia.
    + inversion Hi; inversion Hj; subst. lia.
    + inversion Hi; subst a. specialize (Hlow j b Hj).
      rewrite Hh in Hw. rewrite Hc, Hw.
      specialize (Hmono (Core.Witness (Pob.NHead b))). lia.
    + apply (IH i j a b); auto; lia.
Qed.

Lemma updateWaterMark_monotone_witness :
  let n1 := Pob.mkNode (Core.mkHead 7 "w1" 0) 0 None in
  let n2 := Pob.mkNode (Core.mkHead 3 "w1" 0) 0 None in
  let sp := Pob.mkStaticProperty 3 ["w1"; "w2"; "w3"] ∅ in
  Pob.ConfirmUntil <$> (Pob.linkAll sp [n1; n2]).1 = [0; 8]
  ∧ ∀ (i j : nat) (a b : Pob.BlockCacheNode),
      (i ≤ j)%nat →
      (Pob.linkAll sp [n1; n2]).1 !! i = Some a →
      (Pob.linkAll sp [n1; n2]).1 !! j = Some b →
      Core.Witness (Pob.NHead a) = Core.Witness (Pob.NHead b) →
      Pob.ConfirmUntil a ≤ Pob.ConfirmUntil b.
Proof.
  intros n1 n2 sp. split; [vm_compute; reflexivity|].
  refine (proj2 (updateWaterMark_monotone sp [n1; n2] _)).
  repeat constructor; vm_compute; congruence.
Defined.

(** C3 as stated fails at the top of the [int64] range: linking a block
    whose number is [MaxInt64] makes [Number + 1] wrap to [MinInt64], and the
    watermark of its witness drops from 5 to [MinInt64]. *)
Lemma updateWaterMark_wraps_at_MaxInt64 :
  ¬ (∀ (sp : Pob.StaticProperty) (node : Pob.BlockCacheNode),
       Int64.InRange (Core.Number (Pob.NHead node)) →
       Pob.mapGet (Pob.Watermark sp) (Core.Witness (Pob.NHead node))
       ≤ Pob.mapGet (Pob.Watermark (Pob.updateWaterMark sp node).2)
           (Core.Witness (Pob.NHead node))).
Proof.
  intros H.
  specialize (H (Pob.mkStaticProperty 1 ["w1"] {["w1" := 5]})
                (Pob.mkNode (Core.mkHead Int64.MaxInt64 "w1" 0) 0 None)).
  vm_compute in H. apply H; [split; congruence|reflexivity].
Qed.

(** ** The walk of [calculateConfirm] *)

Section CalculateConfirm.
Import Core Pob.

Lemma countZ_app {A : Type} (p : A → bool) (l1 l2 : list A) :
  countZ p (l1 ++ l2) = countZ p l1 + countZ p l2.
Proof. induction l1 as [|x l1 IH]; cbn [countZ app]; lia. Qed.

Lemma countZ_bounds {A : Type} (p : A → bool) (l : list A) :
  0 ≤ countZ p l ≤ Z.of_nat (length l).
Proof.
  induction l as [|x l IH]; cbn [countZ length]; [lia|].
  destruct (p x); lia.
Qed.

Lemma sumTo_bounds (f : nat → Z) (B : Z) (k : nat) :
  (∀ j, (j < k)%nat → 0 ≤ f j ≤ B) → 0 ≤ sumTo f k ≤ Z.of_nat k * B.
Proof.
  induction k as [|k IH]; intros Hf; cbn [sumTo]; [lia|].
  specialize (Hf k (Nat.lt_succ_diag_r k)) as Hk.
  assert (0 ≤ sumTo f k ≤ Z.of_nat k * B) by (apply IH; intros; apply Hf; lia).
  nia.
Qed.

Lemma firstIndex_range (p : nat → bool) (count from k : nat) :
  firstIndex p from count = Some k → (from ≤ k < from + count)%nat ∧ p k = true.
Proof.
  revert from. induction count as [|count IH]; intros from; cbn [firstIndex]; [done|].
  destruct (p from) eqn:Hp.
  - intros [= <-]. split; [lia|done].
  - intros Hk. apply IH in Hk. split; [lia|tauto].
Qed.

Lemma firstIndex_least (p : nat → bool) (count from k : nat) :
  firstIndex p from count = Some k → ∀ j, (from ≤ j < k)%nat → p j = false.
Proof.
  revert from. induction count as [|count IH]; intros from; cbn [firstIndex]; [done|].
  destruct (p from) eqn:Hp.
  - intros [= <-] j Hj. lia.
  - intros Hk j Hj. destruct (decide (j = from)) as [->|Hne]; [done|].
    apply (IH (S from)); [done|lia].
Qed.

Lemma firstIndex_none (p : nat → bool) (count from : nat) :
  firstIndex p from count = None → ∀ j, (from ≤ j < from + count)%nat → p j = false.
Proof.
  revert from. induction count as [|count IH]; intros from; cbn [firstIndex]; [lia|].
  destruct (p from) eqn:Hp; [done|].
  intros Hk j Hj. destruct (decide (j = from)) as [->|Hne]; [done|].
  apply (IH (S from)); [done|lia].
Qed.

Lemma take_S_middle {A : Type} (pre : list A) (x : A) (rest : list A) :
  take (S (length pre)) (pre ++ x :: rest) = pre ++ [x].
Proof.
  rewrite (cons_middle x pre rest), app_assoc.
  apply take_app_length'. rewrite length_app. cbn. lia.
Qed.

Lemma subtractedAt_bounds (l : list BlockCacheNode) (j : nat) :
  0 ≤ subtractedAt l j ≤ Z.of_nat (length l).
Proof.
  unfold subtractedAt. destruct (l !! j); [|lia].
  match goal with |- _ ≤ countZ ?p ?t ≤ _ => pose proof (countZ_bounds p t) as Hb end.
  rewrite length_take in Hb. lia.
Qed.

Lemma countedIn_bounds (l : list BlockCacheNode) (k : nat) :
  0 ≤ countedIn l k ≤ Z.of_nat (length l).
Proof.
  unfold countedIn. pose proof (countZ_bounds counted (take k l)) as Hb.
  rewrite length_take in Hb. lia.
Qed.

(** The invariant of the loop: standing on the node that follows [pre],
    [confirmNum] is the count over [pre] less what was subtracted so far,
    and [confirmUntilMap] counts, per value, the contributions of [pre]. *)
Lemma calculateConfirmLoop_walk (h : gmap positive BlockCacheNode) (limit : Z)
  (root : positive) (node : option positive) (rest : list (positive * BlockCacheNode)) :
  Walk h root node rest →
  ∀ (pre : list BlockCacheNode) (fuel : nat) (confirmNum : Z) (m : gmap Z Z),
    let l := pre ++ rest.*2 in
    Z.of_nat (length l) ≤ 2 ^ 31 →
    confirmNum = countedIn l (length pre) - sumTo (subtractedAt l) (length pre) →
    (∀ c, mapGet m c = countZ (λ n, counted n && (ConfirmUntil n =? c)) pre) →
    (length rest < fuel)%nat →
    calculateConfirmLoop fuel h limit (Some root) node confirmNum m
    = Ret (k ← firstIndex (λ k, limit <=? runningCount l k) (length pre) (length rest);
           fst <$> rest !! (k - length pre)%nat).
Proof.
  induction 1 as [|p n path Hne Hp Hwalk IH]; intros pre fuel cn m l Hlen Hcn Hm Hfuel.
  - destruct fuel as [|fuel]; [cbn in Hfuel; lia|].
    cbn [calculateConfirmLoop]. rewrite decide_True by done. done.
  - destruct fuel as [|fuel]; [cbn in Hfuel; lia|].
    cbn [calculateConfirmLoop]. rewrite decide_False by congruence.
    cbn [mbind option_bind]. rewrite Hp.
    cbn [length firstIndex].
    assert (Hl : l = pre ++ n :: path.*2) by done.
    assert (Htk : take (S (length pre)) l = pre ++ [n]) by (rewrite Hl; apply take_S_middle).
    assert (Htk0 : take (length pre) l = pre) by (rewrite Hl; apply take_app_length).
    assert (Hlk : l !! length pre = Some n) by (rewrite Hl; apply list_lookup_middle; done).
    assert (Hlenl : length l = (length pre + S (length path))%nat).
    { rewrite Hl, length_app. cbn [length]. by rewrite length_fmap. }
    assert (Hsum : 0 ≤ sumTo (subtractedAt l) (length pre)
                   ≤ Z.of_nat (length pre) * Z.of_nat (length l)).
    { apply sumTo_bounds. intros; apply subtractedAt_bounds. }
    assert (Hnia : Z.of_nat (length pre) * Z.of_nat (length l) ≤ 2 ^ 31 * 2 ^ 31) by nia.
    pose proof (countedIn_bounds l (length pre)) as Hcb.
    pose proof (countedIn_bounds l (S (length pre))) as Hcb1.
    pose proof (subtractedAt_bounds l (length pre)) as Hsb.
    set (cn1 := if ConfirmUntil n <=? Number (NHead n) then Int64.add cn 1 else cn).
    set (m1 := if ConfirmUntil n <=? Number (NHead n)
               then <[ConfirmUntil n := Int64.add (mapGet m (ConfirmUntil n)) 1]> m else m).
    assert (Hcn1 : cn1 = runningCount l (length pre)).
    { unfold runningCount, countedIn, cn1. rewrite Htk, countZ_app. cbn [countZ].
      unfold countedIn in Hcn, Hcb. rewrite Htk0 in Hcn, Hcb. unfold counted at 2.
      destruct (ConfirmUntil n <=? Number (NHead n)).
      - unfold Int64.add. rewrite wrap_id; [lia|].
        unfold Int64.InRange, Int64.MinInt64, Int64.MaxInt64. lia.
      - lia. }
    assert (Hm1 : ∀ c, mapGet m1 c
                       = countZ (λ n0, counted n0 && (ConfirmUntil n0 =? c)) (pre ++ [n])).
    { intros c. rewrite countZ_app. cbn [countZ]. unfold m1, counted at 2.
      destruct (ConfirmUntil n <=? Number (NHead n)); cbn [andb].
      - rewrite mapGet_insert. case_decide as Hc.
        + subst c. rewrite Z.eqb_refl, Hm. unfold Int64.add. rewrite wrap_id; [lia|].
          pose proof (countZ_bounds (λ n0, counted n0 && (ConfirmUntil n0 =? ConfirmUntil n)) pre).
          unfold Int64.InRange, Int64.MinInt64, Int64.MaxInt64.
          rewrite Hlenl in Hlen. lia.
        + rewrite Hm. destruct (Z.eqb_spec (ConfirmUntil n) c); [congruence|lia].
      - rewrite Hm. lia. }
    assert (Hsub : mapGet m1 (Number (NHead n)) = subtractedAt l (length pre)).
    { rewrite Hm1. unfold subtractedAt. by rewrite Hlk, Htk. }
    fold cn1 m1. rewrite Hcn1.
    destruct (limit <=? runningCount l (length pre)) eqn:Hreach.
    + cbn [mbind option_bind]. by rewrite Nat.sub_diag.
    + rewrite (IH (pre ++ [n]) fuel).
      * rewrite length_app. cbn [length]. rewrite Nat.add_1_r.
        replace ((pre ++ [n]) ++ path.*2) with l
          by (rewrite Hl, (cons_middle n pre), app_assoc; done).
        destruct (firstIndex _ (S (length pre)) (length path)) as [k|] eqn:Hk; [|done].
        cbn [mbind option_bind]. apply firstIndex_range in Hk as [Hk _].
        replace (k - length pre)%nat with (S (k - S (length pre))) by lia. done.
      * replace ((pre ++ [n]) ++ path.*2) with l
          by (rewrite Hl, (cons_middle n pre), app_assoc; done). done.
      * replace ((pre ++ [n]) ++ path.*2) with l
          by (rewrite Hl, (cons_middle n pre), app_assoc; done).
        rewrite length_app. cbn [length]. rewrite Nat.add_1_r.
        rewrite Hsub. unfold Int64.sub. cbn [sumTo]. unfold runningCount.
        rewrite wrap_id; [lia|].
        unfold runningCount in Hcn1.
        unfold Int64.InRange, Int64.MinInt64, Int64.MaxInt64. lia.
      * done.
      * cbn [length] in Hfuel. lia.
Qed.

End CalculateConfirm.

(** C1.  When [root] is an ancestor of [node], with [path] the nodes walked
    from [node] up to (not including) [root], [calculateConfirm] returns the
    first walked node at which the running count (the walked nodes with
    [ConfirmUntil <= Head.Number], less, for every node already passed, the
    counted contributions whose [ConfirmUntil] is that node's number)
    reaches [NumberOfWitnesses*2/3 + 1], and nil when no walked node does.
    The walk is at most 2^31 nodes long, so that the [int64] counters are
    exact. *)
Theorem calculateConfirm_walk (h : gmap positive Pob.BlockCacheNode)
  (sp : Pob.StaticProperty) (node root : positive) (r : Pob.BlockCacheNode)
  (path : list (positive * Pob.BlockCacheNode)) (fuel : nat) :
  h !! root = Some r →
  Pob.Walk h root (Some node) path →
  Z.of_nat (length path) ≤ 2 ^ 31 →
  (length path < fuel)%nat →
  let limit := Pob.limitOf sp in
  let count := Pob.runningCount (path.*2) in
  Pob.calculateConfirm fuel h sp (Some node) (Some root)
  = Ret (Pob.confirmedOnWalk limit path)
  ∧ (∀ p, Pob.confirmedOnWalk limit path = Some p →
          ∃ k n, path !! k = Some (p, n) ∧ limit ≤ count k
                 ∧ ∀ j, (j < k)%nat → count j < limit)
  ∧ (Pob.confirmedOnWalk limit path = None →
     ∀ k, (k < length path)%nat → count k < limit)
  ∧ (0 ≤ Pob.NumberOfWitnesses sp < 2 ^ 62 →
     limit = (Pob.NumberOfWitnesses sp * 2) `div` 3 + 1).
Proof.
  intros Hroot Hwalk Hlen Hfuel limit count.
  split; [|split; [|split]].
  - unfold Pob.calculateConfirm, Pob.confirmLimit, quo64. cbn [Z.eqb mbind outcome_bind].
    assert (Hnode : is_Some (h !! node)).
    { inversion Hwalk; subst; eauto. }
    destruct Hnode as [n Hnode]. cbn [option_bind]. rewrite Hnode, Hroot.
    rewrite (calculateConfirmLoop_walk h _ root (Some node) path Hwalk [] fuel 0 ∅).
    + unfold Pob.confirmedOnWalk. cbn [length app].
      destruct (Pob.firstIndex _ 0 (length path)) as [k|]; [|done].
      cbn [mbind option_bind]. by rewrite Nat.sub_0_r.
    + cbn [app]. by rewrite length_fmap.
    + cbn [app length Pob.sumTo]. unfold Pob.countedIn. by rewrite take_0.
    + intros c. by rewrite mapGet_empty.
    + done.
  - intros p Hp. unfold Pob.confirmedOnWalk in Hp.
    destruct (Pob.firstIndex _ 0 (length path)) as [k|] eqn:Hk; [|done].
    cbn [mbind option_bind] in Hp.
    destruct (path !! k) as [[p' n]|] eqn:Hpk; [|done]. cbn in Hp. injection Hp as ->.
    exists k, n. split; [done|].
    pose proof (firstIndex_range _ _ _ _ Hk) as [_ Hreach].
    pose proof (firstIndex_least _ _ _ _ Hk) as Hleast.
    split; [unfold count; lia|].
    intros j Hj. specialize (Hleast j). unfold count. cbn beta in Hleast. lia.
  - intros Hnone k Hk. unfold Pob.confirmedOnWalk in Hnone.
    destruct (Pob.firstIndex _ 0 (length path)) as [k0|] eqn:Hk0.
    + apply firstIndex_range in Hk0 as [Hr _]. cbn [mbind option_bind] in Hnone.
      destruct (lookup_lt_is_Some_2 path k0) as [x Hx]; [lia|].
      rewrite Hx in Hnone. done.
    + pose proof (firstIndex_none _ _ _ Hk0 k) as Hn. cbn beta in Hn.
      unfold count. lia.
  - intros HN. unfold limit, Pob.limitOf, Int64.add, Int64.mul.
    rewrite (wrap_id (Pob.NumberOfWitnesses sp * 2))
      by (unfold Int64.InRange, Int64.MinInt64, Int64.MaxInt64; lia).
    rewrite Z.quot_div_nonneg by lia.
    assert (0 ≤ (Pob.NumberOfWitnesses sp * 2) `div` 3 < 2 ^ 62).
    { split; [apply Z.div_pos; lia|]. apply Z.div_lt_upper_bound; lia. }
    rewrite (wrap_id (_ `div` 3))
      by (unfold Int64.InRange, Int64.MinInt64, Int64.MaxInt64; lia).
    apply wrap_id. unfold Int64.InRange, Int64.MinInt64, Int64.MaxInt64; lia.
Qed.

Lemma calculateConfirm_walk_witness :
  let root := Pob.mkNode (Core.mkHead 0 "w3" 0) 0 None in
  let n1 := Pob.mkNode (Core.mkHead 1 "w1" 3) 0 (Some 1%positive) in
  let n2 := Pob.mkNode (Core.mkHead 2 "w2" 6) 0 (Some 2%positive) in
  let n3 := Pob.mkNode (Core.mkHead 3 "w3" 9) 0 (Some 3%positive) in
  let h : gmap positive Pob.BlockCacheNode :=
    <[1%positive := root]> (<[2%positive := n1]> (<[3%positive := n2]> {[4%positive := n3]})) in
  let sp := Pob.mkStaticProperty 3 ["w1"; "w2"; "w3"] ∅ in
  let path := [(4%positive, n3); (3%positive, n2); (2%positive, n1)] in
  Pob.confirmedOnWalk (Pob.limitOf sp) path = Some 2%positive
  ∧ Pob.calculateConfirm 5 h sp (Some 4%positive) (Some 1%positive)
    = Ret (Pob.confirmedOnWalk (Pob.limitOf sp) path).
Proof.
  intros root n1 n2 n3 h sp path. split; [vm_compute; reflexivity|].
  refine (proj1 (calculateConfirm_walk h sp 4%positive 1%positive root path 5 _ _ _ _)).
  - vm_compute; reflexivity.
  - repeat (apply Pob.Walk_step; [congruence | vm_compute; reflexivity | cbn [Pob.Parent]]).
    apply Pob.Walk_root.
  - vm_compute; congruence.
  - cbn; lia.
Defined.

(** ** The witness schedule and block verification *)

Section VerifyBlock.
Import Core Pob.
Context `{TxOps, BlockEnv}.

Lemma verifyTx_not_errWitness (parent : Block) (t : Tx) :
  verifyTx parent t ≠ Some errWitness.
Proof.
  unfold verifyTx.
  destruct (ExistTxs (Hash t) parent); try done.
  destruct (VerifySelf t); try done.
  destruct (IsDefer t); try done.
  destruct (GetTx (ReferredTx t)); try done.
  destruct (VerifyDefer t _); done.
Qed.

Lemma verifyTxs_not_errWitness (txs : list Tx) (i : nat) (parent : Block) :
  verifyTxs i txs parent ≠ Some errWitness.
Proof.
  revert i. induction txs as [|t rest IH]; intros i; cbn [verifyTxs]; [done|].
  destruct i; [apply IH|].
  pose proof (verifyTx_not_errWitness parent t).
  destruct (verifyTx parent t); [congruence|apply IH].
Qed.

(** The loop returns the error of the first transaction after the base one
    that fails its check, and nil when there is none. *)
Lemma verifyTxs_first (parent : Block) (txs : list Tx) (i k : nat) (t : Tx) :
  txs !! k = Some t →
  (1 ≤ i + k)%nat →
  (∀ j t', (j < k)%nat → (1 ≤ i + j)%nat → txs !! j = Some t' → verifyTx parent t' = None) →
  verifyTxs i txs parent
  = match verifyTx parent t with
    | Some e => Some e
    | None => verifyTxs (S (i + k)) (drop (S k) txs) parent
    end.
Proof.
  revert i k. induction txs as [|t0 rest IH]; intros i k Hk Hik Hpre; [done|].
  destruct k as [|k]; cbn in Hk.
  - injection Hk as ->. cbn [verifyTxs drop]. destruct i; [lia|].
    rewrite Nat.add_0_r. rewrite drop_0. done.
  - cbn [verifyTxs drop]. 
    assert (Hrec : verifyTxs (S i) rest parent
                   = match verifyTx parent t with
                     | Some e => Some e
                     | None => verifyTxs (S (S i + k)) (drop (S k) rest) parent
                     end).
    { apply IH; [done|lia|]. intros j t' Hj _ Hjt. apply (Hpre (S j) t'); [lia|lia|done]. }
    replace (S (i + S k)) with (S (S i + k)) by lia.
    destruct i as [|i]; [done|].
    rewrite (Hpre 0%nat t0); [done|lia|lia|done].
Qed.

Lemma verifyTxs_accepts (parent : Block) (txs : list Tx) (i : nat) :
  verifyTxs i txs parent = None →
  ∀ k t, txs !! k = Some t → (1 ≤ i + k)%nat → verifyTx parent t = None.
Proof.
  revert i. induction txs as [|t0 rest IH]; intros i Hnone k t Hk Hik; [done|].
  cbn [verifyTxs] in Hnone. destruct k as [|k]; cbn in Hk.
  - injection Hk as ->. destruct i; [lia|]. by destruct (verifyTx parent t).
  - destruct i as [|i].
    + apply (IH 1%nat Hnone k t Hk). lia.
    + destruct (verifyTx parent t0); [done|]. apply (IH (S (S i)) Hnone k t Hk). lia.
Qed.

End VerifyBlock.

Section WitnessSchedule.
Import Core Pob.

Lemma witnessOfSlot_index (sp : StaticProperty) (s : Z) (wl : list string) :
  0 ≤ s ≤ Int64.MaxInt64 →
  Z.of_nat (length wl) = NumberOfWitnesses sp →
  witnessOfSlot sp s wl
  = match wl !! Z.to_nat (s `mod` NumberOfWitnesses sp) with
    | Some w => Ret w
    | None => Panic
    end.
Proof.
  intros Hs Hlen. unfold witnessOfSlot, rem64.
  destruct (Z.eqb_spec (NumberOfWitnesses sp) 0) as [H0|H0].
  - rewrite H0 in Hlen. destruct wl; [|cbn in Hlen; lia]. done.
  - assert (HN : 0 < NumberOfWitnesses sp) by lia.
    rewrite Z.rem_mod_nonneg by lia.
    pose proof (Z.mod_pos_bound s (NumberOfWitnesses sp) HN) as Hb.
    pose proof (Z.mod_le s (NumberOfWitnesses sp) (proj1 Hs) HN) as Hle.
    rewrite wrap_id by (unfold Int64.InRange, Int64.MinInt64, Int64.MaxInt64 in *; lia).
    cbn [mbind outcome_bind]. unfold index.
    destruct (Z.ltb_spec (s `mod` NumberOfWitnesses sp) 0); [lia|done].
Qed.

Lemma quot_InRange (a b : Z) : 0 < b → Int64.InRange a → Int64.InRange (a `quot` b).
Proof.
  intros Hb Ha.
  assert (Hnn : ∀ x, 0 ≤ x → 0 ≤ x `quot` b ≤ x).
  { intros x Hx. rewrite Z.quot_div_nonneg by lia.
    split; [apply Z.div_pos; lia|]. apply Z.div_le_upper_bound; [lia|nia]. }
  unfold Int64.InRange, Int64.MinInt64, Int64.MaxInt64 in *.
  destruct (Z.le_gt_cases 0 a) as [Hpos|Hneg].
  - specialize (Hnn a Hpos). lia.
  - specialize (Hnn (- a) ltac:(lia)). rewrite Z.quot_opp_l in Hnn by lia. lia.
Qed.

Lemma witnessOfNanoSec_slot (SlotLength : Z) (sp : StaticProperty) (t : Z)
  (wl : list string) :
  0 < SlotLength →
  Int64.InRange t →
  witnessOfNanoSec SlotLength sp t wl
  = witnessOfSlot sp (t `quot` (SlotLength * 10 ^ 9)) wl.
Proof.
  intros HSL Ht. unfold witnessOfNanoSec, witnessOfSec, quo64, second2nanosecond.
  cbn [Z.eqb mbind outcome_bind].
  rewrite (wrap_id (t `quot` 1000000000)) by (apply quot_InRange; [lia|done]).
  destruct (Z.eqb_spec SlotLength 0) as [|_]; [lia|].
  cbn [mbind outcome_bind].
  rewrite Z.quot_quot by lia.
  rewrite wrap_id by (apply quot_InRange; [lia|done]).
  by rewrite (Z.mul_comm SlotLength).
Qed.

End WitnessSchedule.

(** C2, as the code has it.  For a slot [s >= 0] and a witness list whose
    length is the configured number of witnesses [N], [witnessOfSlot]
    returns the list's element at [s mod N] (and panics when there is none,
    i.e. for the empty list); the slot of a nanosecond time [t] is
    [t / (SlotLength * 10^9)] (Go's division, which truncates); and, once
    the block-head check
    ([VerifyBlockHead]) has passed, [verifyBlock] returns the wrong-witness
    error exactly when the witness computed from the head's time differs
    from the head's witness. *)
Theorem witness_schedule `{Core.TxOps, Pob.BlockEnv}
  (SlotLength : Z) (sp : Pob.StaticProperty) :
  (∀ (s : Z) (wl : list string),
     0 ≤ s ≤ Int64.MaxInt64 →
     Z.of_nat (length wl) = Pob.NumberOfWitnesses sp →
     Pob.witnessOfSlot sp s wl
     = match wl !! Z.to_nat (s `mod` Pob.NumberOfWitnesses sp) with
       | Some w => Ret w
       | None => Panic
       end)
  ∧ (∀ (t : Z) (wl : list string),
       0 < SlotLength →
       Int64.InRange t →
       Pob.witnessOfNanoSec SlotLength sp t wl
       = Pob.witnessOfSlot sp (t `quot` (SlotLength * 10 ^ 9)) wl)
  ∧ (∀ blk parent lib : Core.Block,
       Pob.VerifyBlockHead blk parent lib = None →
       (Pob.verifyBlock SlotLength sp blk parent lib = Ret (Some Pob.errWitness)
        ↔ ∃ w, Pob.witnessOfNanoSec SlotLength sp (Core.HeadTime (Core.Head blk))
                 (Pob.WitnessList sp) = Ret w
               ∧ w ≠ Core.Witness (Core.Head blk))).
Proof.
  split; [|split].
  - intros s wl. apply witnessOfSlot_index.
  - intros t wl. apply witnessOfNanoSec_slot.
  - intros blk parent lib Hhead. unfold Pob.verifyBlock. rewrite Hhead.
    destruct (Pob.witnessOfNanoSec _ _ _ _) as [w| |]; cbn [mbind outcome_bind].
    + destruct (String.eqb_spec w (Core.Witness (Core.Head blk))) as [Heq|Hne]; cbn [negb].
      * split.
        -- pose proof (verifyTxs_not_errWitness (Core.Txs blk) 0 parent) as Hnw.
           destruct (Pob.verifyTxs 0 (Core.Txs blk) parent) as [e|].
           ++ intros [= ->]. done.
           ++ destruct (Pob.VerifierVerify blk parent); done.
        -- intros (w' & [= <-] & Hne). done.
      * split; [|done]. intros _. by exists w.
    + split; [done|]. intros (w & Hw & _). done.
    + split; [done|]. intros (w & Hw & _). done.
Qed.

Lemma witness_schedule_witness :
  let blk := Core.mkBlock (Core.mkHead 1 "w3" 3000000000) [] in
  Pob.witnessOfSlot Fixtures.sp3 7 ["w1"; "w2"; "w3"] = Ret "w2"
  ∧ Pob.witnessOfNanoSec 3 Fixtures.sp3 3000000000 ["w1"; "w2"; "w3"] = Ret "w2"
  ∧ @Pob.verifyBlock Fixtures.txOps (Fixtures.blockEnv true) 3 Fixtures.sp3
      blk Fixtures.genesis Fixtures.genesis = Ret (Some Pob.errWitness).
Proof.
  intros blk.
  destruct (@witness_schedule Fixtures.txOps (Fixtures.blockEnv true) 3 Fixtures.sp3)
    as (Hslot & Hnano & Hblock).
  split; [|split].
  - rewrite (Hslot 7 ["w1"; "w2"; "w3"]); [reflexivity|vm_compute; split; discriminate|reflexivity].
  - rewrite (Hnano 3000000000 ["w1"; "w2"; "w3"]); [|lia|vm_compute; split; discriminate].
    change (3000000000 `quot` (3 * 10 ^ 9)) with 1.
    rewrite (Hslot _ ["w1"; "w2"; "w3"]); [reflexivity|vm_compute; split; discriminate|reflexivity].
  - apply (Hblock blk Fixtures.genesis Fixtures.genesis); [reflexivity|].
    exists "w2". split; [vm_compute; reflexivity|vm_compute; discriminate].
Defined.

(** C2 as stated fails when the block-head check fails first: the block is
    then rejected with the head error, whatever its witness. *)
Lemma verifyBlock_head_error_first :
  ¬ (∀ (ops : Core.TxOps) (env : Pob.BlockEnv) (SlotLength : Z)
       (sp : Pob.StaticProperty) (blk parent lib : Core.Block),
       Pob.verifyBlock SlotLength sp blk parent lib = Ret (Some Pob.errWitness)
       ↔ ∃ w, Pob.witnessOfNanoSec SlotLength sp (Core.HeadTime (Core.Head blk))
                (Pob.WitnessList sp) = Ret w
              ∧ w ≠ Core.Witness (Core.Head blk)).
Proof.
  intros Hclaim.
  destruct (Hclaim Fixtures.txOps (Fixtures.blockEnv false) 3 Fixtures.sp3
              (Core.mkBlock (Core.mkHead 1 "w3" 3000000000) [])
              Fixtures.genesis Fixtures.genesis) as [_ Hback].
  assert (Hdiff : ∃ w, Pob.witnessOfNanoSec 3 Fixtures.sp3 3000000000
                        (Pob.WitnessList Fixtures.sp3) = Ret w ∧ w ≠ "w3").
  { exists "w2". split; [vm_compute; reflexivity|congruence]. }
  specialize (Hback Hdiff). vm_compute in Hback. congruence.
Qed.

(** C9.  In [verifyBlock] the transaction at position 0 is not checked at
    all; a transaction at a position [i >= 1] is rejected with the
    duplicate-tx error when its hash is found on the chain, passes unchecked
    when it is found pending, and otherwise is rejected when its signature
    check fails or, for a deferred transaction, when the referred
    transaction cannot be fetched or does not validate.  The checks run in
    order of position: the first rejected transaction gives the error
    [verifyBlock] returns (after the head and witness checks), and a block
    with a rejected transaction is never accepted. *)
Theorem verifyBlock_tx_checks `{Core.TxOps, Pob.BlockEnv}
  (SlotLength : Z) (sp : Pob.StaticProperty) (parent : Core.Block) :
  (∀ (t0 t0' : Core.Tx) (rest : list Core.Tx),
     Pob.verifyTxs 0 (t0 :: rest) parent = Pob.verifyTxs 0 (t0' :: rest) parent)
  ∧ (∀ t0 : Core.Tx, Pob.verifyTxs 0 [t0] parent = None)
  ∧ (∀ t : Core.Tx,
       Pob.ExistTxs (Core.Hash t) parent = Pob.FoundChain →
       Pob.verifyTx parent t = Some Pob.errTxDup)
  ∧ (∀ (t : Core.Tx) (e : string),
       Pob.ExistTxs (Core.Hash t) parent = Pob.NotFound →
       Core.VerifySelf t = Some e →
       Pob.verifyTx parent t = Some Pob.errTxSignature)
  ∧ (∀ (t : Core.Tx) (cause : string),
       Pob.ExistTxs (Core.Hash t) parent = Pob.NotFound →
       Core.VerifySelf t = None →
       Core.IsDefer t = true →
       Pob.GetTx (Core.ReferredTx t) = inl cause →
       Pob.verifyTx parent t = Some (Pob.errReferred cause))
  ∧ (∀ (t referred : Core.Tx) (e : string),
       Pob.ExistTxs (Core.Hash t) parent = Pob.NotFound →
       Core.VerifySelf t = None →
       Core.IsDefer t = true →
       Pob.GetTx (Core.ReferredTx t) = inr referred →
       Core.VerifyDefer t referred = Some e →
       Pob.verifyTx parent t = Some (Pob.errForeign e))
  ∧ (∀ (blk lib : Core.Block) (i : nat) (t : Core.Tx) (e : Pob.error),
       (1 ≤ i)%nat →
       Core.Txs blk !! i = Some t →
       Pob.verifyTx parent t = Some e →
       Pob.verifyBlock SlotLength sp blk parent lib ≠ Ret None
       ∧ ((∀ j t', (1 ≤ j < i)%nat → Core.Txs blk !! j = Some t' →
                   Pob.verifyTx parent t' = None) →
          Pob.verifyTxs 0 (Core.Txs blk) parent = Some e
          ∧ (Pob.VerifyBlockHead blk parent lib = None →
             Pob.witnessOfNanoSec SlotLength sp (Core.HeadTime (Core.Head blk))
               (Pob.WitnessList sp) = Ret (Core.Witness (Core.Head blk)) →
             Pob.verifyBlock SlotLength sp blk parent lib = Ret (Some e)))).
Proof.
  repeat apply conj.
  - done.
  - done.
  - intros t Hex. unfold Pob.verifyTx. by rewrite Hex.
  - intros t e Hex Hsig. unfold Pob.verifyTx. by rewrite Hex, Hsig.
  - intros t cause Hex Hsig Hdefer Hget. unfold Pob.verifyTx.
    by rewrite Hex, Hsig, Hdefer, Hget.
  - intros t referred e Hex Hsig Hdefer Hget Hver. unfold Pob.verifyTx.
    by rewrite Hex, Hsig, Hdefer, Hget, Hver.
  - intros blk lib i t e Hi Hit He. split.
    + unfold Pob.verifyBlock.
      destruct (Pob.VerifyBlockHead blk parent lib); [done|].
      destruct (Pob.witnessOfNanoSec _ _ _ _) as [w| |]; cbn [mbind outcome_bind]; try done.
      destruct (negb _); [done|].
      destruct (Pob.verifyTxs 0 (Core.Txs blk) parent) as [e'|] eqn:Hloop; [done|].
      pose proof (verifyTxs_accepts parent _ _ Hloop i t Hit) as Hok.
      rewrite Hok in He by lia. done.
    + intros Hearlier.
      assert (Hloop : Pob.verifyTxs 0 (Core.Txs blk) parent = Some e).
      { rewrite (verifyTxs_first parent (Core.Txs blk) 0 i t Hit); [by rewrite He|lia|].
        intros j t' Hj Hj1 Hjt. apply (Hearlier j t'); [lia|done]. }
      split; [done|]. intros Hhead Hw. unfold Pob.verifyBlock.
      rewrite Hhead, Hw. cbn [mbind outcome_bind].
      rewrite String.eqb_refl. cbn [negb]. by rewrite Hloop.
Qed.

Lemma verifyBlock_tx_checks_witness :
  let blk := Core.mkBlock (Core.mkHead 1 "w2" 3000000000)
               [Fixtures.plainTx "dup"; Fixtures.plainTx "pay"; Fixtures.plainTx "dup"] in
  @Pob.verifyBlock Fixtures.txOps (Fixtures.blockEnv true) 3 Fixtures.sp3
    blk Fixtures.genesis Fixtures.genesis = Ret (Some Pob.errTxDup).
Proof.
  intros blk.
  destruct (@verifyBlock_tx_checks Fixtures.txOps (Fixtures.blockEnv true) 3 Fixtures.sp3
              Fixtures.genesis) as (_ & _ & Hdup & _ & _ & _ & Hblock).
  destruct (Hblock blk Fixtures.genesis 2%nat (Fixtures.plainTx "dup") Pob.errTxDup)
    as [_ Hfirst].
  - lia.
  - reflexivity.
  - apply Hdup. reflexivity.
  - apply Hfirst.
    + intros j t' Hj Hjt. assert (j = 1%nat) as -> by lia.
      injection Hjt as <-. reflexivity.
    + reflexivity.
    + vm_compute; reflexivity.
Defined.

(** ** The deferred-transaction ticker *)

Section DeferTicker.
Import Core Txpool.
Context `{TxOps} `{TickerEnv W}.

Lemma tickerLoop_record (it : list Tx) :
  ∀ (d : DeferServer) (w : W) (d' : DeferServer) (w' : W) (log : list tickEvent),
    tickerLoop it d w = (d', w', log) →
    ∃ front last,
      log = front ++ [last]
      ∧ (∀ ev, ev ∈ front →
           ∃ e t r, ev = Called e t r ∧ r ≠ Some ErrCacheFull ∧ Time e ≤ t)
      ∧ omap eventEntry log `prefix_of` it
      ∧ pool d' = foldl (λ p e, treeRemove compareDeferTx e p) (pool d) (removedBy log)
      ∧ restarts d' = restarts d
      ∧ passEnds it d' front last.
Proof.
  induction it as [|e rest IH]; intros d w d' w' log Hrun; cbn [tickerLoop] in Hrun.
  - injection Hrun as <- <- <-. exists [], Exhausted.
    repeat split; try done. intros ev Hev. by apply elem_of_nil in Hev.
  - destruct (now w) as [t w1].
    destruct (Z.ltb_spec t (Time e)) as [Hlt|Hge].
    { injection Hrun as <- <- <-. exists [], (NotDue e t).
      repeat split; try done.
      - intros ev Hev. by apply elem_of_nil in Hev.
      - cbn. by exists rest. }
    destruct (AddDefertx (ReferredTx e) w1) as [err w2].
    assert (Hfull : err = Some ErrCacheFull →
                    ∃ front last,
                      log = front ++ [last]
                      ∧ (∀ ev, ev ∈ front →
                           ∃ e t r, ev = Called e t r ∧ r ≠ Some ErrCacheFull ∧ Time e ≤ t)
                      ∧ omap eventEntry log `prefix_of` (e :: rest)
                      ∧ pool d' = foldl (λ p e, treeRemove compareDeferTx e p) (pool d)
                                    (removedBy log)
                      ∧ restarts d' = restarts d
                      ∧ passEnds (e :: rest) d' front last).
    { intros ->. injection Hrun as <- <- <-. exists [], (Called e t (Some ErrCacheFull)).
      repeat split; try done.
      - intros ev Hev. by apply elem_of_nil in Hev.
      - cbn. by exists rest. }
    assert (Hcont : err ≠ Some ErrCacheFull →
                    (let d1 := if removable err
                               then mkDeferServer (treeRemove compareDeferTx e (pool d))
                                      (nextScheduleTime d) (restarts d)
                               else d in
                     let '(d2, w3, log0) := tickerLoop rest d1 w2 in
                     (d2, w3, Called e t err :: log0)) = (d', w', log) →
                    ∃ front last,
                      log = front ++ [last]
                      ∧ (∀ ev, ev ∈ front →
                           ∃ e t r, ev = Called e t r ∧ r ≠ Some ErrCacheFull ∧ Time e ≤ t)
                      ∧ omap eventEntry log `prefix_of` (e :: rest)
                      ∧ pool d' = foldl (λ p e, treeRemove compareDeferTx e p) (pool d)
                                    (removedBy log)
                      ∧ restarts d' = restarts d
                      ∧ passEnds (e :: rest) d' front last).
    { intros Hnf Hrun'. cbn zeta in Hrun'.
      destruct (tickerLoop rest _ w2) as [[d2 w3] log0] eqn:Hrec.
      injection Hrun' as <- <- <-.
      destruct (IH _ _ _ _ _ Hrec) as (front & last & -> & Hfront & Hpre & Hpool & Hrs & Hend).
      exists (Called e t err :: front), last. repeat split.
      - intros ev [->|Hev]%elem_of_cons; [by exists e, t, err|by apply Hfront].
      - cbn [omap list_omap eventEntry]. by apply prefix_cons.
      - rewrite Hpool. cbn [removedBy]. by destruct (removable err).
      - rewrite Hrs. by destruct (removable err).
      - unfold passEnds in *. destruct last; simpl; intuition lia. }
    destruct err as [[]|]; [by apply Hfull| | | |]; apply Hcont; done.
Qed.

End DeferTicker.

(** ** The order of the deferred-transaction index *)

Section BytesCompare.

Lemma bytesCompare_eq (a b : list Byte.byte) : bytesCompare a b = 0 ↔ a = b.
Proof.
  revert b. induction a as [|x a IH]; intros [|y b]; cbn [bytesCompare]; try done.
  destruct (N.compare_spec (Byte.to_N x) (Byte.to_N y)) as [Heq|Hlt|Hgt].
  - assert (x = y) as ->.
    { pose proof (Byte.of_to_N x) as Hx. rewrite Heq, Byte.of_to_N in Hx. congruence. }
    rewrite IH. split; congruence.
  - split; [done|]. intros [= -> _]. lia.
  - split; [done|]. intros [= -> _]. lia.
Qed.

Lemma bytesCompare_antisym (a b : list Byte.byte) :
  bytesCompare b a = - bytesCompare a b.
Proof.
  revert b. induction a as [|x a IH]; intros [|y b]; cbn [bytesCompare]; try done.
  rewrite (N.compare_antisym (Byte.to_N x) (Byte.to_N y)).
  destruct (Byte.to_N x ?= Byte.to_N y)%N; cbn [CompOpp]; [apply IH|done|done].
Qed.

Lemma bytesCompare_range (a b : list Byte.byte) : -1 ≤ bytesCompare a b ≤ 1.
Proof.
  revert b. induction a as [|x a IH]; intros [|y b]; cbn [bytesCompare]; try lia.
  destruct (Byte.to_N x ?= Byte.to_N y)%N; [apply IH|lia|lia].
Qed.

Lemma bytesCompare_trans (a b c : list Byte.byte) :
  bytesCompare a b < 0 → bytesCompare b c < 0 → bytesCompare a c < 0.
Proof.
  revert b c. induction a as [|x a IH]; intros [|y b] [|z c]; cbn [bytesCompare]; try lia.
  destruct (N.compare_spec (Byte.to_N x) (Byte.to_N y)) as [Hxy|Hxy|Hxy];
    destruct (N.compare_spec (Byte.to_N y) (Byte.to_N z)) as [Hyz|Hyz|Hyz];
    destruct (N.compare_spec (Byte.to_N x) (Byte.to_N z)) as [Hxz|Hxz|Hxz];
    try lia; apply IH.
Qed.

End BytesCompare.

Section DeferOrder.
Import Core Txpool.
Context `{TxOps}.

Lemma compareDeferTx_lt (a b : Tx) :
  timeOk a → timeOk b →
  (compareDeferTx a b < 0
   ↔ Time a < Time b ∨ (Time a = Time b ∧ bytesCompare (Hash a) (Hash b) < 0)).
Proof.
  unfold timeOk, compareDeferTx, Int64.sub, Int64.MaxInt64. intros Ha Hb.
  destruct (Z.eqb_spec (Time a) (Time b)) as [Heq|Hne]; [intuition lia|].
  rewrite wrap_id by (unfold Int64.InRange, Int64.MinInt64, Int64.MaxInt64; lia).
  intuition lia.
Qed.

Lemma compareDeferTx_zero (a b : Tx) :
  timeOk a → timeOk b →
  (compareDeferTx a b = 0 ↔ Time a = Time b ∧ Hash a = Hash b).
Proof.
  unfold timeOk, compareDeferTx, Int64.sub, Int64.MaxInt64. intros Ha Hb.
  destruct (Z.eqb_spec (Time a) (Time b)) as [Heq|Hne].
  - rewrite bytesCompare_eq. tauto.
  - rewrite wrap_id by (unfold Int64.InRange, Int64.MinInt64, Int64.MaxInt64; lia).
    intuition lia.
Qed.

Lemma compareDeferTx_gt (a b : Tx) :
  timeOk a → timeOk b → (0 < compareDeferTx a b ↔ compareDeferTx b a < 0).
Proof.
  unfold timeOk, compareDeferTx, Int64.sub, Int64.MaxInt64. intros Ha Hb.
  rewrite (Z.eqb_sym (Time b) (Time a)).
  destruct (Z.eqb_spec (Time a) (Time b)) as [Heq|Hne].
  - rewrite (bytesCompare_antisym (Hash a) (Hash b)). lia.
  - rewrite !wrap_id by (unfold Int64.InRange, Int64.MinInt64, Int64.MaxInt64; lia).
    lia.
Qed.

Lemma before_trans (a b c : Tx) :
  timeOk a → timeOk b → timeOk c → before a b → before b c → before a c.
Proof.
  unfold before. intros Ha Hb Hc.
  rewrite !compareDeferTx_lt by done.
  intros [Hab|[Hab Hhab]] [Hbc|[Hbc Hhbc]]; try (left; lia).
  right. split; [lia|]. by apply (bytesCompare_trans _ (Hash b)).
Qed.

Lemma before_zero_l (k x y : Tx) :
  timeOk k → timeOk x → timeOk y → compareDeferTx k x = 0 → before x y → before k y.
Proof.
  unfold before. intros Hk Hx Hy.
  rewrite compareDeferTx_zero, !compareDeferTx_lt by done.
  intros [-> ->]. done.
Qed.

Lemma treePut_Forall (P : Tx → Prop) (k : Tx) (l : list Tx) :
  P k → Forall P l → Forall P (treePut compareDeferTx k l).
Proof.
  intros Hk. induction 1 as [|x l Hx Hl IH]; cbn [treePut]; [by constructor|].
  destruct (compareDeferTx k x <? 0); [by repeat constructor|].
  destruct (compareDeferTx k x =? 0); by constructor.
Qed.

Lemma treePut_elem (k : Tx) (l : list Tx) : k ∈ treePut compareDeferTx k l.
Proof.
  induction l as [|x l IH]; cbn [treePut]; [set_solver|].
  destruct (compareDeferTx k x <? 0); [set_solver|].
  destruct (compareDeferTx k x =? 0); set_solver.
Qed.

(** [Put] keeps the index sorted. *)
Lemma treePut_sorted (k : Tx) (l : list Tx) :
  timeOk k → Forall timeOk l → StronglySorted before l →
  StronglySorted before (treePut compareDeferTx k l).
Proof.
  intros Hk Hok Hs. induction Hs as [|x l Hs IH Hx]; cbn [treePut].
  - repeat constructor.
  - apply Forall_cons in Hok as [Hxok Hlok].
    destruct (Z.ltb_spec (compareDeferTx k x) 0) as [Hlt|Hge].
    { constructor; [by constructor|]. constructor; [done|].
      rewrite Forall_forall in Hx, Hlok. apply Forall_forall. intros y Hy.
      apply (before_trans k x y); auto. }
    destruct (Z.eqb_spec (compareDeferTx k x) 0) as [Hz|Hnz].
    { constructor; [done|].
      rewrite Forall_forall in Hx, Hlok. apply Forall_forall. intros y Hy.
      apply (before_zero_l k x y); auto. }
    constructor; [by apply IH|].
    apply treePut_Forall; [|done].
    unfold before. apply compareDeferTx_gt; [done|done|lia].
Qed.


End DeferOrder.

(** ** The deferred-transaction index as a set *)

Section DeferIndex.
Import Core Txpool.
Context `{TxOps}.

Lemma compareDeferTx_refl (a : Tx) : compareDeferTx a a = 0.
Proof. unfold compareDeferTx. rewrite Z.eqb_refl. by apply bytesCompare_eq. Qed.

Lemma treeRemove_absent (k : Tx) (l : list Tx) :
  Forall (λ x, compareDeferTx k x ≠ 0) l → treeRemove compareDeferTx k l = l.
Proof.
  induction 1 as [|x l Hx _ IH]; cbn [treeRemove]; [done|].
  destruct (Z.eqb_spec (compareDeferTx k x) 0); [done|]. by rewrite IH.
Qed.

Lemma treeRemove_sublist (k : Tx) (l : list Tx) :
  treeRemove compareDeferTx k l `sublist_of` l.
Proof.
  induction l as [|x l IH]; cbn [treeRemove]; [done|].
  destruct (compareDeferTx k x =? 0); [by apply sublist_cons|by apply sublist_skip].
Qed.

Lemma treeRemove_put (k : Tx) (l : list Tx) :
  timeOk k → Forall timeOk l → StronglySorted before l →
  treeRemove compareDeferTx k (treePut compareDeferTx k l)
  = treeRemove compareDeferTx k l.
Proof.
  intros Hk Hok Hs. induction Hs as [|x l Hs IH Hx]; cbn [treePut treeRemove].
  - by rewrite compareDeferTx_refl.
  - apply Forall_cons in Hok as [Hxok Hlok].
    destruct (Z.ltb_spec (compareDeferTx k x) 0) as [Hlt|Hge].
    { cbn [treeRemove]. rewrite compareDeferTx_refl. cbn [Z.eqb].
      destruct (Z.eqb_spec (compareDeferTx k x) 0); [lia|].
      rewrite treeRemove_absent; [done|].
      rewrite Forall_forall in Hx, Hlok. apply Forall_forall. intros y Hy.
      assert (before k y) by (apply (before_trans k x y); auto).
      unfold before in *. lia. }
    destruct (Z.eqb_spec (compareDeferTx k x) 0) as [Hz|Hnz].
    { cbn [treeRemove]. by rewrite compareDeferTx_refl. }
    cbn [treeRemove]. destruct (Z.eqb_spec (compareDeferTx k x) 0); [done|].
    by rewrite IH.
Qed.

Lemma treePut_put (k : Tx) (l : list Tx) :
  treePut compareDeferTx k (treePut compareDeferTx k l) = treePut compareDeferTx k l.
Proof.
  induction l as [|x l IH]; cbn [treePut].
  - by rewrite compareDeferTx_refl.
  - destruct (Z.ltb_spec (compareDeferTx k x) 0) as [Hlt|Hge].
    { cbn [treePut]. by rewrite compareDeferTx_refl. }
    destruct (Z.eqb_spec (compareDeferTx k x) 0) as [Hz|Hnz].
    { cbn [treePut]. by rewrite compareDeferTx_refl. }
    cbn [treePut]. destruct (Z.ltb_spec (compareDeferTx k x) 0); [lia|].
    destruct (Z.eqb_spec (compareDeferTx k x) 0); [done|]. by rewrite IH.
Qed.

Lemma StronglySorted_sublist {A : Type} (R : A → A → Prop) (l1 l2 : list A) :
  l1 `sublist_of` l2 → StronglySorted R l2 → StronglySorted R l1.
Proof.
  induction 1 as [|x l1 l2 Hsub IH|x l1 l2 Hsub IH]; intros Hs; [done| |].
  - apply StronglySorted_inv in Hs as [Hs Hall]. constructor; [by apply IH|].
    apply Forall_forall. intros y Hy. rewrite Forall_forall in Hall.
    apply Hall. by eapply elem_of_sublist.
  - apply StronglySorted_inv in Hs as [Hs _]. by apply IH.
Qed.

Lemma foldl_treeRemove_sublist (ks l : list Tx) :
  foldl (λ p e, treeRemove compareDeferTx e p) l ks `sublist_of` l.
Proof.
  revert l. induction ks as [|k ks IH]; intros l; cbn [foldl]; [done|].
  etrans; [apply IH|apply treeRemove_sublist].
Qed.

Lemma treePut_holds_new (k : Tx) (l : list Tx) : holdsKey k (treePut compareDeferTx k l).
Proof. exists k. split; [apply treePut_elem|apply compareDeferTx_refl]. Qed.

Lemma treePut_holds_old (k k' : Tx) (l : list Tx) :
  timeOk k → timeOk k' → Forall timeOk l →
  holdsKey k' l → holdsKey k' (treePut compareDeferTx k l).
Proof.
  intros Hk Hk' Hok (e & He & Hz). induction l as [|x l IH]; [by apply elem_of_nil in He|].
  apply Forall_cons in Hok as [Hxok Hlok]. cbn [treePut].
  destruct (Z.ltb_spec (compareDeferTx k x) 0) as [Hlt|Hge].
  { exists e. split; [by apply elem_of_cons; right|done]. }
  destruct (Z.eqb_spec (compareDeferTx k x) 0) as [Hkx|Hnz].
  - apply elem_of_cons in He as [->|He].
    + exists k. split; [by apply elem_of_cons; left|].
      apply compareDeferTx_zero in Hkx as [Ht Hh]; [|done|done].
      apply compareDeferTx_zero in Hz as [Ht' Hh']; [|done|done].
      apply compareDeferTx_zero; [done|done|]. split; congruence.
    + exists e. split; [by apply elem_of_cons; right|done].
  - apply elem_of_cons in He as [->|He].
    + exists x. split; [by apply elem_of_cons; left|done].
    + destruct (IH Hlok He) as (e' & He' & Hz').
      exists e'. split; [by apply elem_of_cons; right|done].
Qed.

End DeferIndex.

Section DeferRemoval.
Import Core Txpool.
Context `{TxOps}.







End DeferRemoval.

(** ** One pass of the ticker *)



(** ** The order of the index and [StoreDeferTx] *)




(** ** RPC: [SendRawTx] *)

(** C6, as the code has it.  [SendRawTx] returns an error exactly when the
    request is nil, or decoding the raw bytes fails, or [AddTx] answers one
    of the five admission errors; in the last case the message is
    "tx err:" followed by the name of that error, and otherwise the response
    holds the transaction's hash.  The chain is never touched, and without
    a decoded transaction the server is left as it was. *)
Theorem SendRawTx_result `{Core.TxOps} `{Rpc.RpcEnv P} {C : Type}
  (s : Rpc.GRPCServer P C) (rawTx : option Rpc.RawTxReq) :
  ((∃ msg, (Rpc.SendRawTx s rawTx).1 = inl msg)
   ↔ rawTx = None
     ∨ ∃ req, rawTx = Some req
              ∧ ((∃ err, Rpc.Decode (Rpc.Data req) = inl err)
                 ∨ ∃ trx name, Rpc.Decode (Rpc.Data req) = inr trx
                               ∧ Rpc.admissionName (Rpc.AddTx trx (Rpc.txpool s)).1
                                 = Some name))
  ∧ (∀ req trx,
       rawTx = Some req →
       Rpc.Decode (Rpc.Data req) = inr trx →
       (Rpc.SendRawTx s rawTx).1
       = match Rpc.admissionName (Rpc.AddTx trx (Rpc.txpool s)).1 with
         | Some name => inl ("tx err:" +:+ name)
         | None => inr (Rpc.mkSendRawTxRes (String.string_of_list_byte (Core.Hash trx)))
         end)
  ∧ Rpc.bchain (Rpc.SendRawTx s rawTx).2 = Rpc.bchain s
  ∧ ((rawTx = None ∨ ∃ req err, rawTx = Some req ∧ Rpc.Decode (Rpc.Data req) = inl err) →
     (Rpc.SendRawTx s rawTx).2 = s).
Proof.
  unfold Rpc.SendRawTx. destruct rawTx as [req|].
  - destruct (Rpc.Decode (Rpc.Data req)) as [err|trx] eqn:Hdec.
    + repeat split.
      * intros _. right. exists req. split; [done|]. left. by exists err.
      * intros _. by exists err.
      * intros req' trx' [= <-]. congruence.
    + destruct (Rpc.AddTx trx (Rpc.txpool s)) as [ret p'] eqn:Hadd.
      assert (Hiff : (∃ msg, (match ret with
                               | Rpc.TimeError => (inl "tx err:TimeError", Rpc.mkGRPCServer p' (Rpc.bchain s))
                               | Rpc.VerifyError => (inl "tx err:VerifyError", Rpc.mkGRPCServer p' (Rpc.bchain s))
                               | Rpc.DupError => (inl "tx err:DupError", Rpc.mkGRPCServer p' (Rpc.bchain s))
                               | Rpc.GasPriceError => (inl "tx err:GasPriceError", Rpc.mkGRPCServer p' (Rpc.bchain s))
                               | Rpc.CacheFullError => (inl "tx err:CacheFullError", Rpc.mkGRPCServer p' (Rpc.bchain s))
                               | _ => (inr (Rpc.mkSendRawTxRes (String.string_of_list_byte (Core.Hash trx))),
                                       Rpc.mkGRPCServer p' (Rpc.bchain s))
                               end).1 = (inl msg : string + Rpc.SendRawTxRes))
                     ↔ ∃ name, Rpc.admissionName ret = Some name).
      { destruct ret; cbn; split; intros [x Hx]; try discriminate; eauto. }
      repeat split.
      * intros Herr. right. exists req. split; [done|]. right.
        apply Hiff in Herr as [name Hname]. exists trx, name. by rewrite Hadd.
      * intros [|(req' & [= <-] & [[err Herr]|(trx' & name & Htrx & Hname)])]; [done|congruence|].
        rewrite Hdec in Htrx. injection Htrx as <-.
        apply Hiff. exists name. by rewrite Hadd in Hname.
      * intros req' trx' [= <-] Htrx. rewrite Hdec in Htrx. injection Htrx as <-.
        rewrite Hadd. by destruct ret.
      * by destruct ret.
      * intros [|(req' & err & [= <-] & Herr)]; [done|congruence].
  - repeat split; try done.
    + intros _. by left.
    + intros _. by eexists.
Qed.

Lemma SendRawTx_result_witness :
  let s := Rpc.mkGRPCServer ["pay"] 7%nat in
  let req := Some (Rpc.mkRawTxReq (String.list_byte_of_string "pay")) in
  (@Rpc.SendRawTx Fixtures.txOps _ Fixtures.rpcEnv nat s req).1 = inl "tx err:DupError"
  ∧ Rpc.bchain (@Rpc.SendRawTx Fixtures.txOps _ Fixtures.rpcEnv nat s req).2 = 7%nat.
Proof.
  intros s req.
  destruct (@SendRawTx_result Fixtures.txOps _ Fixtures.rpcEnv nat s req)
    as (_ & Hres & Hchain & _).
  split; [|exact Hchain].
  rewrite (Hres (Rpc.mkRawTxReq (String.list_byte_of_string "pay")) (Fixtures.plainTx "pay"));
    reflexivity.
Defined.

(** C6 as stated fails on the nil request: [SendRawTx] returns an error
    although nothing was decoded and [AddTx] was not called. *)
Lemma SendRawTx_nil_request :
  ¬ (∀ (ops : Core.TxOps) (P : Type) (env : Rpc.RpcEnv P) (C : Type)
       (s : Rpc.GRPCServer P C) (rawTx : option Rpc.RawTxReq),
       (∃ msg, (Rpc.SendRawTx s rawTx).1 = inl msg)
       ↔ ∃ req, rawTx = Some req
                ∧ ((∃ err, Rpc.Decode (Rpc.Data req) = inl err)
                   ∨ ∃ trx name, Rpc.Decode (Rpc.Data req) = inr trx
                                 ∧ Rpc.admissionName (Rpc.AddTx trx (Rpc.txpool s)).1
                                   = Some name)).
Proof.
  intros Hclaim.
  destruct (Hclaim Fixtures.txOps _ Fixtures.rpcEnv nat (Rpc.mkGRPCServer [] 0%nat) None)
    as [Hforth _].
  destruct Hforth as (req & Hreq & _); [by eexists|done].
Qed.

(** ** VM storage: [dbValToString] *)

(** C7, as the code has it.  [dbValToString] returns a string and no error
    for an [int64] (its decimal form), a string (itself), a boolean ("true"
    or "false") and a byte slice (its bytes), and the invalid-type error,
    with the empty string, for every other value: a fixed-decimal value
    included. *)
Theorem dbValToString_cases (val : V8.dbVal) :
  match val with
  | V8.VInt64 v => V8.dbValToString val = (pretty v, None)
  | V8.VString v => V8.dbValToString val = (v, None)
  | V8.VBool v => V8.dbValToString val = (if v then "true" else "false", None)
  | V8.VBytes v => V8.dbValToString val = (String.string_of_list_byte v, None)
  | V8.VFixed _ | V8.VOther _ =>
      V8.dbValToString val = ("", Some V8.ErrInvalidDbValType)
  end.
Proof. by destruct val. Qed.

(** C7 as stated fails on a fixed-decimal value: 12.30 gets the
    invalid-type error. *)
Lemma dbValToString_fixed_is_invalid :
  ¬ (∀ f : V8.Fixed, ∃ str, V8.dbValToString (V8.VFixed f) = (str, None)).
Proof.
  intros Hclaim. destruct (Hclaim (V8.mkFixed 1230 2)) as [str Hstr]. discriminate.
Qed.

(** ** Contracts: [DecodeContract] *)

(** C10.  [DecodeContract] never returns a contract: it returns nil when
    unmarshalling succeeds and panics when it fails; the method [Decode]
    leaves the unmarshalled contract in its receiver and returns the
    error. *)
Theorem DecodeContract_returns_no_contract `{Contract.Proto} (str : string) :
  (∀ c, Contract.DecodeContract str ≠ Ret (Some c))
  ∧ ((Contract.Unmarshal str Contract.zeroContract).2 = None →
     Contract.DecodeContract str = Ret None)
  ∧ ((Contract.Unmarshal str Contract.zeroContract).2 ≠ None →
     Contract.DecodeContract str = Panic)
  ∧ (∀ c, Contract.Decode c str = Contract.Unmarshal str c).
Proof.
  unfold Contract.DecodeContract, Contract.Decode.
  destruct (Contract.Unmarshal str Contract.zeroContract) as [c0 [e|]]; cbn [snd].
  - repeat split; try done. intros c. by destruct (Contract.Unmarshal str c) as [c' [e'|]].
  - repeat split; try done. intros c. by destruct (Contract.Unmarshal str c) as [c' [e'|]].
Qed.

Lemma DecodeContract_returns_no_contract_witness :
  @Contract.DecodeContract Fixtures.proto "token:code" = Ret None
  ∧ @Contract.DecodeContract Fixtures.proto "garbage" = Panic
  ∧ (@Contract.Decode Fixtures.proto Contract.zeroContract "token:code").1
    = Contract.mkContract "token" None "code".
Proof.
  destruct (@DecodeContract_returns_no_contract Fixtures.proto "token:code")
    as (_ & Hok & _ & Hdec).
  destruct (@DecodeContract_returns_no_contract Fixtures.proto "garbage")
    as (_ & _ & Hpanic & _).
  split; [apply Hok; reflexivity|].
  split; [apply Hpanic; vm_compute; discriminate|].
  rewrite Hdec. reflexivity.
Defined.

(** ** RPC: [Subscribe] *)

Section SubscribeLoop.
Import Rpc.
Context {E : Type}.

Lemma subscribeLoop_app (pre post : list (poll E)) (st : subState E) :
  subscribeLoop (pre ++ post) st
  = match subscribeLoop pre st with
    | Continue st' => subscribeLoop post st'
    | Return err st' => Return err st'
    end.
Proof.
  revert st. induction pre as [|p pre IH]; intros st; cbn [subscribeLoop app]; [done|].
  destruct (subscribeIter p st); [apply IH|done].
Qed.

Lemma subscribeIter_forwards (p : poll E) (st st' : subState E) :
  subscribeIter p st = Continue st' →
  (sent st').*2 ++ queue st' = (sent st).*2 ++ queue st ++ arrived p.
Proof.
  unfold subscribeIter. destruct (queue st ++ arrived p) as [|ev q'] eqn:Hq.
  - destruct (minute <=? elapsed p); [done|]. by intros [= <-].
  - destruct (_ && _); [done|]. destruct (sendErr p); [done|]. intros [= <-]. cbn.
    by rewrite fmap_app, <- app_assoc.
Qed.

Lemma subscribeLoop_forwards (polls : list (poll E)) (st st' : subState E) :
  subscribeLoop polls st = Continue st' →
  (sent st').*2 ++ queue st' = (sent st).*2 ++ queue st ++ concat (arrived <$> polls).
Proof.
  revert st. induction polls as [|p ps IH]; intros st; cbn [subscribeLoop].
  - intros [= <-]. cbn. by rewrite !app_nil_r.
  - destruct (subscribeIter p st) as [st1|] eqn:Hp; [|done].
    intros Hrest. rewrite (IH _ Hrest), app_assoc, (subscribeIter_forwards _ _ _ Hp).
    cbn. by rewrite <- !app_assoc.
Qed.

Lemma subscribeLoop_runs (polls : list (poll E)) (st : subState E) :
  Forall (λ p, elapsed p < minute ∧ sendErr p = None) polls →
  ∃ st', subscribeLoop polls st = Continue st'.
Proof.
  intros Hall. revert st. induction Hall as [|p ps [Ht Hs] _ IH]; intros st.
  - by eexists.
  - cbn [subscribeLoop]. unfold subscribeIter.
    destruct (Z.leb_spec minute (elapsed p)); [lia|]. rewrite Hs.
    destruct (queue st ++ arrived p); cbn [andb]; apply IH.
Qed.

End SubscribeLoop.

(** C8, as the code has it.  The stream ends, with no error, at the first
    iteration that finds the ticker's tick (60 seconds after the
    subscription was made) and no event waiting, or that takes the tick
    rather than a waiting event, whatever was delivered before; it ends
    with the error of [Send] when sending fails; before 60 seconds and
    without a send error it does not end; and as long as it runs, the
    events sent to the client followed by those still waiting are the
    events that reached the channel, in order. *)
Theorem Subscribe_stream {E : Type} (pre : list (Rpc.poll E)) (st : Rpc.subState E) :
  Rpc.subscribeLoop pre (Rpc.mkSubState [] []) = Rpc.Continue st →
  (Rpc.sent st).*2 ++ Rpc.queue st = concat (Rpc.arrived <$> pre)
  ∧ (∀ p post,
       Rpc.minute ≤ Rpc.elapsed p →
       Rpc.queue st ++ Rpc.arrived p = [] ∨ Rpc.pickTimer p = true →
       Rpc.Subscribe (pre ++ p :: post)
       = Rpc.Return None (Rpc.mkSubState (Rpc.queue st ++ Rpc.arrived p) (Rpc.sent st)))
  ∧ (∀ p post ev q err,
       Rpc.queue st ++ Rpc.arrived p = ev :: q →
       Rpc.elapsed p < Rpc.minute ∨ Rpc.pickTimer p = false →
       Rpc.sendErr p = Some err →
       Rpc.Subscribe (pre ++ p :: post)
       = Rpc.Return (Some err) (Rpc.mkSubState q (Rpc.sent st)))
  ∧ (∀ p ev q,
       Rpc.queue st ++ Rpc.arrived p = ev :: q →
       Rpc.elapsed p < Rpc.minute ∨ Rpc.pickTimer p = false →
       Rpc.sendErr p = None →
       Rpc.Subscribe (pre ++ [p])
       = Rpc.Continue (Rpc.mkSubState q (Rpc.sent st ++ [(Rpc.elapsed p, ev)])))
  ∧ (∀ post,
       Forall (λ p, Rpc.elapsed p < Rpc.minute ∧ Rpc.sendErr p = None) post →
       ∃ st', Rpc.Subscribe (pre ++ post) = Rpc.Continue st').
Proof.
  intros Hpre. unfold Rpc.Subscribe. split; [|split; [|split; [|split]]].
  - by rewrite (subscribeLoop_forwards pre _ st Hpre).
  - intros p post Ht Hsel. rewrite subscribeLoop_app, Hpre. cbn [Rpc.subscribeLoop].
    unfold Rpc.subscribeIter. destruct (Z.leb_spec Rpc.minute (Rpc.elapsed p)); [|lia].
    destruct Hsel as [Hq|Hpick].
    + by rewrite Hq.
    + rewrite Hpick. by destruct (Rpc.queue st ++ Rpc.arrived p).
  - intros p post ev q err Hq Hsel Herr. rewrite subscribeLoop_app, Hpre.
    cbn [Rpc.subscribeLoop]. unfold Rpc.subscribeIter. rewrite Hq, Herr.
    destruct Hsel as [Ht|Hpick].
    + destruct (Z.leb_spec Rpc.minute (Rpc.elapsed p)); [lia|done].
    + rewrite Hpick, andb_false_r. done.
  - intros p ev q Hq Hsel Hsend. rewrite subscribeLoop_app, Hpre.
    cbn [Rpc.subscribeLoop]. unfold Rpc.subscribeIter. rewrite Hq, Hsend.
    destruct Hsel as [Ht|Hpick].
    + destruct (Z.leb_spec Rpc.minute (Rpc.elapsed p)); [lia|done].
    + rewrite Hpick, andb_false_r. done.
  - intros post Hall. rewrite subscribeLoop_app, Hpre. by apply subscribeLoop_runs.
Qed.

Lemma Subscribe_stream_witness :
  let p1 := Rpc.mkPoll 1000000000 ["block 1"; "block 2"] false None in
  let p2 := Rpc.mkPoll 2000000000 [] false None in
  let p3 := Rpc.mkPoll 60000000000 ["block 3"] true None in
  Rpc.Subscribe [p1; p2; p3]
  = Rpc.Return None
      (Rpc.mkSubState ["block 3"] [(1000000000, "block 1"); (2000000000, "block 2")]).
Proof.
  intros p1 p2 p3.
  refine (proj1 (proj2 (Subscribe_stream [p1; p2]
            (Rpc.mkSubState [] [(1000000000, "block 1"); (2000000000, "block 2")]) _))
            p3 [] _ _).
  - reflexivity.
  - vm_compute; discriminate.
  - right; reflexivity.
Defined.

(** C8 as stated fails: the ticker is not reset by deliveries.  An event is
    sent 59 seconds after the subscription was made, and the stream ends by
    the timer one second later. *)
Lemma Subscribe_ends_without_inactivity :
  ¬ Rpc.endsAfterInactivity
      [Rpc.mkPoll 59000000000 ["block 1"] false None;
       Rpc.mkPoll 60000000000 [] false None].
Proof.
  intros Hclaim.
  specialize (Hclaim [Rpc.mkPoll 59000000000 ["block 1"] false None]
                (Rpc.mkPoll 60000000000 [] false None) []
                (Rpc.mkSubState [] [(59000000000, "block 1")])
                (Rpc.mkSubState [] [(59000000000, "block 1")])
                eq_refl eq_refl eq_refl 59000000000 "block 1").
  assert (Hin : (59000000000, "block 1") ∈ [(59000000000, "block 1")]) by set_solver.
  specialize (Hclaim Hin). vm_compute in Hclaim. by apply Hclaim.
Qed.

(** * Further properties *)

(** ** The witness schedule *)

Section Schedule.
Import Core Pob.

Lemma stringsCompare_eq (a b : string) : stringsCompare a b = 0 ↔ a = b.
Proof.
  unfold stringsCompare. rewrite bytesCompare_eq. split; [|by intros ->].
  intros Hb. rewrite <- (String.string_of_list_byte_of_string a), Hb.
  apply String.string_of_list_byte_of_string.
Qed.

Lemma rem_InRange (a b : Z) : b ≠ 0 → Int64.InRange a → Int64.InRange (a `rem` b).
Proof.
  intros Hb Ha.
  assert (Hle : Z.abs (a `rem` b) ≤ Z.abs a).
  { rewrite <- Z.rem_abs by done. apply Z.rem_le; lia. }
  assert (Hs : 0 ≤ (a `rem` b) * a) by (apply Z.rem_sign_mul; done).
  unfold Int64.InRange, Int64.MinInt64, Int64.MaxInt64 in *. nia.
Qed.

End Schedule.

Lemma isWitness_elem_of (w : string) (witnessList : list string) :
  Pob.isWitness w witnessList = true ↔ w ∈ witnessList.
Proof.
  induction witnessList as [|v rest IH]; cbn [Pob.isWitness].
  - split; [done|]. intros Hin. by apply elem_of_nil in Hin.
  - rewrite elem_of_cons. destruct (Z.eqb_spec (stringsCompare v w) 0) as [Heq|Hne].
    + apply stringsCompare_eq in Heq. split; [intros _; by left|done].
    + rewrite IH. split; [tauto|]. intros [->|Hin]; [|done].
      exfalso. apply Hne. by apply stringsCompare_eq.
Qed.

(** X1.  [isWitness] answers whether the name is in the list: it is true
    exactly for the members, whatever their position and however often
    they occur. *)
Theorem isWitness_elem (w : string) (witnessList : list string) :
  (Pob.isWitness w witnessList = true ↔ w ∈ witnessList)
  ∧ (Pob.isWitness w witnessList = false ↔ w ∉ witnessList)
  ∧ (∀ l1 l2, Pob.isWitness w (l1 ++ l2) = Pob.isWitness w l1 || Pob.isWitness w l2).
Proof.
  split; [apply isWitness_elem_of|]. split.
  - rewrite <- isWitness_elem_of. by destruct (Pob.isWitness w witnessList).
  - intros l1 l2. induction l1 as [|v l1 IH]; cbn [Pob.isWitness app]; [done|].
    by destruct (stringsCompare v w =? 0).
Qed.

(** X2.  Round robin: with a list of [N > 0] witnesses, every slot [s >= 0]
    has a witness, that witness is in the list, and the slot [s + N] has the
    same one. *)
Theorem witnessOfSlot_round_robin (sp : Pob.StaticProperty) (s : Z) (wl : list string) :
  0 < Pob.NumberOfWitnesses sp →
  Z.of_nat (length wl) = Pob.NumberOfWitnesses sp →
  0 ≤ s →
  s + Pob.NumberOfWitnesses sp ≤ Int64.MaxInt64 →
  ∃ w, Pob.witnessOfSlot sp s wl = Ret w
       ∧ Pob.isWitness w wl = true
       ∧ Pob.witnessOfSlot sp (s + Pob.NumberOfWitnesses sp) wl = Ret w.
Proof.
  intros HN Hlen Hs Hmax.
  rewrite !witnessOfSlot_index by (try done; unfold Int64.MaxInt64 in *; lia).
  replace ((s + Pob.NumberOfWitnesses sp) `mod` Pob.NumberOfWitnesses sp)
    with (s `mod` Pob.NumberOfWitnesses sp)
    by (rewrite <- (Z.mul_1_l (Pob.NumberOfWitnesses sp)) at 2; by rewrite Z.mod_add by lia).
  pose proof (Z.mod_pos_bound s _ HN) as Hb.
  destruct (lookup_lt_is_Some_2 wl (Z.to_nat (s `mod` Pob.NumberOfWitnesses sp))) as [w Hw]; [lia|].
  rewrite Hw. exists w. split; [done|]. split; [|done].
  apply isWitness_elem_of. by eapply list_elem_of_lookup_2.
Qed.

Lemma witnessOfSlot_round_robin_witness :
  ∃ w, Pob.witnessOfSlot Fixtures.sp3 4 ["w1"; "w2"; "w3"] = Ret w
       ∧ Pob.isWitness w ["w1"; "w2"; "w3"] = true
       ∧ Pob.witnessOfSlot Fixtures.sp3 (4 + 3) ["w1"; "w2"; "w3"] = Ret w.
Proof.
  apply (witnessOfSlot_round_robin Fixtures.sp3 4 ["w1"; "w2"; "w3"]);
    vm_compute; (reflexivity || discriminate).
Defined.

(** X3.  [witnessOfSlot] panics exactly when the number of witnesses is
    zero, or the remainder of the slot is negative (a negative slot that is
    not a multiple of the number of witnesses), or the remainder is not an
    index of the list; otherwise it returns the list's element at the
    remainder. *)
Theorem witnessOfSlot_panics (sp : Pob.StaticProperty) (s : Z) (wl : list string) :
  Int64.InRange s →
  (Pob.witnessOfSlot sp s wl = Panic
   ↔ Pob.NumberOfWitnesses sp = 0
     ∨ s `rem` Pob.NumberOfWitnesses sp < 0
     ∨ Z.of_nat (length wl) ≤ s `rem` Pob.NumberOfWitnesses sp)
  ∧ (∀ w, Pob.witnessOfSlot sp s wl = Ret w →
          wl !! Z.to_nat (s `rem` Pob.NumberOfWitnesses sp) = Some w)
  ∧ Pob.witnessOfSlot sp s wl ≠ OutOfFuel.
Proof.
  intros Hs. unfold Pob.witnessOfSlot, rem64.
  destruct (Z.eqb_spec (Pob.NumberOfWitnesses sp) 0) as [H0|H0]; cbn [mbind outcome_bind].
  { repeat split; try done. intros _. by left. }
  rewrite wrap_id by (by apply rem_InRange).
  unfold index. destruct (Z.ltb_spec (s `rem` Pob.NumberOfWitnesses sp) 0) as [Hneg|Hnn].
  { repeat split; try done. intros _. right. by left. }
  destruct (wl !! Z.to_nat (s `rem` Pob.NumberOfWitnesses sp)) as [w|] eqn:Hw.
  - apply lookup_lt_Some in Hw as Hlt. repeat split; try done.
    + intros [|[|]]; lia.
    + congruence.
  - apply lookup_ge_None in Hw as Hge. repeat split; try done.
    intros _. right. right. lia.
Qed.

Lemma witnessOfSlot_panics_witness :
  Pob.witnessOfSlot Fixtures.sp3 (-1) ["w1"; "w2"; "w3"] = Panic.
Proof.
  apply (witnessOfSlot_panics Fixtures.sp3 (-1) ["w1"; "w2"; "w3"]).
  - vm_compute; split; discriminate.
  - right. left. vm_compute; reflexivity.
Defined.

Lemma timeUntilNextSchedule_next (SlotLength t : Z) :
  0 < SlotLength →
  0 ≤ t →
  t + SlotLength * 10 ^ 9 ≤ Int64.MaxInt64 →
  ∃ r, Pob.timeUntilNextSchedule SlotLength t = Ret r
       ∧ 0 < r ≤ SlotLength * 10 ^ 9
       ∧ (t + r) `mod` (SlotLength * 10 ^ 9) = 0
       ∧ t + r = (t `div` (SlotLength * 10 ^ 9) + 1) * (SlotLength * 10 ^ 9).
Proof.
  intros HSL Ht Hmax. unfold Pob.timeUntilNextSchedule, quo64, Pob.second2nanosecond.
  set (L := SlotLength * 10 ^ 9) in *.
  assert (HL : 0 < L) by (unfold L; lia).
  assert (HmulL : Int64.mul 1000000000 SlotLength = L).
  { unfold Int64.mul. rewrite wrap_id; [unfold L; lia|].
    unfold Int64.InRange, Int64.MinInt64, Int64.MaxInt64 in *. unfold L in *. lia. }
  rewrite HmulL. destruct (Z.eqb_spec L 0) as [|_]; [lia|].
  cbn [mbind outcome_bind]. rewrite Z.quot_div_nonneg by lia.
  pose proof (Z.div_mod t L ltac:(lia)) as Hdm.
  pose proof (Z.mod_pos_bound t L HL) as Hmb.
  set (q := t `div` L) in *.
  assert (Hq : 0 ≤ q) by (apply Z.div_pos; lia).
  assert (HqL : q * L ≤ t) by lia.
  unfold Int64.MaxInt64 in Hmax.
  rewrite (wrap_id q) by (unfold Int64.InRange, Int64.MinInt64, Int64.MaxInt64; nia).
  unfold Int64.add, Int64.mul, Int64.sub.
  rewrite (wrap_id (q + 1)) by (unfold Int64.InRange, Int64.MinInt64, Int64.MaxInt64; nia).
  assert (Hq1 : 0 ≤ (q + 1) * 1000000000 ≤ (q + 1) * L) by (unfold L; nia).
  rewrite (wrap_id ((q + 1) * 1000000000))
    by (unfold Int64.InRange, Int64.MinInt64, Int64.MaxInt64; nia).
  replace ((q + 1) * 1000000000 * SlotLength) with ((q + 1) * L) by (unfold L; lia).
  rewrite (wrap_id ((q + 1) * L))
    by (unfold Int64.InRange, Int64.MinInt64, Int64.MaxInt64; nia).
  rewrite wrap_id by (unfold Int64.InRange, Int64.MinInt64, Int64.MaxInt64; nia).
  eexists. split; [reflexivity|]. split; [nia|]. split.
  - replace (t + ((q + 1) * L - t)) with (0 + (q + 1) * L) by lia.
    by rewrite Z.mod_add by lia.
  - lia.
Qed.

(** X4.  [timeUntilNextSchedule]: for a time [t >= 0] (nanoseconds) the
    result is positive, at most one slot long, and [t] plus the result is the
    next multiple of the slot length. *)
Theorem timeUntilNextSchedule_boundary (SlotLength t : Z) :
  0 < SlotLength →
  0 ≤ t →
  t + SlotLength * 10 ^ 9 ≤ Int64.MaxInt64 →
  ∃ r, Pob.timeUntilNextSchedule SlotLength t = Ret r
       ∧ 0 < r ≤ SlotLength * 10 ^ 9
       ∧ (t + r) `mod` (SlotLength * 10 ^ 9) = 0
       ∧ t + r = (t `div` (SlotLength * 10 ^ 9) + 1) * (SlotLength * 10 ^ 9).
Proof. apply timeUntilNextSchedule_next. Qed.

Lemma timeUntilNextSchedule_boundary_witness :
  ∃ r, Pob.timeUntilNextSchedule 3 7000000001 = Ret r
       ∧ 0 < r ≤ 3 * 10 ^ 9
       ∧ (7000000001 + r) `mod` (3 * 10 ^ 9) = 0
       ∧ 7000000001 + r = (7000000001 `div` (3 * 10 ^ 9) + 1) * (3 * 10 ^ 9).
Proof.
  apply (timeUntilNextSchedule_boundary 3 7000000001); vm_compute; (reflexivity || discriminate).
Defined.

(** ** Watermarks in closed form *)

Section HighWater.
Import Core Pob.

Lemma highWater_snoc (w : string) (init : Z) (nodes : list BlockCacheNode)
  (n : BlockCacheNode) :
  highWater w init (nodes ++ [n])
  = if decide (Witness (NHead n) = w)
    then Z.max (highWater w init nodes) (Number (NHead n) + 1)
    else highWater w init nodes.
Proof. unfold highWater. by rewrite foldl_app. Qed.

Lemma updateWaterMark_highWater (sp : StaticProperty) (n : BlockCacheNode) (w : string) :
  Int64.MinInt64 ≤ Number (NHead n) < Int64.MaxInt64 →
  mapGet (Watermark (updateWaterMark sp n).2) w
  = highWater w (mapGet (Watermark sp) w) [n].
Proof.
  intros Hn. unfold updateWaterMark, highWater. cbn [snd foldl].
  assert (Hw : Int64.add (Number (NHead n)) 1 = Number (NHead n) + 1).
  { unfold Int64.add. apply wrap_id.
    unfold Int64.InRange, Int64.MinInt64, Int64.MaxInt64 in *. lia. }
  destruct (Z.leb_spec (mapGet (Watermark sp) (Witness (NHead n))) (Number (NHead n)))
    as [Hle|Hgt]; cbn [Watermark].
  - rewrite mapGet_insert, Hw. case_decide as Heq; [subst w; lia|done].
  - case_decide as Heq; [subst w; lia|done].
Qed.

Lemma linkAll_highWater_aux (nodes : list BlockCacheNode) :
  Forall (λ n, Int64.MinInt64 ≤ Number (NHead n) < Int64.MaxInt64) nodes →
  ∀ sp : StaticProperty,
    (∀ w, mapGet (Watermark (linkAll sp nodes).2) w
          = highWater w (mapGet (Watermark sp) w) nodes)
    ∧ (∀ j n', (linkAll sp nodes).1 !! j = Some n' →
         ∃ n, nodes !! j = Some n ∧ NHead n' = NHead n ∧ Parent n' = Parent n
              ∧ ConfirmUntil n'
                = highWater (Witness (NHead n)) (mapGet (Watermark sp) (Witness (NHead n)))
                    (take j nodes)).
Proof.
  induction 1 as [|n rest Hn Hrest IH]; intros sp; [done|].
  pose proof (updateWaterMark_highWater sp n) as Hstep.
  cbn [linkAll]. destruct (updateWaterMark sp n) as [n1 sp1] eqn:Hu.
  assert (Hn1 : n1 = mkNode (NHead n) (mapGet (Watermark sp) (Witness (NHead n))) (Parent n)).
  { unfold updateWaterMark in Hu. by injection Hu as <- _. }
  cbn [snd] in Hstep. destruct (IH sp1) as [IHw IHc].
  destruct (linkAll sp1 rest) as [rest' sp2]. cbn [fst snd] in *. split.
  - intros w. rewrite IHw, (Hstep w Hn). done.
  - intros [|j] n'; cbn [lookup list_lookup].
    + intros [= <-]. exists n. subst n1. by cbn.
    + intros Hj. destruct (IHc j n' Hj) as (n0 & Hn0 & Hh & Hp & Hc).
      exists n0. split; [done|]. split; [done|]. split; [done|].
      rewrite Hc, (Hstep _ Hn). done.
Qed.

End HighWater.

(** X5.  After any sequence of blocks is linked (none with the largest
    [int64] as its number), the watermark of every witness is its old value
    raised to one more than the highest number among that witness's blocks;
    each linked node keeps its header and parent and holds in
    [ConfirmUntil] that same quantity for the blocks linked before it; so a
    node satisfies [ConfirmUntil <= Number] exactly when its number is not
    below the old watermark and above the numbers of all earlier blocks of
    its witness. *)
Theorem linkAll_highWater (sp : Pob.StaticProperty) (nodes : list Pob.BlockCacheNode) :
  Forall (λ n, Int64.MinInt64 ≤ Core.Number (Pob.NHead n) < Int64.MaxInt64) nodes →
  (∀ w, Pob.mapGet (Pob.Watermark (Pob.linkAll sp nodes).2) w
        = Pob.highWater w (Pob.mapGet (Pob.Watermark sp) w) nodes)
  ∧ (∀ j n', (Pob.linkAll sp nodes).1 !! j = Some n' →
       ∃ n, nodes !! j = Some n
            ∧ Pob.NHead n' = Pob.NHead n ∧ Pob.Parent n' = Pob.Parent n
            ∧ Pob.ConfirmUntil n'
              = Pob.highWater (Core.Witness (Pob.NHead n))
                  (Pob.mapGet (Pob.Watermark sp) (Core.Witness (Pob.NHead n)))
                  (take j nodes)
            ∧ (Pob.counted n' = true
               ↔ Pob.mapGet (Pob.Watermark sp) (Core.Witness (Pob.NHead n))
                   ≤ Core.Number (Pob.NHead n)
                 ∧ ∀ i m, (i < j)%nat → nodes !! i = Some m →
                          Core.Witness (Pob.NHead m) = Core.Witness (Pob.NHead n) →
                          Core.Number (Pob.NHead m) < Core.Number (Pob.NHead n))).
Proof.
  intros Hall. destruct (linkAll_highWater_aux nodes Hall sp) as [Hw Hc].
  split; [done|]. intros j n' Hj.
  destruct (Hc j n' Hj) as (n & Hn & Hh & Hp & Hcu).
  exists n. do 4 (split; [done|]).
  unfold Pob.counted. rewrite Hcu, Hh, Z.leb_le.
  assert (Hgen : ∀ (pre : list Pob.BlockCacheNode) (init x : Z) (w : string),
             Pob.highWater w init pre ≤ x
             ↔ init ≤ x ∧ ∀ i m, pre !! i = Some m → Core.Witness (Pob.NHead m) = w →
                                 Core.Number (Pob.NHead m) < x).
  { induction pre as [|m pre IH] using rev_ind; intros init x w.
    - cbn. split; [intros ?; split; [done|]; intros i m Hi; done|tauto].
    - rewrite highWater_snoc. case_decide as Hm.
      + rewrite Z.max_lub_iff, IH. split.
        * intros [[Hi Hpre] Hx]. split; [done|]. intros i m0 Hi0 Hw0.
          apply lookup_app_Some in Hi0 as [Hi0|[_ Hi0]]; [by eapply Hpre|].
          apply list_lookup_singleton_Some in Hi0 as [_ <-]. lia.
        * intros [Hi Hpre]. split; [split; [done|]|].
          -- intros i m0 Hi0 Hw0. apply (Hpre i m0); [|done].
             by apply lookup_app_l_Some.
          -- specialize (Hpre (length pre) m). rewrite list_lookup_middle in Hpre by done.
             specialize (Hpre eq_refl Hm). lia.
      + rewrite IH. split.
        * intros [Hi Hpre]. split; [done|]. intros i m0 Hi0 Hw0.
          apply lookup_app_Some in Hi0 as [Hi0|[_ Hi0]]; [by eapply Hpre|].
          apply list_lookup_singleton_Some in Hi0 as [_ <-]. done.
        * intros [Hi Hpre]. split; [done|]. intros i m0 Hi0 Hw0.
          apply (Hpre i m0); [|done]. by apply lookup_app_l_Some. }
  rewrite Hgen. split.
  - intros [Hi Hpre]. split; [done|]. intros i m Hij Him Hwm.
    apply (Hpre i m); [|done]. rewrite lookup_take_lt by done. done.
  - intros [Hi Hpre]. split; [done|]. intros i m Him Hwm.
    apply lookup_take_Some in Him as [Him Hij]. by apply (Hpre i m).
Qed.

Lemma linkAll_highWater_witness :
  let n1 := Pob.mkNode (Core.mkHead 7 "w1" 0) 0 None in
  let n2 := Pob.mkNode (Core.mkHead 3 "w1" 0) 0 None in
  let n3 := Pob.mkNode (Core.mkHead 4 "w2" 0) 0 None in
  Pob.mapGet (Pob.Watermark (Pob.linkAll Fixtures.sp3 [n1; n2; n3]).2) "w1"
  = Pob.highWater "w1" 0 [n1; n2; n3]
  ∧ Pob.highWater "w1" 0 [n1; n2; n3] = 8.
Proof.
  intros n1 n2 n3. split; [|vm_compute; reflexivity].
  refine (proj1 (linkAll_highWater Fixtures.sp3 [n1; n2; n3] _) "w1").
  repeat constructor; vm_compute; congruence.
Defined.

(** ** What [calculateConfirm] can and cannot return *)

Section ConfirmFacts.
Import Core Pob.

Lemma calculateConfirm_on_walk (h : gmap positive BlockCacheNode) (sp : StaticProperty)
  (node root : positive) (r : BlockCacheNode) (path : list (positive * BlockCacheNode))
  (fuel : nat) :
  h !! root = Some r →
  Walk h root (Some node) path →
  Z.of_nat (length path) ≤ 2 ^ 31 →
  (length path < fuel)%nat →
  calculateConfirm fuel h sp (Some node) (Some root)
  = Ret (confirmedOnWalk (limitOf sp) path).
Proof.
  intros Hroot Hwalk Hlen Hfuel.
  unfold calculateConfirm, confirmLimit, quo64. cbn [Z.eqb mbind outcome_bind].
  assert (Hnode : is_Some (h !! node)) by (inversion Hwalk; subst; eauto).
  destruct Hnode as [n Hnode]. cbn [option_bind]. rewrite Hnode, Hroot.
  rewrite (calculateConfirmLoop_walk h _ root (Some node) path Hwalk [] fuel 0 ∅).
  - unfold confirmedOnWalk. cbn [length app].
    destruct (firstIndex _ 0 (length path)) as [k|]; [|done].
    cbn [mbind option_bind]. by rewrite Nat.sub_0_r.
  - cbn [app]. by rewrite length_fmap.
  - cbn [app length sumTo]. unfold countedIn. by rewrite take_0.
  - intros c. by rewrite mapGet_empty.
  - done.
Qed.

Lemma limitOf_small (sp : StaticProperty) :
  0 ≤ NumberOfWitnesses sp < 2 ^ 62 →
  limitOf sp = (NumberOfWitnesses sp * 2) `div` 3 + 1 ∧ 1 ≤ limitOf sp.
Proof.
  intros HN. unfold limitOf, Int64.add, Int64.mul.
  rewrite (wrap_id (NumberOfWitnesses sp * 2))
    by (unfold Int64.InRange, Int64.MinInt64, Int64.MaxInt64; lia).
  rewrite Z.quot_div_nonneg by lia.
  assert (0 ≤ (NumberOfWitnesses sp * 2) `div` 3 < 2 ^ 62).
  { split; [apply Z.div_pos; lia|]. apply Z.div_lt_upper_bound; lia. }
  rewrite (wrap_id (_ `div` 3))
    by (unfold Int64.InRange, Int64.MinInt64, Int64.MaxInt64; lia).
  rewrite wrap_id by (unfold Int64.InRange, Int64.MinInt64, Int64.MaxInt64; lia).
  lia.
Qed.

Lemma countZ_take_le {A : Type} (p : A → bool) (k : nat) (l : list A) :
  countZ p (take k l) ≤ countZ p l.
Proof.
  rewrite <- (take_drop k l) at 2. rewrite countZ_app.
  pose proof (countZ_bounds p (drop k l)). lia.
Qed.

Lemma countZ_none {A : Type} (p : A → bool) (l : list A) :
  Forall (λ x, p x = false) l → countZ p l = 0.
Proof. induction 1 as [|x l Hx _ IH]; cbn [countZ]; [done|]. rewrite Hx. lia. Qed.

Lemma sumTo_nonneg (f : nat → Z) (k : nat) :
  (∀ j, 0 ≤ f j) → 0 ≤ sumTo f k.
Proof. intros Hf. induction k as [|k IH]; cbn [sumTo]; [lia|]. specialize (Hf k). lia. Qed.

Lemma sumTo_zero (f : nat → Z) (k : nat) :
  (∀ j, (j < k)%nat → f j = 0) → sumTo f k = 0.
Proof.
  induction k as [|k IH]; intros Hf; cbn [sumTo]; [done|].
  rewrite IH, Hf by (intros; try apply Hf; lia). done.
Qed.

Lemma runningCount_le_counted (l : list BlockCacheNode) (k : nat) :
  runningCount l k ≤ countZ counted l.
Proof.
  unfold runningCount, countedIn.
  pose proof (countZ_take_le counted (S k) l).
  pose proof (sumTo_nonneg (subtractedAt l) k (λ j, proj1 (subtractedAt_bounds l j))).
  lia.
Qed.

Lemma runningCount_S (l : list BlockCacheNode) (k : nat) (n : BlockCacheNode) :
  l !! S k = Some n →
  runningCount l (S k)
  = runningCount l k - subtractedAt l k + (if counted n then 1 else 0).
Proof.
  intros Hn. unfold runningCount, countedIn. cbn [sumTo].
  rewrite (take_S_r l (S k) n Hn), countZ_app. cbn [countZ]. lia.
Qed.

Lemma firstIndex_intro (p : nat → bool) (count from k : nat) :
  (from ≤ k < from + count)%nat →
  p k = true →
  (∀ j, (from ≤ j < k)%nat → p j = false) →
  firstIndex p from count = Some k.
Proof.
  revert from. induction count as [|count IH]; intros from Hk Hpk Hbefore; [lia|].
  cbn [firstIndex]. destruct (decide (from = k)) as [->|Hne]; [by rewrite Hpk|].
  rewrite Hbefore by lia. apply IH; [lia|done|]. intros j Hj. apply Hbefore. lia.
Qed.

Lemma firstIndex_none_intro (p : nat → bool) (count from : nat) :
  (∀ j, (from ≤ j < from + count)%nat → p j = false) →
  firstIndex p from count = None.
Proof.
  revert from. induction count as [|count IH]; intros from Hnone; [done|].
  cbn [firstIndex]. rewrite Hnone by lia. apply IH. intros j Hj. apply Hnone. lia.
Qed.

Lemma Walk_nodes (h : gmap positive BlockCacheNode) (root : positive)
  (node : option positive) (path : list (positive * BlockCacheNode)) :
  Walk h root node path →
  Forall (λ pn, pn.1 ≠ root ∧ h !! pn.1 = Some pn.2) path.
Proof. induction 1; constructor; auto. Qed.

End ConfirmFacts.

(** X6.  No confirmation without a quorum: when fewer walked nodes than the
    limit have [ConfirmUntil <= Number], [calculateConfirm] returns nil, and
    [updateLib] leaves the block cache as it is. *)
Theorem calculateConfirm_needs_quorum `{Pob.BlockCacheOps BC}
  (h : gmap positive Pob.BlockCacheNode) (sp : Pob.StaticProperty)
  (node root : positive) (r : Pob.BlockCacheNode)
  (path : list (positive * Pob.BlockCacheNode)) (fuel : nat) (bc : BC) :
  h !! root = Some r →
  Pob.Walk h root (Some node) path →
  Z.of_nat (length path) ≤ 2 ^ 31 →
  (length path < fuel)%nat →
  Pob.countZ Pob.counted (path.*2) < Pob.limitOf sp →
  Pob.calculateConfirm fuel h sp (Some node) (Some root) = Ret None
  ∧ Pob.updateLib fuel h sp (Some node) (Some root) bc = Ret bc.
Proof.
  intros Hroot Hwalk Hlen Hfuel Hfew.
  assert (Hnil : Pob.calculateConfirm fuel h sp (Some node) (Some root) = Ret None).
  { rewrite (calculateConfirm_on_walk h sp node root r path fuel) by done.
    unfold Pob.confirmedOnWalk. rewrite firstIndex_none_intro; [done|].
    intros j _. pose proof (runningCount_le_counted (path.*2) j). cbn beta. lia. }
  split; [done|]. unfold Pob.updateLib. by rewrite Hnil.
Qed.

(** X7.  The node [calculateConfirm] returns (for a number of witnesses
    that is not negative) is one of the walked nodes, is never the root, and
    has [ConfirmUntil <= Number]. *)
Theorem calculateConfirm_returns_counted (h : gmap positive Pob.BlockCacheNode)
  (sp : Pob.StaticProperty) (node root : positive) (r : Pob.BlockCacheNode)
  (path : list (positive * Pob.BlockCacheNode)) (fuel : nat) (p : positive) :
  h !! root = Some r →
  Pob.Walk h root (Some node) path →
  Z.of_nat (length path) ≤ 2 ^ 31 →
  (length path < fuel)%nat →
  0 ≤ Pob.NumberOfWitnesses sp < 2 ^ 62 →
  Pob.calculateConfirm fuel h sp (Some node) (Some root) = Ret (Some p) →
  ∃ k n, path !! k = Some (p, n)
         ∧ p ≠ root
         ∧ h !! p = Some n
         ∧ Pob.ConfirmUntil n ≤ Core.Number (Pob.NHead n).
Proof.
  intros Hroot Hwalk Hlen Hfuel HN Hres.
  rewrite (calculateConfirm_on_walk h sp node root r path fuel) in Hres by done.
  injection Hres as Hres. unfold Pob.confirmedOnWalk in Hres.
  destruct (Pob.firstIndex _ 0 (length path)) as [k|] eqn:Hk; [|done].
  cbn [mbind option_bind] in Hres.
  destruct (path !! k) as [[p' n]|] eqn:Hpk; [|done]. cbn in Hres. injection Hres as ->.
  exists k, n. split; [done|].
  pose proof (Walk_nodes _ _ _ _ Hwalk) as Hnodes. rewrite Forall_forall in Hnodes.
  destruct (Hnodes (p, n)) as [Hne Hhp]; [by eapply list_elem_of_lookup_2|].
  split; [done|]. split; [done|].
  pose proof (firstIndex_range _ _ _ _ Hk) as [_ Hreach].
  pose proof (firstIndex_least _ _ _ _ Hk) as Hleast.
  apply Z.leb_le in Hreach. destruct (limitOf_small sp HN) as [_ Hlim].
  assert (Hln : path.*2 !! k = Some n) by (by rewrite list_lookup_fmap, Hpk).
  assert (Hc : Pob.counted n = true).
  { destruct (Pob.counted n) eqn:Hcn; [done|]. exfalso. destruct k as [|k].
    - unfold Pob.runningCount, Pob.countedIn in Hreach. cbn [Pob.sumTo] in Hreach.
      rewrite (take_S_r _ 0 n Hln), take_0 in Hreach. cbn [app Pob.countZ] in Hreach.
      rewrite Hcn in Hreach. lia.
    - rewrite (runningCount_S _ k n Hln), Hcn in Hreach.
      specialize (Hleast k ltac:(lia)). cbn beta in Hleast. apply Z.leb_gt in Hleast.
      pose proof (subtractedAt_bounds (path.*2) k). lia. }
  unfold Pob.counted in Hc. lia.
Qed.

(** X8.  With a single witness the limit is one: [calculateConfirm] returns
    the first walked node that has [ConfirmUntil <= Number] (the head
    itself when it has), whatever the nodes below it are. *)
Theorem calculateConfirm_single_witness (h : gmap positive Pob.BlockCacheNode)
  (sp : Pob.StaticProperty) (node root : positive) (r : Pob.BlockCacheNode)
  (path : list (positive * Pob.BlockCacheNode)) (fuel : nat)
  (k : nat) (p : positive) (n : Pob.BlockCacheNode) :
  Pob.NumberOfWitnesses sp = 1 →
  h !! root = Some r →
  Pob.Walk h root (Some node) path →
  Z.of_nat (length path) ≤ 2 ^ 31 →
  (length path < fuel)%nat →
  path !! k = Some (p, n) →
  Pob.ConfirmUntil n ≤ Core.Number (Pob.NHead n) →
  (∀ j q m, (j < k)%nat → path !! j = Some (q, m) →
            Core.Number (Pob.NHead m) < Pob.ConfirmUntil m) →
  Pob.calculateConfirm fuel h sp (Some node) (Some root) = Ret (Some p).
Proof.
  intros HN Hroot Hwalk Hlen Hfuel Hpk Hcount Hbefore.
  rewrite (calculateConfirm_on_walk h sp node root r path fuel) by done.
  assert (Hlim : Pob.limitOf sp = 1) by (unfold Pob.limitOf; by rewrite HN).
  rewrite Hlim. unfold Pob.confirmedOnWalk.
  assert (Hnc : ∀ j, (j ≤ k)%nat →
                     Forall (λ x, Pob.counted x = false) (take j (path.*2))).
  { intros j Hj. apply Forall_forall. intros m Hm.
    apply list_elem_of_lookup_1 in Hm as [i Hi].
    apply lookup_take_Some in Hi as [Hi Hij].
    rewrite list_lookup_fmap in Hi.
    destruct (path !! i) as [[q m']|] eqn:Hpi; [|done]. injection Hi as ->.
    specialize (Hbefore i q m ltac:(lia) Hpi). unfold Pob.counted. lia. }
  assert (Hsub : ∀ j, (j < k)%nat → Pob.subtractedAt (path.*2) j = 0).
  { intros j Hj. unfold Pob.subtractedAt. destruct (path.*2 !! j); [|done].
    apply countZ_none. eapply Forall_impl; [apply (Hnc (S j)); lia|].
    cbn beta. intros x ->. done. }
  assert (Hrc : ∀ j, (j < k)%nat → Pob.runningCount (path.*2) j = 0).
  { intros j Hj. unfold Pob.runningCount, Pob.countedIn.
    rewrite (countZ_none _ _ (Hnc (S j) ltac:(lia))).
    rewrite sumTo_zero; [done|]. intros i Hi. apply Hsub. lia. }
  assert (Hln : path.*2 !! k = Some n) by (by rewrite list_lookup_fmap, Hpk).
  assert (Hrk : Pob.runningCount (path.*2) k = 1).
  { unfold Pob.runningCount, Pob.countedIn.
    rewrite (take_S_r _ k n Hln), countZ_app, (countZ_none _ _ (Hnc k ltac:(lia))).
    rewrite sumTo_zero by done. cbn [Pob.countZ]. unfold Pob.counted.
    destruct (Z.leb_spec (Pob.ConfirmUntil n) (Core.Number (Pob.NHead n))); lia. }
  rewrite (firstIndex_intro _ _ _ k).
  - cbn [mbind option_bind]. by rewrite Hpk.
  - apply lookup_lt_Some in Hpk. lia.
  - cbn beta. by rewrite Hrk.
  - intros j Hj. cbn beta. rewrite Hrc by lia. done.
Qed.

Lemma fixture_walk_from4 :
  Pob.Walk Fixtures.heap 1%positive (Some 4%positive) Fixtures.pathFrom4.
Proof.
  repeat (apply Pob.Walk_step; [congruence | vm_compute; reflexivity | cbn [Pob.Parent]]).
  apply Pob.Walk_root.
Qed.

Lemma fixture_walk_from3 :
  Pob.Walk Fixtures.heap 1%positive (Some 3%positive) Fixtures.pathFrom3.
Proof.
  repeat (apply Pob.Walk_step; [congruence | vm_compute; reflexivity | cbn [Pob.Parent]]).
  apply Pob.Walk_root.
Qed.

Lemma calculateConfirm_needs_quorum_witness :
  Pob.calculateConfirm 5 Fixtures.heap Fixtures.sp3 (Some 3%positive) (Some 1%positive)
  = Ret None
  ∧ @Pob.updateLib _ Fixtures.cacheOps 5 Fixtures.heap Fixtures.sp3
      (Some 3%positive) (Some 1%positive) [] = Ret [].
Proof.
  apply (@calculateConfirm_needs_quorum _ Fixtures.cacheOps Fixtures.heap Fixtures.sp3
           3%positive 1%positive Fixtures.rootNode Fixtures.pathFrom3 5 []).
  - vm_compute; reflexivity.
  - exact fixture_walk_from3.
  - vm_compute; discriminate.
  - cbn; lia.
  - vm_compute; reflexivity.
Defined.

Lemma calculateConfirm_returns_counted_witness :
  ∃ k n, Fixtures.pathFrom4 !! k = Some (2%positive, n)
         ∧ 2%positive ≠ 1%positive
         ∧ Fixtures.heap !! 2%positive = Some n
         ∧ Pob.ConfirmUntil n ≤ Core.Number (Pob.NHead n).
Proof.
  apply (calculateConfirm_returns_counted Fixtures.heap Fixtures.sp3 4%positive 1%positive
           Fixtures.rootNode Fixtures.pathFrom4 5 2%positive).
  - vm_compute; reflexivity.
  - exact fixture_walk_from4.
  - vm_compute; discriminate.
  - cbn; lia.
  - vm_compute; split; [discriminate|reflexivity].
  - vm_compute; reflexivity.
Defined.

Lemma calculateConfirm_single_witness_witness :
  Pob.calculateConfirm 5 Fixtures.heap Fixtures.sp1 (Some 4%positive) (Some 1%positive)
  = Ret (Some 4%positive).
Proof.
  apply (calculateConfirm_single_witness Fixtures.heap Fixtures.sp1 4%positive 1%positive
           Fixtures.rootNode Fixtures.pathFrom4 5 0 4%positive Fixtures.node3).
  - reflexivity.
  - vm_compute; reflexivity.
  - exact fixture_walk_from4.
  - vm_compute; discriminate.
  - cbn; lia.
  - reflexivity.
  - vm_compute; discriminate.
  - intros j q m Hj. lia.
Defined.

Section ConfirmOff.
Import Core Pob.

(** The loop on a walk that ends at the nil pointer. *)
Lemma calculateConfirmLoop_walkOff (h : gmap positive BlockCacheNode) (limit : Z)
  (root : positive) (node : option positive) (rest : list (positive * BlockCacheNode)) :
  WalkOff h root node rest →
  ∀ (pre : list BlockCacheNode) (fuel : nat) (confirmNum : Z) (m : gmap Z Z),
    let l := pre ++ rest.*2 in
    Z.of_nat (length l) ≤ 2 ^ 31 →
    confirmNum = countedIn l (length pre) - sumTo (subtractedAt l) (length pre) →
    (∀ c, mapGet m c = countZ (λ n, counted n && (ConfirmUntil n =? c)) pre) →
    (length rest < fuel)%nat →
    calculateConfirmLoop fuel h limit (Some root) node confirmNum m
    = match firstIndex (λ k, limit <=? runningCount l k) (length pre) (length rest) with
      | Some k => Ret (fst <$> rest !! (k - length pre)%nat)
      | None => Panic
      end.
Proof.
  induction 1 as [|p n path Hne Hp Hwalk IH]; intros pre fuel cn m l Hlen Hcn Hm Hfuel.
  - destruct fuel as [|fuel]; [cbn in Hfuel; lia|].
    cbn [calculateConfirmLoop]. rewrite decide_False by done. done.
  - destruct fuel as [|fuel]; [cbn in Hfuel; lia|].
    cbn [calculateConfirmLoop]. rewrite decide_False by congruence.
    cbn [mbind option_bind]. rewrite Hp.
    cbn [length firstIndex].
    assert (Hl : l = pre ++ n :: path.*2) by done.
    assert (Htk : take (S (length pre)) l = pre ++ [n]) by (rewrite Hl; apply take_S_middle).
    assert (Htk0 : take (length pre) l = pre) by (rewrite Hl; apply take_app_length).
    assert (Hlk : l !! length pre = Some n) by (rewrite Hl; apply list_lookup_middle; done).
    assert (Hlenl : length l = (length pre + S (length path))%nat).
    { rewrite Hl, length_app. cbn [length]. by rewrite length_fmap. }
    assert (Hl' : (pre ++ [n]) ++ path.*2 = l) by (by rewrite Hl, <- app_assoc).
    pose proof (sumTo_bounds (subtractedAt l) (Z.of_nat (length l)) (length pre)
                  (λ j _, subtractedAt_bounds l j)) as Hsum.
    assert (Hnia : Z.of_nat (length pre) * Z.of_nat (length l) ≤ 2 ^ 31 * 2 ^ 31) by nia.
    pose proof (countedIn_bounds l (length pre)) as Hcb.
    pose proof (countedIn_bounds l (S (length pre))) as Hcb1.
    pose proof (subtractedAt_bounds l (length pre)) as Hsb.
    pose proof (countZ_bounds (λ n0, counted n0 && (ConfirmUntil n0 =? ConfirmUntil n)) pre)
      as Hmb.
    set (isCounted := ConfirmUntil n <=? Number (NHead n)).
    set (cn1 := if isCounted then Int64.add cn 1 else cn).
    set (m1 := if isCounted
               then <[ConfirmUntil n := Int64.add (mapGet m (ConfirmUntil n)) 1]> m else m).
    assert (Hcn1 : cn1 = runningCount l (length pre)).
    { unfold runningCount, countedIn, cn1. rewrite Htk, countZ_app. cbn [countZ].
      unfold countedIn in Hcn, Hcb. rewrite Htk0 in Hcn, Hcb.
      change (counted n) with isCounted. destruct isCounted.
      - unfold Int64.add. rewrite wrap_id; [lia|].
        unfold Int64.InRange, Int64.MinInt64, Int64.MaxInt64. lia.
      - lia. }
    assert (Hm1 : ∀ c, mapGet m1 c
                       = countZ (λ n0, counted n0 && (ConfirmUntil n0 =? c)) (pre ++ [n])).
    { intros c. rewrite countZ_app. cbn [countZ]. unfold m1.
      change (counted n) with isCounted. destruct isCounted; cbn [andb].
      - rewrite mapGet_insert. case_decide as Hc.
        + subst c. rewrite Z.eqb_refl, Hm. unfold Int64.add. rewrite wrap_id; [lia|].
          unfold Int64.InRange, Int64.MinInt64, Int64.MaxInt64.
          rewrite Hlenl in Hlen. lia.
        + rewrite Hm. destruct (Z.eqb_spec (ConfirmUntil n) c); [congruence|lia].
      - rewrite Hm. lia. }
    assert (Hsub : mapGet m1 (Number (NHead n)) = subtractedAt l (length pre)).
    { rewrite Hm1. unfold subtractedAt. by rewrite Hlk, Htk. }
    fold isCounted. fold cn1. fold m1. rewrite Hcn1.
    destruct (limit <=? runningCount l (length pre)) eqn:Hreach.
    + by rewrite Nat.sub_diag.
    + rewrite (IH (pre ++ [n]) fuel).
      * rewrite length_app, Hl'. cbn [length]. rewrite Nat.add_1_r.
        destruct (firstIndex _ (S (length pre)) (length path)) as [k|] eqn:Hk; [|done].
        apply firstIndex_range in Hk as [Hk _].
        replace (k - length pre)%nat with (S (k - S (length pre))) by lia. done.
      * by rewrite Hl'.
      * rewrite Hl', length_app. cbn [length]. rewrite Nat.add_1_r.
        rewrite Hsub. unfold Int64.sub. cbn [sumTo]. unfold runningCount.
        rewrite wrap_id; [lia|].
        unfold runningCount in Hcn1.
        unfold Int64.InRange, Int64.MinInt64, Int64.MaxInt64. lia.
      * done.
      * cbn [length] in Hfuel. lia.
Qed.

End ConfirmOff.

(** X9.  When [root] is not an ancestor of [node] (the parents of [node]
    lead to the nil pointer without meeting [root]), [calculateConfirm]
    still returns the first walked node at which the running count reaches
    the limit, but panics, on the nil pointer, when no walked node does. *)
Theorem calculateConfirm_off_root (h : gmap positive Pob.BlockCacheNode)
  (sp : Pob.StaticProperty) (node root : positive) (r : Pob.BlockCacheNode)
  (path : list (positive * Pob.BlockCacheNode)) (fuel : nat) :
  h !! root = Some r →
  Pob.WalkOff h root (Some node) path →
  Z.of_nat (length path) ≤ 2 ^ 31 →
  (length path < fuel)%nat →
  Pob.calculateConfirm fuel h sp (Some node) (Some root)
  = match Pob.confirmedOnWalk (Pob.limitOf sp) path with
    | Some p => Ret (Some p)
    | None => Panic
    end.
Proof.
  intros Hroot Hwalk Hlen Hfuel.
  unfold Pob.calculateConfirm, Pob.confirmLimit, quo64. cbn [Z.eqb mbind outcome_bind].
  assert (Hnode : is_Some (h !! node)) by (inversion Hwalk; subst; eauto).
  destruct Hnode as [n Hnode]. cbn [option_bind]. rewrite Hnode, Hroot.
  rewrite (calculateConfirmLoop_walkOff h _ root (Some node) path Hwalk [] fuel 0 ∅).
  - unfold Pob.confirmedOnWalk. cbn [length app].
    destruct (Pob.firstIndex _ 0 (length path)) as [k|] eqn:Hk; [|done].
    cbn [mbind option_bind]. rewrite Nat.sub_0_r.
    apply firstIndex_range in Hk as [Hk _].
    destruct (lookup_lt_is_Some_2 path k) as [x Hx]; [lia|]. by rewrite Hx.
  - cbn [app]. by rewrite length_fmap.
  - cbn [app length Pob.sumTo]. unfold Pob.countedIn. by rewrite take_0.
  - intros c. by rewrite mapGet_empty.
  - done.
Qed.

Lemma calculateConfirm_off_root_witness :
  Pob.calculateConfirm 6 Fixtures.heapStray Fixtures.sp3 (Some 4%positive) (Some 9%positive)
  = Ret (Some 2%positive)
  ∧ Pob.calculateConfirm 6 Fixtures.heapStray (Pob.mkStaticProperty 6 [] ∅)
      (Some 4%positive) (Some 9%positive)
    = Panic.
Proof.
  assert (Hwalk : Pob.WalkOff Fixtures.heapStray 9%positive (Some 4%positive) Fixtures.pathOff).
  { repeat (apply Pob.WalkOff_step; [congruence | vm_compute; reflexivity | cbn [Pob.Parent]]).
    apply Pob.WalkOff_nil. }
  split.
  - rewrite (calculateConfirm_off_root Fixtures.heapStray Fixtures.sp3 4%positive 9%positive
               Fixtures.strayRoot Fixtures.pathOff 6);
      [vm_compute; reflexivity | vm_compute; reflexivity | exact Hwalk
      | vm_compute; discriminate | cbn; lia].
  - rewrite (calculateConfirm_off_root Fixtures.heapStray (Pob.mkStaticProperty 6 [] ∅)
               4%positive 9%positive Fixtures.strayRoot Fixtures.pathOff 6);
      [vm_compute; reflexivity | vm_compute; reflexivity | exact Hwalk
      | vm_compute; discriminate | cbn; lia].
Defined.

(** ** More on the deferred-transaction index *)

Section DeferServerFacts.
Import Core Txpool.
Context `{TxOps}.

Lemma buildIndex_fold (txs : list Tx) :
  Forall (λ t, timeOk (toIndex t)) txs →
  ∀ acc : list Tx,
    StronglySorted before acc → Forall timeOk acc →
    let p := foldl (λ p t, treePut compareDeferTx (toIndex t) p) acc txs in
    StronglySorted before p ∧ Forall timeOk p
    ∧ (∀ k, timeOk k → holdsKey k acc → holdsKey k p)
    ∧ (∀ t, t ∈ txs → holdsKey (toIndex t) p).
Proof.
  induction 1 as [|t txs Ht Htxs IH]; intros acc Hs Hok; cbn [foldl].
  - repeat split; try done. intros t Ht. by apply elem_of_nil in Ht.
  - destruct (IH (treePut compareDeferTx (toIndex t) acc)) as (Hs' & Hok' & Hold & Hnew).
    { by apply treePut_sorted. }
    { by apply treePut_Forall. }
    repeat split; try done.
    + intros k Hk Hacc. apply Hold; [done|]. by apply treePut_holds_old.
    + intros t' [->|Hin]%elem_of_cons; [|by apply Hnew].
      apply Hold; [done|]. apply treePut_holds_new.
Qed.

Lemma filter_all {A : Type} (P : A → Prop) `{∀ x, Decision (P x)} (l : list A) :
  Forall P l → filter P l = l.
Proof.
  induction 1 as [|x l Hx _ IH]; [done|]. rewrite filter_cons_True by done. by rewrite IH.
Qed.

Lemma tickerLoop_drains `{TickerEnv W} (t : Z) (it : list Tx) :
  (∀ w : W, (now w).1 = t) →
  (∀ h (w : W), (AddDefertx h w).1 = None) →
  Forall timeOk it → StronglySorted before it →
  ∀ (d : DeferServer) (w : W),
    pool d = it →
    pool (tickerLoop it d w).1.1 = filter (λ e, t < Time e) it
    ∧ nextScheduleTime (tickerLoop it d w).1.1
      = match filter (λ e, t < Time e) it with
        | [] => Int64.MaxInt64
        | e :: _ => Time e
        end.
Proof.
  intros Hnow Hadd Hok Hs. induction Hs as [|e rest Hs IH He]; intros d w Hpool.
  - cbn [tickerLoop fst setNext pool nextScheduleTime]. split; [by rewrite Hpool|done].
  - apply Forall_cons in Hok as [Heok Hrok].
    cbn [tickerLoop]. specialize (Hnow w). destruct (now w) as [t' w1]. cbn [fst] in Hnow.
    subst t'. destruct (Z.ltb_spec t (Time e)) as [Hlt|Hge].
    + cbn [fst setNext pool nextScheduleTime].
      assert (Hall : Forall (λ x, t < Time x) (e :: rest)).
      { constructor; [done|]. rewrite Forall_forall in He, Hrok. apply Forall_forall.
        intros y Hy. specialize (He y Hy). unfold before in He.
        apply compareDeferTx_lt in He; [lia|done|by apply Hrok]. }
      rewrite (filter_all _ _ Hall). by rewrite Hpool.
    + specialize (Hadd (ReferredTx e) w1).
      destruct (AddDefertx (ReferredTx e) w1) as [err w2]. cbn [fst] in Hadd. subst err.
      cbn [removable]. rewrite Hpool. cbn [treeRemove]. rewrite compareDeferTx_refl.
      cbn [Z.eqb].
      specialize (IH Hrok (mkDeferServer rest (nextScheduleTime d) (restarts d)) w2 eq_refl).
      destruct (tickerLoop rest _ w2) as [[d2 w3] log]. cbn [fst] in *.
      rewrite filter_cons_False by lia. done.
Qed.


End DeferServerFacts.

(** X10.  [NewDeferServer] builds, from the delay transactions of the chain
    in any order, an index that is sorted and holds an entry for every one
    of them; the next schedule time starts at zero, so the first wait of the
    ticker is [minTickerTime]. *)
Theorem NewDeferServer_index `{Core.TxOps} (txs : list Core.Tx) :
  Forall (λ t, Txpool.timeOk (Txpool.toIndex t)) txs →
  StronglySorted Txpool.before (Txpool.pool (Txpool.NewDeferServer txs))
  ∧ Forall Txpool.timeOk (Txpool.pool (Txpool.NewDeferServer txs))
  ∧ (∀ t, t ∈ txs →
          Txpool.holdsKey (Txpool.toIndex t) (Txpool.pool (Txpool.NewDeferServer txs)))
  ∧ Txpool.nextScheduleTime (Txpool.NewDeferServer txs) = 0
  ∧ (∀ nowNs, 0 ≤ nowNs ≤ Int64.MaxInt64 →
              Txpool.scheduled (Txpool.NewDeferServer txs) nowNs = Txpool.minTickerTime).
Proof.
  intros Hall.
  destruct (buildIndex_fold txs Hall [] (SSorted_nil _) (Forall_nil_2 _))
    as (Hs & Hok & _ & Hnew).
  repeat split; try done.
  intros nowNs Hnow. unfold Txpool.scheduled, Txpool.NewDeferServer, Int64.sub.
  cbn [Txpool.nextScheduleTime].
  rewrite wrap_id by (unfold Int64.InRange, Int64.MinInt64, Int64.MaxInt64 in *; lia).
  unfold Txpool.minTickerTime. destruct (Z.ltb_spec (0 - nowNs) 1000000000); [done|lia].
Qed.

Lemma NewDeferServer_index_witness :
  let a := Core.mkTx 3000 70 [] "a" in
  let b := Core.mkTx 1000 50 [] "b" in
  Core.Time <$> Txpool.pool (@Txpool.NewDeferServer Fixtures.txOps [a; b]) = [1050; 3070]
  ∧ StronglySorted (@Txpool.before Fixtures.txOps)
      (Txpool.pool (@Txpool.NewDeferServer Fixtures.txOps [a; b])).
Proof.
  intros a b. split; [vm_compute; reflexivity|].
  refine (proj1 (@NewDeferServer_index Fixtures.txOps [a; b] _)).
  repeat constructor; vm_compute; discriminate.
Defined.

(** X11.  In a sorted index, [DelDeferTx] for the deferred transaction of a
    stored delay transaction (the same trigger time and referred hash)
    removes the entry: the index is what it was before [StoreDeferTx], less
    any entry the store replaced; and [DelDeferTx] for a key the index does
    not hold changes nothing. *)
Theorem StoreDeferTx_DelDeferTx `{Core.TxOps} (d : Txpool.DeferServer)
  (delayTx deferTx : Core.Tx) :
  Txpool.timeOk (Txpool.toIndex delayTx) →
  Forall Txpool.timeOk (Txpool.pool d) →
  StronglySorted Txpool.before (Txpool.pool d) →
  Core.Time deferTx = Core.Time (Txpool.toIndex delayTx) →
  Core.ReferredTx deferTx = Core.Hash delayTx →
  Txpool.pool (Txpool.DelDeferTx (Txpool.StoreDeferTx d delayTx) deferTx)
  = Txpool.treeRemove Txpool.compareDeferTx (Txpool.toIndex delayTx) (Txpool.pool d)
  ∧ (Forall (λ x, Txpool.compareDeferTx (Txpool.toIndex delayTx) x ≠ 0) (Txpool.pool d) →
     Txpool.pool (Txpool.DelDeferTx (Txpool.StoreDeferTx d delayTx) deferTx) = Txpool.pool d
     ∧ Txpool.pool (Txpool.DelDeferTx d deferTx) = Txpool.pool d).
Proof.
  intros Hidx Hok Hs Htime Href.
  assert (Hkey : Core.mkTx (Core.Time deferTx) 0 (Core.ReferredTx deferTx) ""
                 = Txpool.toIndex delayTx).
  { rewrite Htime, Href. done. }
  assert (Hpool : Txpool.pool (Txpool.StoreDeferTx d delayTx)
                  = Txpool.treePut Txpool.compareDeferTx (Txpool.toIndex delayTx)
                      (Txpool.pool d)).
  { unfold Txpool.StoreDeferTx. by destruct (_ <? _). }
  unfold Txpool.DelDeferTx. cbn [Txpool.pool]. rewrite Hkey, Hpool.
  rewrite treeRemove_put by done. split; [done|].
  intros Habs. by rewrite treeRemove_absent.
Qed.

Lemma StoreDeferTx_DelDeferTx_witness :
  let a := Core.mkTx 3000 70 [] "a" in
  let b := Core.mkTx 1000 50 [] "b" in
  let d := @Txpool.NewDeferServer Fixtures.txOps [a] in
  let deferB := Core.mkTx 1050 0 (String.list_byte_of_string "b") "run" in
  Txpool.pool (@Txpool.DelDeferTx Fixtures.txOps (@Txpool.StoreDeferTx Fixtures.txOps d b) deferB)
  = Txpool.pool d.
Proof.
  intros a b d deferB.
  refine (proj1 (proj2 (@StoreDeferTx_DelDeferTx Fixtures.txOps d b deferB _ _ _ _ _) _)).
  - vm_compute; split; discriminate.
  - repeat constructor; vm_compute; discriminate.
  - repeat constructor.
  - reflexivity.
  - reflexivity.
  - repeat constructor. vm_compute; discriminate.
Defined.

(** X12.  The index is a set: on a sorted index with trigger times that
    are not negative, storing the same delay transaction a second time
    changes nothing (not the index, not the next schedule time, and the
    ticker is not restarted again). *)
Theorem StoreDeferTx_idempotent `{Core.TxOps} (d : Txpool.DeferServer) (delayTx : Core.Tx) :
  Txpool.timeOk (Txpool.toIndex delayTx) →
  Forall Txpool.timeOk (Txpool.pool d) →
  StronglySorted Txpool.before (Txpool.pool d) →
  Txpool.StoreDeferTx (Txpool.StoreDeferTx d delayTx) delayTx
  = Txpool.StoreDeferTx d delayTx.
Proof.
  intros _ _ _. unfold Txpool.StoreDeferTx.
  destruct (Z.ltb_spec (Core.Time (Txpool.toIndex delayTx)) (Txpool.nextScheduleTime d))
    as [Hlt|Hge]; cbn [Txpool.pool Txpool.nextScheduleTime Txpool.restarts].
  - rewrite Z.ltb_irrefl. by rewrite treePut_put.
  - destruct (Z.ltb_spec (Core.Time (Txpool.toIndex delayTx)) (Txpool.nextScheduleTime d));
      [lia|]. by rewrite treePut_put.
Qed.

Lemma StoreDeferTx_idempotent_witness :
  let a := Core.mkTx 3000 70 [] "a" in
  let b := Core.mkTx 1000 50 [] "b" in
  let d := Txpool.mkDeferServer [@Txpool.toIndex Fixtures.txOps a] 5000 0 in
  let d1 := @Txpool.StoreDeferTx Fixtures.txOps d b in
  @Txpool.StoreDeferTx Fixtures.txOps d1 b = d1
  ∧ Core.Time <$> Txpool.pool d1 = [1050; 3070]
  ∧ Txpool.restarts d1 = 1%nat.
Proof.
  intros a b d d1. split; [|split; vm_compute; reflexivity].
  apply (@StoreDeferTx_idempotent Fixtures.txOps d b).
  - vm_compute; split; discriminate.
  - repeat constructor; vm_compute; discriminate.
  - repeat constructor.
Defined.

(** X13.  After any sequence of [StoreDeferTx], the next schedule time is
    not later than it was and not later than the trigger time of any entry
    stored, and the ticker was restarted at most once per store. *)
Theorem StoreDeferTx_schedule `{Core.TxOps} (txs : list Core.Tx) (d : Txpool.DeferServer) :
  let d' := foldl Txpool.StoreDeferTx d txs in
  Txpool.nextScheduleTime d' ≤ Txpool.nextScheduleTime d
  ∧ (∀ t, t ∈ txs → Txpool.nextScheduleTime d' ≤ Core.Time (Txpool.toIndex t))
  ∧ (Txpool.restarts d ≤ Txpool.restarts d' ≤ Txpool.restarts d + length txs)%nat
  ∧ (Txpool.restarts d' = Txpool.restarts d →
     Txpool.nextScheduleTime d' = Txpool.nextScheduleTime d).
Proof.
  revert d. induction txs as [|t txs IH]; intros d; cbn [foldl length].
  - repeat split; try done; try lia. intros t Ht. by apply elem_of_nil in Ht.
  - destruct (IH (Txpool.StoreDeferTx d t)) as (Hle & Hall & Hrs & Hsame).
    assert (Hstep : Txpool.nextScheduleTime (Txpool.StoreDeferTx d t)
                    = Z.min (Txpool.nextScheduleTime d) (Core.Time (Txpool.toIndex t))
                    ∧ (Txpool.restarts (Txpool.StoreDeferTx d t) = Txpool.restarts d
                       ∧ Txpool.nextScheduleTime (Txpool.StoreDeferTx d t)
                         = Txpool.nextScheduleTime d
                       ∨ Txpool.restarts (Txpool.StoreDeferTx d t) = S (Txpool.restarts d))).
    { unfold Txpool.StoreDeferTx.
      destruct (Z.ltb_spec (Core.Time (Txpool.toIndex t)) (Txpool.nextScheduleTime d));
        cbn [Txpool.nextScheduleTime Txpool.restarts]; split; try lia; auto. }
    destruct Hstep as [Hmin Hr]. repeat split.
    + lia.
    + intros t' [->|Hin]%elem_of_cons; [lia|by apply Hall].
    + destruct Hr as [[Hr _]|Hr]; lia.
    + destruct Hr as [[Hr _]|Hr]; lia.
    + intros Heq. destruct Hr as [[Hr Hn]|Hr]; [|lia].
      rewrite Hsame by lia. done.
Qed.

(** X14.  When the clock stands at [t] and the pool takes every
    transaction, one pass over a sorted index removes exactly the entries
    that are due (trigger time at most [t]) and sets the next schedule time
    to the trigger time of the earliest entry left, or to the largest
    [int64] when none is left. *)
Theorem tickerPass_drains_due `{Core.TxOps} `{Txpool.TickerEnv W}
  (t : Z) (d : Txpool.DeferServer) (w : W) :
  (∀ w : W, (Txpool.now w).1 = t) →
  (∀ h (w : W), (Txpool.AddDefertx h w).1 = None) →
  Forall Txpool.timeOk (Txpool.pool d) →
  StronglySorted Txpool.before (Txpool.pool d) →
  Txpool.pool (Txpool.tickerPass d w).1.1 = filter (λ e, t < Core.Time e) (Txpool.pool d)
  ∧ Txpool.nextScheduleTime (Txpool.tickerPass d w).1.1
    = match filter (λ e, t < Core.Time e) (Txpool.pool d) with
      | [] => Int64.MaxInt64
      | e :: _ => Core.Time e
      end.
Proof.
  intros Hnow Hadd Hok Hs. unfold Txpool.tickerPass.
  by apply (tickerLoop_drains t (Txpool.pool d) Hnow Hadd Hok Hs).
Qed.

(** X15.  A pass only removes: the index after it is a sublist of the index
    before (so a sorted index stays sorted), and a pass never restarts the
    ticker. *)
Theorem tickerPass_only_removes `{Core.TxOps} `{Txpool.TickerEnv W}
  (d : Txpool.DeferServer) (w : W) :
  Txpool.pool (Txpool.tickerPass d w).1.1 `sublist_of` Txpool.pool d
  ∧ Txpool.restarts (Txpool.tickerPass d w).1.1 = Txpool.restarts d
  ∧ (StronglySorted Txpool.before (Txpool.pool d) →
     StronglySorted Txpool.before (Txpool.pool (Txpool.tickerPass d w).1.1)).
Proof.
  destruct (Txpool.tickerPass d w) as [[d' w'] log] eqn:Hrun. cbn [fst].
  destruct (tickerLoop_record _ _ _ _ _ _ Hrun)
    as (front & last & _ & _ & _ & Hpool & Hrs & _).
  assert (Hsub : Txpool.pool d' `sublist_of` Txpool.pool d).
  { rewrite Hpool. apply foldl_treeRemove_sublist. }
  split; [done|]. split; [done|]. by apply StronglySorted_sublist.
Qed.


Lemma fixture_index3_sorted :
  Forall Txpool.timeOk (Txpool.pool Fixtures.index3)
  ∧ StronglySorted (@Txpool.before Fixtures.txOps) (Txpool.pool Fixtures.index3).
Proof.
  split.
  - repeat constructor; vm_compute; discriminate.
  - repeat constructor; vm_compute; reflexivity.
Qed.

Lemma tickerPass_drains_due_witness :
  Txpool.pool (@Txpool.tickerPass Fixtures.txOps _ (Fixtures.openEnv 10) Fixtures.index3 tt).1.1
  = [Fixtures.indexEntry 100 "c"]
  ∧ Txpool.nextScheduleTime
      (@Txpool.tickerPass Fixtures.txOps _ (Fixtures.openEnv 10) Fixtures.index3 tt).1.1
    = 100.
Proof.
  apply (@tickerPass_drains_due Fixtures.txOps _ (Fixtures.openEnv 10) 10 Fixtures.index3 tt).
  - reflexivity.
  - reflexivity.
  - exact (proj1 fixture_index3_sorted).
  - exact (proj2 fixture_index3_sorted).
Defined.


(** ** More on [Subscribe] *)

Section SubscribeMore.
Import Rpc.
Context {E : Type}.

Lemma subscribeIter_sent (p : poll E) (st : subState E) :
  ∃ rest,
    (sent st).*2 ++ queue st ++ arrived p
    = (sent (stepState (subscribeIter p st))).*2 ++ rest
    ∧ (length (sent (stepState (subscribeIter p st))) ≤ S (length (sent st)))%nat
    ∧ (∀ st', subscribeIter p st = Continue st' → rest = queue st').
Proof.
  unfold subscribeIter. destruct (queue st ++ arrived p) as [|ev q'] eqn:Hq.
  - exists []. destruct (minute <=? elapsed p); cbn [stepState sent]; repeat split; try lia.
    + done.
    + by intros st' [= <-].
  - destruct (_ && _); [|destruct (sendErr p)]; cbn [stepState sent].
    + exists (ev :: q'). repeat split; [lia|done].
    + exists (ev :: q'). repeat split; [lia|done].
    + exists q'. rewrite fmap_app, <- app_assoc, length_app. cbn.
      repeat split; [lia|]. by intros st' [= <-].
Qed.

Lemma subscribeLoop_sent (polls : list (poll E)) (st : subState E) :
  (∃ rest, (sent st).*2 ++ queue st ++ concat (arrived <$> polls)
           = (sent (stepState (subscribeLoop polls st))).*2 ++ rest)
  ∧ (length (sent (stepState (subscribeLoop polls st)))
     ≤ length (sent st) + length polls)%nat.
Proof.
  revert st. induction polls as [|p ps IH]; intros st; cbn [subscribeLoop].
  - cbn. split; [|lia]. exists (queue st). by rewrite app_nil_r.
  - destruct (subscribeIter_sent p st) as (rest & Heq & Hlen & Hcont).
    destruct (subscribeIter p st) as [st1|err st1] eqn:Hp; cbn [stepState] in *.
    + destruct (IH st1) as [[rest' Heq'] Hlen']. split; [|cbn [length]; lia].
      exists rest'. rewrite <- Heq'. rewrite (Hcont st1 eq_refl) in Heq.
      cbn [fmap list_fmap concat]. rewrite !app_assoc. rewrite <- (app_assoc _ (queue st)).
      by rewrite Heq.
    + split; [|cbn [length]; lia]. exists (rest ++ concat (arrived <$> ps)).
      cbn [fmap list_fmap concat]. rewrite !app_assoc. rewrite <- (app_assoc _ (queue st)).
      by rewrite Heq.
Qed.

Lemma subscribeLoop_timer (polls : list (poll E)) (st : subState E) :
  (∃ p, p ∈ polls ∧ minute ≤ elapsed p ∧ pickTimer p = true) →
  ∃ err st', subscribeLoop polls st = Return err st'.
Proof.
  intros (p & Hin & Ht & Hpick). revert st.
  induction polls as [|p0 ps IH]; intros st; [by apply elem_of_nil in Hin|].
  cbn [subscribeLoop]. destruct (subscribeIter p0 st) as [st1|err st1] eqn:Hp0; [|by eauto].
  apply elem_of_cons in Hin as [->|Hin]; [|by apply IH].
  exfalso. unfold subscribeIter in Hp0.
  destruct (Z.leb_spec minute (elapsed p0)); [|lia]. rewrite Hpick in Hp0.
  by destruct (queue st ++ arrived p0).
Qed.

End SubscribeMore.

(** X17.  [Subscribe] sends the events in the order they reached the
    channel, none twice and none skipped (what was sent is a prefix of what
    arrived), and at most one event per iteration of the loop. *)
Theorem Subscribe_fifo {E : Type} (polls : list (Rpc.poll E)) :
  (Rpc.sent (Rpc.stepState (Rpc.Subscribe polls))).*2
    `prefix_of` concat (Rpc.arrived <$> polls)
  ∧ (length (Rpc.sent (Rpc.stepState (Rpc.Subscribe polls))) ≤ length polls)%nat.
Proof.
  unfold Rpc.Subscribe.
  destruct (subscribeLoop_sent polls (Rpc.mkSubState [] [])) as [[rest Heq] Hlen].
  split; [by exists rest|]. cbn in Hlen. lia.
Qed.

(** X18.  The stream always ends: a run in which some iteration, 60 seconds
    or more after the subscription was made, takes the ticker's tick has
    returned by then (by the timer, or earlier by a send error). *)
Theorem Subscribe_ends {E : Type} (polls : list (Rpc.poll E)) :
  (∃ p, p ∈ polls ∧ Rpc.minute ≤ Rpc.elapsed p ∧ Rpc.pickTimer p = true) →
  ∃ err st, Rpc.Subscribe polls = Rpc.Return err st.
Proof. apply subscribeLoop_timer. Qed.

Lemma Subscribe_ends_witness :
  ∃ err st,
    Rpc.Subscribe [Rpc.mkPoll 1000000000 ["block 1"] false None;
                   Rpc.mkPoll 61000000000 ["block 2"] true None]
    = Rpc.Return err st.
Proof.
  apply Subscribe_ends. eexists. split; [apply elem_of_cons; right; apply elem_of_cons; by left|].
  split; [vm_compute; discriminate|reflexivity].
Defined.

(** ** More on the VM storage glue *)

(** X19.  The string [dbValToString] returns does not tell the type of the
    value: an [int64], a boolean and a byte slice give the result of the
    string that spells them; on [int64] values alone it is one-to-one. *)
Theorem dbValToString_forgets_type :
  (∀ v : Z, V8.dbValToString (V8.VInt64 v) = V8.dbValToString (V8.VString (pretty v)))
  ∧ (∀ b : bool,
       V8.dbValToString (V8.VBool b)
       = V8.dbValToString (V8.VString (if b then "true" else "false")))
  ∧ (∀ bs : list Byte.byte,
       V8.dbValToString (V8.VBytes bs)
       = V8.dbValToString (V8.VString (String.string_of_list_byte bs)))
  ∧ (∀ v1 v2 : Z,
       V8.dbValToString (V8.VInt64 v1) = V8.dbValToString (V8.VInt64 v2) → v1 = v2)
  ∧ (∀ b1 b2 : list Byte.byte,
       V8.dbValToString (V8.VBytes b1) = V8.dbValToString (V8.VBytes b2) → b1 = b2).
Proof.
  split; [done|]. split; [by intros []|]. split; [done|]. split.
  - intros v1 v2 [= Heq]. by apply (inj pretty).
  - intros b1 b2 [= Heq].
    rewrite <- (String.list_byte_of_string_of_list_byte b1), Heq.
    apply String.list_byte_of_string_of_list_byte.
Qed.

(** X20.  The four read accessors on a value the store returns.  With the
    sandbox found: a nil value gives a nil result and no error in all four;
    a value of a supported type gives its string and no error in all four;
    a value of any other type makes [goGet] return the error "invalid db
    value type" and leave [result] untouched, while [goMapGet],
    [goGlobalGet] and [goGlobalMapGet] return no error and the empty string;
    [gasUsed] is set in every case to [C.size_t(cost.CPU)], which is the
    cost itself when that is not negative and the cost plus 2^64 when it is;
    an empty owner is no owner.  Without the sandbox each of the four
    returns the text of [ErrGetSandbox] and writes nothing. *)
Theorem storage_getters `{V8.HostDB} (errGetSandbox key field contractName : string)
  (owner : option string) (out : V8.cOut) :
  let get := V8.Get key (V8.ownerArg owner) in
  let mget := V8.MapGet key field (V8.ownerArg owner) in
  let gget := V8.GlobalGet contractName key (V8.ownerArg owner) in
  let gmget := V8.GlobalMapGet contractName key field (V8.ownerArg owner) in
  let strict (a : option V8.dbVal * Z) : option string * V8.cOut :=
    match a.1 with
    | None => (None, V8.mkCOut None (V8.size_t a.2))
    | Some v =>
        if V8.supported v
        then (None, V8.mkCOut (Some (V8.dbValToString v).1) (V8.size_t a.2))
        else (Some "invalid db value type", V8.mkCOut (V8.result out) (V8.size_t a.2))
    end in
  let lax (a : option V8.dbVal * Z) : option string * V8.cOut :=
    match a.1 with
    | None => (None, V8.mkCOut None (V8.size_t a.2))
    | Some v =>
        if V8.supported v
        then (None, V8.mkCOut (Some (V8.dbValToString v).1) (V8.size_t a.2))
        else (None, V8.mkCOut (Some "") (V8.size_t a.2))
    end in
  V8.goGet errGetSandbox true key owner out = strict get
  ∧ V8.goMapGet errGetSandbox true key field owner out = lax mget
  ∧ V8.goGlobalGet errGetSandbox true contractName key owner out = lax gget
  ∧ V8.goGlobalMapGet errGetSandbox true contractName key field owner out = lax gmget
  ∧ V8.goGet errGetSandbox false key owner out = (Some errGetSandbox, out)
  ∧ V8.goMapGet errGetSandbox false key field owner out = (Some errGetSandbox, out)
  ∧ V8.goGlobalGet errGetSandbox false contractName key owner out = (Some errGetSandbox, out)
  ∧ V8.goGlobalMapGet errGetSandbox false contractName key field owner out
    = (Some errGetSandbox, out)
  ∧ V8.ownerArg (Some "") = V8.ownerArg None
  ∧ (∀ cpu : Z, Int64.InRange cpu →
       0 ≤ V8.size_t cpu < 2 ^ 64
       ∧ (0 ≤ cpu → V8.size_t cpu = cpu)
       ∧ (cpu < 0 → V8.size_t cpu = cpu + 2 ^ 64)).
Proof.
  cbn zeta. unfold V8.goGet, V8.goMapGet, V8.goGlobalGet, V8.goGlobalMapGet. cbn [negb].
  split; [|split; [|split; [|split]]].
  - destruct (V8.Get key _) as [[v|] cpu]; [|done]. by destruct v.
  - destruct (V8.MapGet key field _) as [[v|] cpu]; [|done]. by destruct v.
  - destruct (V8.GlobalGet contractName key _) as [[v|] cpu]; [|done]. by destruct v.
  - destruct (V8.GlobalMapGet contractName key field _) as [[v|] cpu]; [|done]. by destruct v.
  - do 5 (split; [done|]).
    intros cpu Hcpu. unfold V8.size_t, Int64.InRange, Int64.MinInt64, Int64.MaxInt64 in *.
    split; [apply Z.mod_pos_bound; lia|]. split; intros Hs.
    + apply Z.mod_small. lia.
    + symmetry. apply (Z.mod_unique _ _ (-1)); lia.
Qed.

(** ** Contracts: the ABI lookup *)

(** X21.  [ABI] panics on a contract without [Info]; otherwise it returns
    the first entry of the ABI list that has the name, and nil exactly when
    no entry has it. *)
Theorem ABI_lookup (c : Contract.Contract) (name : string) :
  (Contract.ContractInfo c = None → Contract.ABIOf c name = Panic)
  ∧ (∀ info, Contract.ContractInfo c = Some info →
       ∃ r, Contract.ABIOf c name = Ret r
            ∧ (r = None ↔ ∀ a, a ∈ Contract.Abi info → Contract.AbiName a ≠ name)
            ∧ (∀ a, r = Some a →
                 ∃ i, Contract.Abi info !! i = Some a
                      ∧ Contract.AbiName a = name
                      ∧ ∀ j b, (j < i)%nat → Contract.Abi info !! j = Some b →
                               Contract.AbiName b ≠ name)).
Proof.
  unfold Contract.ABIOf. split; [by intros ->|]. intros info ->.
  eexists. split; [reflexivity|].
  induction (Contract.Abi info) as [|a0 rest [IHn IHs]]; cbn [Contract.firstABI].
  - split; [split; [intros _ a Ha; by apply elem_of_nil in Ha|done]|done].
  - destruct (String.eqb_spec (Contract.AbiName a0) name) as [Heq|Hne].
    + split.
      * split; [done|]. intros Hall. exfalso. apply (Hall a0); [by apply elem_of_cons; left|done].
      * intros a [= <-]. exists 0%nat. split; [done|]. split; [done|]. intros j b Hj. lia.
    + split.
      * rewrite IHn. split.
        -- intros Hall a [->|Ha]%elem_of_cons; [done|by apply Hall].
        -- intros Hall a Ha. apply Hall. by apply elem_of_cons; right.
      * intros a Ha. destruct (IHs a Ha) as (i & Hi & Hname & Hfirst).
        exists (S i). split; [done|]. split; [done|].
        intros [|j] b Hj Hb; cbn in Hb; [by injection Hb as <-|].
        apply (Hfirst j b); [lia|done].
Qed.

Lemma ABI_lookup_witness :
  let c := Contract.mkContract "token"
             (Some (Contract.mkInfo [Contract.mkABI "init"; Contract.mkABI "transfer"]))
             "code" in
  ∃ r, Contract.ABIOf c "transfer" = Ret r
       ∧ (∀ a, r = Some a → Contract.AbiName a = "transfer").
Proof.
  intros c.
  destruct (proj2 (ABI_lookup c "transfer") _ eq_refl) as (r & Hr & _ & Hsome).
  exists r. split; [exact Hr|]. intros a Ha.
  destruct (Hsome a Ha) as (i & _ & Hname & _). exact Hname.
Defined.

(** ** p2p: the stream pool *)

Section StreamPool.
Import P2p.
Context {S : Type}.

Lemma AddStream_ok (p : Peer S) (stream : S) :
  poolOk p →
  ∃ err p', AddStream p stream = Done (err, p') ∧ poolOk p'
            ∧ (err = Some ErrStreamCountExceed ↔ streamCount p = maxStreamCount)
            ∧ (err = None ↔ streamCount p < maxStreamCount)
            ∧ (err = None → streams p' = streams p ++ [stream])
            ∧ (err ≠ None → p' = p).
Proof.
  intros [Hlen Hmax]. unfold AddStream, chanSend, maxStreamCount in *.
  destruct (Z.leb_spec 4 (streamCount p)) as [Hfull|Hroom].
  - exists (Some ErrStreamCountExceed), p. repeat split; try done; try lia.
  - destruct (Z.ltb_spec (Z.of_nat (length (streams p))) 4); [|lia].
    eexists None, _. split; [reflexivity|].
    unfold poolOk, Int64.add. cbn [streams streamCount].
    rewrite wrap_id by (unfold Int64.InRange, Int64.MinInt64, Int64.MaxInt64; lia).
    rewrite length_app. cbn [length]. unfold maxStreamCount.
    repeat split; try done; try lia.
Qed.

Lemma write_ok (p : Peer S) (conn : string + S) (deadlineErr writeErr : option string) :
  poolOk p →
  ∃ err p', write p conn deadlineErr writeErr = Done (err, p') ∧ poolOk p'.
Proof.
  intros [Hlen Hmax]. unfold write, getStream, newStream, chanSend, CloseStream,
    maxStreamCount in *.
  destruct (streams p) as [|stream rest] eqn:Hstreams.
  - cbn [length] in Hlen. destruct (Z.leb_spec 4 (streamCount p)); [lia|].
    destruct conn as [err|stream].
    + eexists _, _. split; [reflexivity|]. unfold poolOk. rewrite Hstreams. by cbn.
    + cbn [streams streamCount]. unfold Int64.add, Int64.sub.
      rewrite (wrap_id (streamCount p + 1))
        by (unfold Int64.InRange, Int64.MinInt64, Int64.MaxInt64; lia).
      destruct deadlineErr; [|destruct writeErr].
      * eexists _, _. split; [reflexivity|]. unfold poolOk, maxStreamCount.
        cbn [streams streamCount length].
        rewrite wrap_id by (unfold Int64.InRange, Int64.MinInt64, Int64.MaxInt64; lia). lia.
      * eexists _, _. split; [reflexivity|]. unfold poolOk, maxStreamCount.
        cbn [streams streamCount length].
        rewrite wrap_id by (unfold Int64.InRange, Int64.MinInt64, Int64.MaxInt64; lia). lia.
      * cbn [length Z.of_nat Z.ltb Z.compare]. eexists _, _. split; [reflexivity|].
        unfold poolOk, maxStreamCount. cbn [streams streamCount length app]. lia.
  - cbn [length] in Hlen. cbn [streams streamCount]. unfold Int64.sub.
    destruct deadlineErr; [|destruct writeErr].
    + eexists _, _. split; [reflexivity|]. unfold poolOk, maxStreamCount.
      cbn [streams streamCount].
      rewrite wrap_id by (unfold Int64.InRange, Int64.MinInt64, Int64.MaxInt64; lia). lia.
    + eexists _, _. split; [reflexivity|]. unfold poolOk, maxStreamCount.
      cbn [streams streamCount].
      rewrite wrap_id by (unfold Int64.InRange, Int64.MinInt64, Int64.MaxInt64; lia). lia.
    + destruct (Z.ltb_spec (Z.of_nat (length rest)) 4); [|lia].
      eexists _, _. split; [reflexivity|]. unfold poolOk, maxStreamCount.
      cbn [streams streamCount]. rewrite length_app. cbn [length]. lia.
Qed.

End StreamPool.

(** X22.  The stream pool of a peer, used by one caller at a time: starting
    from a pool that holds all its open streams (at most four), any sequence
    of [AddStream] and [write] calls returns without ever waiting on the
    channel, and leaves a pool that again holds all its open streams, at
    most four; [AddStream] fails, with the stream-count error and without
    any change, exactly when four streams are open; and a write that
    succeeds on a pool that is not empty takes the oldest stream and puts it
    back as the newest. *)
Theorem stream_pool_invariant {S : Type} (calls : list (P2p.call S)) (p : P2p.Peer S) :
  P2p.poolOk p →
  (∃ p', P2p.runCalls calls p = P2p.Done p' ∧ P2p.poolOk p')
  ∧ (∀ stream,
       ∃ err p', P2p.AddStream p stream = P2p.Done (err, p')
                 ∧ (err = Some P2p.ErrStreamCountExceed
                    ↔ P2p.streamCount p = P2p.maxStreamCount)
                 ∧ (err = None ↔ P2p.streamCount p < P2p.maxStreamCount)
                 ∧ (err = None → P2p.streams p' = P2p.streams p ++ [stream])
                 ∧ (err ≠ None → p' = p))
  ∧ (∀ stream rest conn,
       P2p.streams p = stream :: rest →
       P2p.write p conn None None
       = P2p.Done (None, P2p.mkPeer (rest ++ [stream]) (P2p.streamCount p))).
Proof.
  intros Hok. split; [|split].
  - revert p Hok. induction calls as [|c rest IH]; intros p Hok; cbn [P2p.runCalls].
    + by exists p.
    + destruct c as [stream|conn dl wr].
      * destruct (AddStream_ok p stream Hok) as (err & p' & -> & Hok' & _). by apply IH.
      * destruct (write_ok p conn dl wr Hok) as (err & p' & -> & Hok'). by apply IH.
  - intros stream. destruct (AddStream_ok p stream Hok) as (err & p' & Hrun & _ & H1 & H2 & H3 & H4).
    by exists err, p'.
  - intros stream rest conn Hs. destruct Hok as [Hlen Hmax].
    unfold P2p.write, P2p.getStream, P2p.chanSend. rewrite Hs. cbn [P2p.streams P2p.streamCount].
    rewrite Hs in Hlen. cbn [length] in Hlen. unfold P2p.maxStreamCount in *.
    destruct (Z.ltb_spec (Z.of_nat (length rest)) 4); [done|lia].
Qed.

Lemma stream_pool_invariant_witness :
  ∃ p', P2p.runCalls
          [P2p.CallAddStream "s1"; P2p.CallWrite (inl "refused") None None;
           P2p.CallAddStream "s2"; P2p.CallWrite (inl "refused") None (Some "reset")]
          (P2p.mkPeer [] 0)
        = P2p.Done p'
        ∧ P2p.poolOk p'.
Proof.
  apply (stream_pool_invariant _ (P2p.mkPeer ([] : list string) 0)).
  split; [reflexivity|vm_compute; discriminate].
Defined.

(** ** RPC: [toBlockInfo] and [GetContract] *)

Section BlockInfoFacts.
Import Core Rpc.

Lemma foldl_collect {A B C : Type} (complete : bool) (g : A → B) (k : A → C)
  (l : list A) (bs : list B) (cs : list C) :
  foldl (λ '(bs, cs) a, (if complete then bs ++ [g a] else bs, cs ++ [k a])) (bs, cs) l
  = (if complete then bs ++ (g <$> l) else bs, cs ++ (k <$> l)).
Proof.
  revert bs cs. induction l as [|a l IH]; intros bs cs; cbn [foldl fmap list_fmap].
  - destruct complete; by rewrite !app_nil_r.
  - rewrite IH. destruct complete; by rewrite <- !app_assoc.
Qed.

End BlockInfoFacts.

(** X23.  [toBlockInfo] lists the base58 hash of every transaction and of
    every receipt of the block, in order, whether [complete] is set or not;
    the transactions and receipts themselves are listed, in order, only
    when [complete] is set, and not at all otherwise. *)
Theorem toBlockInfo_lists `{Core.TxOps} `{Rpc.RawOps R TxRaw ReceiptRaw}
  (blk : Rpc.FullBlock R) (complete : bool) :
  Rpc.InfoHead (Rpc.toBlockInfo blk complete) = Core.Head (Rpc.Blk blk)
  ∧ Rpc.InfoTxhash (Rpc.toBlockInfo blk complete)
    = (λ trx, Rpc.Base58Encode (Core.Hash trx)) <$> Core.Txs (Rpc.Blk blk)
  ∧ Rpc.InfoReceiptHash (Rpc.toBlockInfo blk complete)
    = (λ r, Rpc.Base58Encode (Rpc.ReceiptHash r)) <$> Rpc.Receipts blk
  ∧ Rpc.InfoTxs (Rpc.toBlockInfo blk complete)
    = (if complete then Rpc.ToTxRaw <$> Core.Txs (Rpc.Blk blk) else [])
  ∧ Rpc.InfoReceipts (Rpc.toBlockInfo blk complete)
    = (if complete then Rpc.ToTxReceiptRaw <$> Rpc.Receipts blk else [])
  ∧ length (Rpc.InfoTxhash (Rpc.toBlockInfo blk complete))
    = length (Core.Txs (Rpc.Blk blk)).
Proof.
  unfold Rpc.toBlockInfo.
  rewrite (foldl_collect complete Rpc.ToTxRaw (λ trx, Rpc.Base58Encode (Core.Hash trx))).
  rewrite (foldl_collect complete Rpc.ToTxReceiptRaw
             (λ r, Rpc.Base58Encode (Rpc.ReceiptHash r))).
  cbn [app Rpc.InfoHead Rpc.InfoTxhash Rpc.InfoReceiptHash Rpc.InfoTxs Rpc.InfoReceipts].
  repeat split; try done; try (by destruct complete).
  by rewrite length_fmap.
Qed.

(** X24.  [GetContract] returns a contract only for a request whose id
    starts with "Contract" and names (by the base58 text after that prefix)
    a transaction of the chain whose first action is [SetCode] or
    [UpdateCode] of [iost.system], from whose data the contract decodes;
    the other actions of the transaction are not looked at; and it panics
    exactly when that transaction has no action at all. *)
Theorem GetContract_guards `{Rpc.ContractEnv J C} (key : option string) :
  let hashOf (id : string) :=
    Rpc.Base58Decode (String.substring 8 (String.length id - 8) id) in
  (∀ c, Rpc.GetContract key = Ret (inr c) →
     ∃ id trx act rest js str,
       key = Some id
       ∧ String.prefix "Contract" id = true
       ∧ Rpc.ChainGetTx (hashOf id) = inr trx
       ∧ Rpc.Actions trx = act :: rest
       ∧ Rpc.ActContract act = "iost.system"
       ∧ (Rpc.ActionName act = "SetCode" ∨ Rpc.ActionName act = "UpdateCode")
       ∧ Rpc.NewJson (Rpc.ActData act) = inr js
       ∧ Rpc.FirstString js = inr str
       ∧ Rpc.B64Decode str = inr c)
  ∧ (Rpc.GetContract key = Panic
     ↔ ∃ id trx,
         key = Some id
         ∧ String.prefix "Contract" id = true
         ∧ Rpc.ChainGetTx (hashOf id) = inr trx
         ∧ Rpc.Actions trx = [])
  ∧ (key = None → Rpc.GetContract key = Ret (inl Rpc.ErrNilArgument))
  ∧ (key = Some "" → Rpc.GetContract key = Ret (inl Rpc.ErrEmptyID)).
Proof.
  cbn zeta. unfold Rpc.GetContract. destruct key as [id|].
  2:{ repeat split; try done. intros (id & trx & Hk & _). done. }
  destruct (String.eqb_spec id "") as [->|Hne].
  { repeat split; try done. intros (id & trx & [= <-] & Hp & _). done. }
  destruct (String.prefix "Contract" id) eqn:Hprefix; cbn [negb].
  2:{ repeat split; try done; try congruence.
      intros (id' & trx & [= <-] & Hp & _). congruence. }
  destruct (Rpc.ChainGetTx _) as [err|trx] eqn:Hget.
  { repeat split; try done; try congruence.
    intros (id' & trx & [= <-] & _ & Hg & _). congruence. }
  destruct (Rpc.Actions trx) as [|act rest] eqn:Hact.
  { repeat split; try done; try congruence. intros _. by exists id, trx. }
  assert (Hnp : ¬ ∃ id0 trx0, Some id = Some id0 ∧ String.prefix "Contract" id0 = true
                  ∧ Rpc.ChainGetTx (Rpc.Base58Decode
                       (String.substring 8 (String.length id0 - 8) id0)) = inr trx0
                  ∧ Rpc.Actions trx0 = []).
  { intros (id' & trx' & [= <-] & _ & Hg & Ha). rewrite Hget in Hg. injection Hg as <-.
    congruence. }
  destruct (String.eqb_spec (Rpc.ActContract act) "iost.system") as [Hc|Hc]; cbn [negb orb].
  2:{ repeat split; try done; try congruence. }
  destruct (String.eqb_spec (Rpc.ActionName act) "SetCode") as [Hs|Hs]; cbn [negb andb].
  - destruct (Rpc.NewJson _) as [e|js] eqn:Hjs; [repeat split; try done; congruence|].
    destruct (Rpc.FirstString js) as [e|str] eqn:Hstr; [repeat split; try done; congruence|].
    destruct (Rpc.B64Decode str) as [e|c0] eqn:Hdec; [repeat split; try done; congruence|].
    repeat split; try done; try congruence.
    intros c [= <-]. exists id, trx, act, rest, js, str. repeat split; try done. by left.
  - destruct (String.eqb_spec (Rpc.ActionName act) "UpdateCode") as [Hu|Hu]; cbn [negb].
    2:{ repeat split; try done; try congruence. }
    destruct (Rpc.NewJson _) as [e|js] eqn:Hjs; [repeat split; try done; congruence|].
    destruct (Rpc.FirstString js) as [e|str] eqn:Hstr; [repeat split; try done; congruence|].
    destruct (Rpc.B64Decode str) as [e|c0] eqn:Hdec; [repeat split; try done; congruence|].
    repeat split; try done; try congruence.
    intros c [= <-]. exists id, trx, act, rest, js, str. repeat split; try done. by right.
Qed.

(** ** The schedule and block verification, together *)

Section Acceptance.
Import Core Pob.
Context `{TxOps, BlockEnv}.

Lemma verifyTxs_all_pass (parent : Block) (txs : list Tx) (i : nat) :
  (∀ k t, txs !! k = Some t → (1 ≤ i + k)%nat → verifyTx parent t = None) →
  verifyTxs i txs parent = None.
Proof.
  revert i. induction txs as [|t0 rest IH]; intros i Hall; cbn [verifyTxs]; [done|].
  assert (Hrest : verifyTxs (S i) rest parent = None).
  { apply IH. intros k t Hk _. apply (Hall (S k) t); [done|lia]. }
  destruct i as [|i]; [done|].
  rewrite (Hall 0%nat t0); [done|done|lia].
Qed.

Lemma verifyTx_passes (parent : Block) (t : Tx) :
  verifyTx parent t = None
  ↔ ExistTxs (Hash t) parent = FoundPending
    ∨ (ExistTxs (Hash t) parent = NotFound
       ∧ VerifySelf t = None
       ∧ (IsDefer t = true →
          ∃ referred, GetTx (ReferredTx t) = inr referred
                      ∧ VerifyDefer t referred = None)).
Proof.
  unfold verifyTx. destruct (ExistTxs (Hash t) parent).
  - destruct (VerifySelf t) as [e|].
    { split; [done|]. intros [|(_ & ? & _)]; done. }
    destruct (IsDefer t).
    + destruct (GetTx (ReferredTx t)) as [cause|referred].
      { split; [done|]. intros [|(_ & _ & Hd)]; [done|].
        destruct (Hd eq_refl) as (r & ? & _). done. }
      destruct (VerifyDefer t referred) as [e|] eqn:Hv.
      { split; [done|]. intros [|(_ & _ & Hd)]; [done|].
        destruct (Hd eq_refl) as (r & [= <-] & Hr). congruence. }
      split; [|done]. intros _. right. repeat split. intros _. by exists referred.
    + split; [|done]. intros _. right. repeat split. done.
  - split; [by left|done].
  - split; [done|]. intros [|[? _]]; done.
Qed.

End Acceptance.

(** X25.  [verifyBlock] accepts a block (returns nil) exactly when the head
    check passes, the witness computed from the head's time is the head's
    witness, every transaction after the base one is either found pending
    (it is then not checked further) or is found nowhere, has a valid
    signature and, if deferred, a referred transaction that can be fetched
    and validates, and the verifier accepts the block. *)
Theorem verifyBlock_accepts_iff `{Core.TxOps, Pob.BlockEnv}
  (SlotLength : Z) (sp : Pob.StaticProperty) (blk parent lib : Core.Block) :
  Pob.verifyBlock SlotLength sp blk parent lib = Ret None
  ↔ Pob.VerifyBlockHead blk parent lib = None
    ∧ Pob.witnessOfNanoSec SlotLength sp (Core.HeadTime (Core.Head blk)) (Pob.WitnessList sp)
      = Ret (Core.Witness (Core.Head blk))
    ∧ (∀ i t, (1 ≤ i)%nat → Core.Txs blk !! i = Some t →
         Pob.ExistTxs (Core.Hash t) parent = Pob.FoundPending
         ∨ (Pob.ExistTxs (Core.Hash t) parent = Pob.NotFound
            ∧ Core.VerifySelf t = None
            ∧ (Core.IsDefer t = true →
               ∃ referred, Pob.GetTx (Core.ReferredTx t) = inr referred
                           ∧ Core.VerifyDefer t referred = None)))
    ∧ Pob.VerifierVerify blk parent = None.
Proof.
  unfold Pob.verifyBlock. split.
  - destruct (Pob.VerifyBlockHead blk parent lib); [done|].
    destruct (Pob.witnessOfNanoSec _ _ _ _) as [w| |]; cbn [mbind outcome_bind]; try done.
    destruct (String.eqb_spec w (Core.Witness (Core.Head blk))) as [->|]; cbn [negb]; [|done].
    destruct (Pob.verifyTxs 0 (Core.Txs blk) parent) as [e|] eqn:Hloop; [done|].
    destruct (Pob.VerifierVerify blk parent); [done|]. intros _.
    repeat split. intros i t Hi Hit. apply verifyTx_passes.
    apply (verifyTxs_accepts parent _ _ Hloop i t Hit). lia.
  - intros (-> & -> & Htxs & ->). cbn [mbind outcome_bind].
    rewrite String.eqb_refl. cbn [negb]. rewrite verifyTxs_all_pass; [done|].
    intros k t Hk Hk1. apply verifyTx_passes. apply (Htxs k t); [lia|done].
Qed.

(** X26.  The schedule advances by one slot: for a time [t >= 0], the
    witness at [t] plus the result of [timeUntilNextSchedule] is the witness
    of the slot after the slot of [t]. *)
Theorem schedule_advances (SlotLength t : Z) (sp : Pob.StaticProperty) (wl : list string) :
  0 < SlotLength →
  0 ≤ t →
  t + SlotLength * 10 ^ 9 ≤ Int64.MaxInt64 →
  ∃ r, Pob.timeUntilNextSchedule SlotLength t = Ret r
       ∧ Pob.witnessOfNanoSec SlotLength sp t wl
         = Pob.witnessOfSlot sp (t `div` (SlotLength * 10 ^ 9)) wl
       ∧ Pob.witnessOfNanoSec SlotLength sp (t + r) wl
         = Pob.witnessOfSlot sp (t `div` (SlotLength * 10 ^ 9) + 1) wl.
Proof.
  intros HSL Ht Hmax.
  destruct (timeUntilNextSchedule_next SlotLength t HSL Ht Hmax) as (r & Hr & Hrange & _ & Hsum).
  exists r. split; [done|].
  assert (HL : 0 < SlotLength * 10 ^ 9) by lia.
  rewrite !witnessOfNanoSec_slot
    by (try done; unfold Int64.InRange, Int64.MinInt64, Int64.MaxInt64 in *; lia).
  rewrite !Z.quot_div_nonneg by lia. split; [done|].
  rewrite Hsum, Z.div_mul by lia. done.
Qed.

Lemma schedule_advances_witness :
  ∃ r, Pob.timeUntilNextSchedule 3 7000000001 = Ret r
       ∧ Pob.witnessOfNanoSec 3 Fixtures.sp3 7000000001 ["w1"; "w2"; "w3"]
         = Pob.witnessOfSlot Fixtures.sp3 (7000000001 `div` (3 * 10 ^ 9)) ["w1"; "w2"; "w3"]
       ∧ Pob.witnessOfNanoSec 3 Fixtures.sp3 (7000000001 + r) ["w1"; "w2"; "w3"]
         = Pob.witnessOfSlot Fixtures.sp3 (7000000001 `div` (3 * 10 ^ 9) + 1)
             ["w1"; "w2"; "w3"].
Proof.
  apply (schedule_advances 3 7000000001 Fixtures.sp3 ["w1"; "w2"; "w3"]);
    vm_compute; (reflexivity || discriminate).
Defined.

(** ** When the last irreversible block advances *)

Section ConfirmAdvance.
Import Core Pob.

Lemma countZ_all {A : Type} (p : A → bool) (l : list A) :
  Forall (λ x, p x = true) l → countZ p l = Z.of_nat (length l).
Proof.
  induction 1 as [|x l Hx _ IH]; cbn [countZ length]; [done|]. rewrite Hx. lia.
Qed.

End ConfirmAdvance.

(** X27.  When the topmost walked nodes, as many as the limit, all have
    [ConfirmUntil] at most the number of the lowest of them, and the nodes
    above that one have greater numbers, [calculateConfirm] returns that
    lowest node: the block that a quorum of blocks has confirmed becomes the
    last irreversible one. *)
Theorem calculateConfirm_quorum_confirms (h : gmap positive Pob.BlockCacheNode)
  (sp : Pob.StaticProperty) (node root : positive) (r : Pob.BlockCacheNode)
  (path : list (positive * Pob.BlockCacheNode)) (fuel : nat)
  (k : nat) (p : positive) (n : Pob.BlockCacheNode) :
  h !! root = Some r →
  Pob.Walk h root (Some node) path →
  Z.of_nat (length path) ≤ 2 ^ 31 →
  (length path < fuel)%nat →
  Pob.limitOf sp = Z.of_nat (S k) →
  path !! k = Some (p, n) →
  (∀ i q m, (i ≤ k)%nat → path !! i = Some (q, m) →
            Pob.ConfirmUntil m ≤ Core.Number (Pob.NHead n)) →
  (∀ j q m, (j < k)%nat → path !! j = Some (q, m) →
            Core.Number (Pob.NHead n) < Core.Number (Pob.NHead m)) →
  Pob.calculateConfirm fuel h sp (Some node) (Some root) = Ret (Some p).
Proof.
  intros Hroot Hwalk Hlen Hfuel Hlim Hpk Hcu Hnum.
  rewrite (calculateConfirm_on_walk h sp node root r path fuel) by done.
  rewrite Hlim. unfold Pob.confirmedOnWalk.
  assert (Hklen : (k < length path)%nat) by (by eapply lookup_lt_Some).
  assert (Hnode : ∀ i m, (i ≤ k)%nat → path.*2 !! i = Some m →
                         Pob.ConfirmUntil m ≤ Core.Number (Pob.NHead n)
                         ∧ Core.Number (Pob.NHead n) ≤ Core.Number (Pob.NHead m)).
  { intros i m Hi Hm. rewrite list_lookup_fmap in Hm.
    destruct (path !! i) as [[q m']|] eqn:Hpi; [|done]. injection Hm as ->.
    split; [by eapply Hcu|].
    destruct (decide (i = k)) as [->|Hne].
    - rewrite Hpk in Hpi. injection Hpi as _ ->. lia.
    - pose proof (Hnum i q m ltac:(lia) Hpi). lia. }
  assert (Hcounted : ∀ j, (j ≤ k)%nat →
                          Pob.countedIn (path.*2) (S j) = Z.of_nat (S j)).
  { intros j Hj. unfold Pob.countedIn. rewrite countZ_all.
    - rewrite length_take, length_fmap. lia.
    - apply Forall_forall. intros m Hm. apply list_elem_of_lookup_1 in Hm as [i Hi].
      apply lookup_take_Some in Hi as [Hi Hij].
      destruct (Hnode i m ltac:(lia) Hi). unfold Pob.counted. lia. }
  assert (Hsub : ∀ j, (j < k)%nat → Pob.subtractedAt (path.*2) j = 0).
  { intros j Hj. unfold Pob.subtractedAt.
    destruct (path.*2 !! j) as [mj|] eqn:Hmj; [|done].
    assert (Hgt : Core.Number (Pob.NHead n) < Core.Number (Pob.NHead mj)).
    { rewrite list_lookup_fmap in Hmj.
      destruct (path !! j) as [[q m']|] eqn:Hpj; [|done]. injection Hmj as ->.
      by eapply Hnum. }
    apply countZ_none. apply Forall_forall. intros m Hm.
    apply list_elem_of_lookup_1 in Hm as [i Hi].
    apply lookup_take_Some in Hi as [Hi Hij].
    destruct (Hnode i m ltac:(lia) Hi) as [Hc _].
    destruct (Z.eqb_spec (Pob.ConfirmUntil m) (Core.Number (Pob.NHead mj))); [lia|].
    by rewrite andb_false_r. }
  assert (Hrc : ∀ j, (j ≤ k)%nat → Pob.runningCount (path.*2) j = Z.of_nat (S j)).
  { intros j Hj. unfold Pob.runningCount. rewrite Hcounted by done.
    rewrite sumTo_zero; [lia|]. intros i Hi. apply Hsub. lia. }
  rewrite (firstIndex_intro _ _ _ k).
  - cbn [mbind option_bind]. by rewrite Hpk.
  - lia.
  - cbn beta. rewrite Hrc by lia. apply Z.leb_le. lia.
  - intros j Hj. cbn beta. rewrite Hrc by lia. apply Z.leb_gt. lia.
Qed.

Lemma calculateConfirm_quorum_confirms_witness :
  Pob.calculateConfirm 5 Fixtures.heap Fixtures.sp3 (Some 4%positive) (Some 1%positive)
  = Ret (Some 2%positive).
Proof.
  apply (calculateConfirm_quorum_confirms Fixtures.heap Fixtures.sp3 4%positive 1%positive
           Fixtures.rootNode Fixtures.pathFrom4 5 2 2%positive Fixtures.node1).
  - vm_compute; reflexivity.
  - exact fixture_walk_from4.
  - vm_compute; discriminate.
  - cbn; lia.
  - vm_compute; reflexivity.
  - reflexivity.
  - intros i q m Hi Hpi.
    destruct i as [|[|[|i]]]; [| | |lia]; injection Hpi as _ <-; vm_compute; discriminate.
  - intros j q m Hj Hpj.
    destruct j as [|[|j]]; [| |lia]; injection Hpj as _ <-; vm_compute; reflexivity.
Defined.
